(** * primesieve: the segmented sieve of Eratosthenes driver

    A shallow embedding of [SieveOfEratosthenes.cpp] (namespace [soe]):
    the constructor with its [init]/[cleanUp] pair, [getByteRemainder],
    [preSieve], [crossOffMultiples], [sieveSegment] and [finish].

    The classes the driver owns but whose code lives in other files
    ([PreSieve], [EratSmall], [EratMedium], [EratBig]) and the constants of
    [config.h] are an interface ([Collaborators]); the results about the
    driver hold for every implementation of it.  A second part instantiates
    the interface with the contracts of the specification and proves that
    the driver then reports exactly the primes of [start, stop].  The
    cache sizes of [CpuInfo.cpp] and the example program
    [store_primes_in_vector.cpp] follow in modules of their own. *)

From Stdlib Require Import ZArith Znumtheory Lia String Ascii Sorted.
From stdpp Require Import list pretty.

Local Open Scope Z_scope.

(** ** Machine integers

    [uint_t] is [unsigned int] (32 bits), [uint64_t] and [byte_t] are what
    their names say.  A value is a [Z]; the conversions below are the
    wrap-around of unsigned arithmetic and are written wherever the source
    computes in that type. *)

Definition uint_t (x : Z) : Z := x mod 2 ^ 32.
Definition uint64_t (x : Z) : Z := x mod 2 ^ 64.
Definition byte_t (x : Z) : Z := x mod 2 ^ 8.

Definition NUMBERS_PER_BYTE : Z := 30.

(** [bitValues_]: bit [j] of byte [i] of a segment stands for the integer
    [segmentLow + 30 * i + bitValues_[j]]. *)
Definition bitValues_ : list Z := [7; 11; 13; 17; 19; 23; 29; 31].

(** Modelled from the spec: [imath.h] is not among the sources.  The spec
    lists "integer square root (exact floor), floor power of two, and value
    clamping". *)
Definition isqrt (x : Z) : Z := Z.sqrt x.

Definition floorPowerOf2 (x : Z) : Z :=
  if x <=? 0 then 0 else 2 ^ Z.log2 x.

Definition getInBetween (min value max : Z) : Z :=
  if value <? min then min
  else if max <? value then max
  else value.

(** The sieve size in KiB that the constructor keeps: the argument
    floored to a power of two and clamped to [1, 4096]. *)
Definition coerced (sieveSize : Z) : Z :=
  getInBetween 1 (floorPowerOf2 sieveSize) 4096.

(** Division rounding up, for counting segments. *)
Definition ceil_div (a b : Z) : Z := (a + b - 1) / b.

(** Modelled from the spec: [EratBig::getMaxStop()] is not among the sources;
    the constructor's [@pre] and the spec both give [2^64 - 2^32 * 10]. *)
Definition getMaxStop : Z := 2 ^ 64 - 2 ^ 32 * 10.

Definition getByteRemainder (n : Z) : Z :=
  let r := n mod NUMBERS_PER_BYTE in
  if r <=? 1 then r + NUMBERS_PER_BYTE else r.

(** ** Exceptions, the free store and owning pointers *)

Inductive exception : Type :=
| primesieve_error (what : string)
| bad_alloc
| std_exception.
(** [std_exception] is an object of the base class itself: what
    [throw e] raises when [e] is a [const std::exception&]. *)

(** The free store: the addresses that are live, and the number of
    allocation requests made so far.  Request number [k] fails when the
    oracle [oom k] says so. *)
Record heap : Type := Heap { live : list nat; requests : nat }.

(** An owning pointer is [NULL] or an address together with the object
    stored there (the driver never shares what it owns). *)
Definition ptr (T : Type) : Type := option (nat * T).

Definition NULL {T : Type} : ptr T := None.

Definition pointee {T : Type} (d : T) (p : ptr T) : T :=
  match p with Some (_, v) => v | None => d end.

(** [delete p]; deleting [NULL] does nothing. *)
Definition delete {T : Type} (p : ptr T) (h : heap) : heap :=
  match p with
  | None => h
  | Some (a, _) => Heap (filter (λ b, b ≠ a) (live h)) (requests h)
  end.

(** The free store never hands out an address twice: the live addresses
    are below the request counter. *)
Definition heap_wf (h : heap) : Prop :=
  Forall (λ a, (a < requests h)%nat) (live h).

(** ** Results of the sieving member functions

    [UB] is undefined behaviour in the source (dereferencing [NULL], an
    index outside the array); [OutOfFuel] is the model's bound on loop
    iterations being reached. *)

Inductive result (A : Type) : Type :=
| Ok (a : A)
| UB
| OutOfFuel.
Arguments Ok {A} a.
Arguments UB {A}.
Arguments OutOfFuel {A}.

#[global] Instance result_ret : MRet result := λ A a, Ok a.
#[global] Instance result_bind : MBind result := λ A B k m,
  match m with
  | Ok a => k a
  | UB => UB
  | OutOfFuel => OutOfFuel
  end.

Definition deref {T : Type} (p : ptr T) : result (nat * T) :=
  match p with Some av => Ok av | None => UB end.

(** ** Byte arrays *)

Definition load (a : list Z) (i : Z) : result Z :=
  if (0 <=? i) && (i <? Z.of_nat (length a))
  then match a !! Z.to_nat i with Some b => Ok b | None => UB end
  else UB.

Definition store (a : list Z) (i : Z) (v : Z) : result (list Z) :=
  if (0 <=? i) && (i <? Z.of_nat (length a))
  then Ok (<[Z.to_nat i := byte_t v]> a)
  else UB.

(** A callee that is handed the first [n] bytes of the array and leaves
    [new] there.  Its writes are confined to that window: the bytes of the
    array from [n] on keep their value, and so does a byte for which [new]
    has no entry. *)
Definition write_window (n : Z) (new old : list Z) : list Z :=
  imap (λ i b, if Z.of_nat i <? n
               then match new !! i with Some v => byte_t v | None => b end
               else b) old.

(** ** The classes the driver owns *)

Class Collaborators : Type := {
  (** [static_cast<uint_t>(sieveSize * config::FACTOR_ERATSMALL)] and
      [static_cast<uint_t>(sieveSize * config::FACTOR_ERATMEDIUM)], as
      functions of [sieveSize] (the factors are floating point constants of
      [config.h]) *)
  limitEratSmall_of : Z → Z;
  limitEratMedium_of : Z → Z;
  (** [PreSieve(limit)] and [doIt(sieve, sieveSize, segmentLow)] *)
  PreSieve : Type;
  PreSieve_ctor : Z → exception + PreSieve;
  PreSieve_doIt : PreSieve → Z → Z → list Z;
  (** [EratSmall(stop, sieveSize, limit)], [addSievingPrime(prime,
      segmentLow)] and [crossOff(sieve, sieveEnd)] *)
  EratSmall : Type;
  EratSmall_ctor : Z → Z → Z → exception + EratSmall;
  EratSmall_addSievingPrime : EratSmall → Z → Z → EratSmall;
  EratSmall_crossOff : EratSmall → list Z → EratSmall * list Z;
  (** [EratMedium(stop, sieveSize, limit)], [addSievingPrime] and
      [crossOff(sieve, sieveSize)] *)
  EratMedium : Type;
  EratMedium_ctor : Z → Z → Z → exception + EratMedium;
  EratMedium_addSievingPrime : EratMedium → Z → Z → EratMedium;
  EratMedium_crossOff : EratMedium → list Z → EratMedium * list Z;
  (** [EratBig(stop, sieveSize, limit)], [addSievingPrime] and
      [crossOff(sieve)]: this one is given the array only, and may touch
      all of it *)
  EratBig : Type;
  EratBig_ctor : Z → Z → Z → exception + EratBig;
  EratBig_addSievingPrime : EratBig → Z → Z → EratBig;
  EratBig_crossOff : EratBig → list Z → EratBig * list Z;
}.

(** One call of the sink [segmentProcessed(sieve_, sieveSize_)]: the array
    as it is at the call, the length passed, and [segmentLow_] at that
    time (the sink decodes bits relative to it). *)
Record Segment : Type := {
  seg_low : Z;
  seg_size : Z;
  seg_bytes : list Z;
}.

(** ** The driver *)

Section Driver.
Context `{C : Collaborators}.

(** The data members of [SieveOfEratosthenes], and [delivered]: the calls of
    the pure virtual [segmentProcessed] made so far, oldest first (the
    only effect of the driver that its caller observes). *)
Record SieveOfEratosthenes : Type := {
  start_ : Z;
  stop_ : Z;
  sqrtStop_ : Z;
  limitPreSieve_ : Z;
  limitEratSmall_ : Z;
  limitEratMedium_ : Z;
  sieveSize_ : Z;
  segmentLow_ : Z;
  segmentHigh_ : Z;
  sieve_ : ptr (list Z);
  preSieve_ : ptr PreSieve;
  eratSmall_ : ptr EratSmall;
  eratMedium_ : ptr EratMedium;
  eratBig_ : ptr EratBig;
  delivered : list Segment;
}.

(** Assignments to one data member. *)
Definition set_sqrtStop (v : Z) (e : SieveOfEratosthenes) : SieveOfEratosthenes :=
  {| start_ := start_ e; stop_ := stop_ e; sqrtStop_ := v; limitPreSieve_ :=
     limitPreSieve_ e; limitEratSmall_ := limitEratSmall_ e;
     limitEratMedium_ := limitEratMedium_ e; sieveSize_ := sieveSize_ e;
     segmentLow_ := segmentLow_ e; segmentHigh_ := segmentHigh_ e; sieve_ :=
     sieve_ e; preSieve_ := preSieve_ e; eratSmall_ := eratSmall_ e;
     eratMedium_ := eratMedium_ e; eratBig_ := eratBig_ e; delivered :=
     delivered e |}.

Definition set_limitEratSmall (v : Z) (e : SieveOfEratosthenes) : SieveOfEratosthenes :=
  {| start_ := start_ e; stop_ := stop_ e; sqrtStop_ := sqrtStop_ e;
     limitPreSieve_ := limitPreSieve_ e; limitEratSmall_ := v;
     limitEratMedium_ := limitEratMedium_ e; sieveSize_ := sieveSize_ e;
     segmentLow_ := segmentLow_ e; segmentHigh_ := segmentHigh_ e; sieve_ :=
     sieve_ e; preSieve_ := preSieve_ e; eratSmall_ := eratSmall_ e;
     eratMedium_ := eratMedium_ e; eratBig_ := eratBig_ e; delivered :=
     delivered e |}.

Definition set_limitEratMedium (v : Z) (e : SieveOfEratosthenes) : SieveOfEratosthenes :=
  {| start_ := start_ e; stop_ := stop_ e; sqrtStop_ := sqrtStop_ e;
     limitPreSieve_ := limitPreSieve_ e; limitEratSmall_ := limitEratSmall_
     e; limitEratMedium_ := v; sieveSize_ := sieveSize_ e; segmentLow_ :=
     segmentLow_ e; segmentHigh_ := segmentHigh_ e; sieve_ := sieve_ e;
     preSieve_ := preSieve_ e; eratSmall_ := eratSmall_ e; eratMedium_ :=
     eratMedium_ e; eratBig_ := eratBig_ e; delivered := delivered e |}.

Definition set_sieveSize (v : Z) (e : SieveOfEratosthenes) : SieveOfEratosthenes :=
  {| start_ := start_ e; stop_ := stop_ e; sqrtStop_ := sqrtStop_ e;
     limitPreSieve_ := limitPreSieve_ e; limitEratSmall_ := limitEratSmall_
     e; limitEratMedium_ := limitEratMedium_ e; sieveSize_ := v; segmentLow_
     := segmentLow_ e; segmentHigh_ := segmentHigh_ e; sieve_ := sieve_ e;
     preSieve_ := preSieve_ e; eratSmall_ := eratSmall_ e; eratMedium_ :=
     eratMedium_ e; eratBig_ := eratBig_ e; delivered := delivered e |}.

Definition set_segmentLow (v : Z) (e : SieveOfEratosthenes) : SieveOfEratosthenes :=
  {| start_ := start_ e; stop_ := stop_ e; sqrtStop_ := sqrtStop_ e;
     limitPreSieve_ := limitPreSieve_ e; limitEratSmall_ := limitEratSmall_
     e; limitEratMedium_ := limitEratMedium_ e; sieveSize_ := sieveSize_ e;
     segmentLow_ := v; segmentHigh_ := segmentHigh_ e; sieve_ := sieve_ e;
     preSieve_ := preSieve_ e; eratSmall_ := eratSmall_ e; eratMedium_ :=
     eratMedium_ e; eratBig_ := eratBig_ e; delivered := delivered e |}.

Definition set_segmentHigh (v : Z) (e : SieveOfEratosthenes) : SieveOfEratosthenes :=
  {| start_ := start_ e; stop_ := stop_ e; sqrtStop_ := sqrtStop_ e;
     limitPreSieve_ := limitPreSieve_ e; limitEratSmall_ := limitEratSmall_
     e; limitEratMedium_ := limitEratMedium_ e; sieveSize_ := sieveSize_ e;
     segmentLow_ := segmentLow_ e; segmentHigh_ := v; sieve_ := sieve_ e;
     preSieve_ := preSieve_ e; eratSmall_ := eratSmall_ e; eratMedium_ :=
     eratMedium_ e; eratBig_ := eratBig_ e; delivered := delivered e |}.

Definition set_sieve (v : ptr (list Z)) (e : SieveOfEratosthenes) : SieveOfEratosthenes :=
  {| start_ := start_ e; stop_ := stop_ e; sqrtStop_ := sqrtStop_ e;
     limitPreSieve_ := limitPreSieve_ e; limitEratSmall_ := limitEratSmall_
     e; limitEratMedium_ := limitEratMedium_ e; sieveSize_ := sieveSize_ e;
     segmentLow_ := segmentLow_ e; segmentHigh_ := segmentHigh_ e; sieve_ :=
     v; preSieve_ := preSieve_ e; eratSmall_ := eratSmall_ e; eratMedium_ :=
     eratMedium_ e; eratBig_ := eratBig_ e; delivered := delivered e |}.

Definition set_preSieve (v : ptr PreSieve) (e : SieveOfEratosthenes) : SieveOfEratosthenes :=
  {| start_ := start_ e; stop_ := stop_ e; sqrtStop_ := sqrtStop_ e;
     limitPreSieve_ := limitPreSieve_ e; limitEratSmall_ := limitEratSmall_
     e; limitEratMedium_ := limitEratMedium_ e; sieveSize_ := sieveSize_ e;
     segmentLow_ := segmentLow_ e; segmentHigh_ := segmentHigh_ e; sieve_ :=
     sieve_ e; preSieve_ := v; eratSmall_ := eratSmall_ e; eratMedium_ :=
     eratMedium_ e; eratBig_ := eratBig_ e; delivered := delivered e |}.

Definition set_eratSmall (v : ptr EratSmall) (e : SieveOfEratosthenes) : SieveOfEratosthenes :=
  {| start_ := start_ e; stop_ := stop_ e; sqrtStop_ := sqrtStop_ e;
     limitPreSieve_ := limitPreSieve_ e; limitEratSmall_ := limitEratSmall_
     e; limitEratMedium_ := limitEratMedium_ e; sieveSize_ := sieveSize_ e;
     segmentLow_ := segmentLow_ e; segmentHigh_ := segmentHigh_ e; sieve_ :=
     sieve_ e; preSieve_ := preSieve_ e; eratSmall_ := v; eratMedium_ :=
     eratMedium_ e; eratBig_ := eratBig_ e; delivered := delivered e |}.

Definition set_eratMedium (v : ptr EratMedium) (e : SieveOfEratosthenes) : SieveOfEratosthenes :=
  {| start_ := start_ e; stop_ := stop_ e; sqrtStop_ := sqrtStop_ e;
     limitPreSieve_ := limitPreSieve_ e; limitEratSmall_ := limitEratSmall_
     e; limitEratMedium_ := limitEratMedium_ e; sieveSize_ := sieveSize_ e;
     segmentLow_ := segmentLow_ e; segmentHigh_ := segmentHigh_ e; sieve_ :=
     sieve_ e; preSieve_ := preSieve_ e; eratSmall_ := eratSmall_ e;
     eratMedium_ := v; eratBig_ := eratBig_ e; delivered := delivered e |}.

Definition set_eratBig (v : ptr EratBig) (e : SieveOfEratosthenes) : SieveOfEratosthenes :=
  {| start_ := start_ e; stop_ := stop_ e; sqrtStop_ := sqrtStop_ e;
     limitPreSieve_ := limitPreSieve_ e; limitEratSmall_ := limitEratSmall_
     e; limitEratMedium_ := limitEratMedium_ e; sieveSize_ := sieveSize_ e;
     segmentLow_ := segmentLow_ e; segmentHigh_ := segmentHigh_ e; sieve_ :=
     sieve_ e; preSieve_ := preSieve_ e; eratSmall_ := eratSmall_ e;
     eratMedium_ := eratMedium_ e; eratBig_ := v; delivered := delivered e
     |}.

Definition set_delivered (v : list Segment) (e : SieveOfEratosthenes) : SieveOfEratosthenes :=
  {| start_ := start_ e; stop_ := stop_ e; sqrtStop_ := sqrtStop_ e;
     limitPreSieve_ := limitPreSieve_ e; limitEratSmall_ := limitEratSmall_
     e; limitEratMedium_ := limitEratMedium_ e; sieveSize_ := sieveSize_ e;
     segmentLow_ := segmentLow_ e; segmentHigh_ := segmentHigh_ e; sieve_ :=
     sieve_ e; preSieve_ := preSieve_ e; eratSmall_ := eratSmall_ e;
     eratMedium_ := eratMedium_ e; eratBig_ := eratBig_ e; delivered := v |}.

(** *** Construction

    The constructor and [init] run in a state-and-exception monad: the state
    is the object under construction and the free store; an exception
    leaves with the state as it is at the [throw]. *)

Variable oom : nat → bool.
(** The indeterminate value of byte [i] of a fresh array. *)
Variable garbage : nat → Z.

Definition ctorM (A : Type) : Type :=
  SieveOfEratosthenes * heap → (exception + A) * (SieveOfEratosthenes * heap).

#[local] Instance ctorM_ret : MRet ctorM := λ A a s, (inr a, s).
#[local] Instance ctorM_bind : MBind ctorM := λ A B k m s,
  match m s with
  | (inr a, s') => k a s'
  | (inl x, s') => (inl x, s')
  end.

Definition throw {A : Type} (x : exception) : ctorM A := λ s, (inl x, s).

Definition try_catch {A : Type} (body : ctorM A) (handler : exception → ctorM A)
  : ctorM A :=
  λ s, match body s with
       | (inl x, s') => handler x s'
       | r => r
       end.

Definition this : ctorM SieveOfEratosthenes := λ s, (inr (fst s), s).

Definition assign (f : SieveOfEratosthenes → SieveOfEratosthenes) : ctorM unit :=
  λ s, (inr tt, (f (fst s), snd s)).

(** [new T(args)]: the request may fail ([bad_alloc]); if the constructor of
    [T] throws, the new-expression gives the storage back and the exception
    goes on; otherwise the object lives at a fresh address. *)
Definition new {T : Type} (c : exception + T) : ctorM (ptr T) :=
  λ s, let h := snd s in
       let k := requests h in
       if oom k then (inl bad_alloc, (fst s, Heap (live h) (S k)))
       else match c with
            | inl x => (inl x, (fst s, Heap (live h) (S k)))
            | inr v => (inr (Some (k, v)), (fst s, Heap (k :: live h) (S k)))
            end.

Definition fresh_array (n : Z) : list Z :=
  (λ i, byte_t (garbage i)) <$> seq 0 (Z.to_nat n).

Definition cleanUp : ctorM unit :=
  λ s, let e := fst s in
       (inr tt,
        (e, delete (eratBig_ e) (delete (eratMedium_ e) (delete (eratSmall_ e)
              (delete (preSieve_ e) (delete (sieve_ e) (snd s))))))).

Definition init : ctorM unit :=
  e ← this;
  _ ← assign (set_limitEratSmall (limitEratSmall_of (sieveSize_ e)));
  _ ← assign (set_limitEratMedium (limitEratMedium_of (sieveSize_ e)));
  try_catch
    (e ← this;
     p ← new (PreSieve_ctor (limitPreSieve_ e));
     _ ← assign (set_preSieve p);
     _ ← (if limitPreSieve_ e <? sqrtStop_ e
          then p ← new (EratSmall_ctor (stop_ e) (sieveSize_ e) (limitEratSmall_ e));
               assign (set_eratSmall p)
          else mret tt);
     _ ← (if limitEratSmall_ e <? sqrtStop_ e
          then p ← new (EratMedium_ctor (stop_ e) (sieveSize_ e) (limitEratMedium_ e));
               assign (set_eratMedium p)
          else mret tt);
     if limitEratMedium_ e <? sqrtStop_ e
     then p ← new (EratBig_ctor (stop_ e) (sieveSize_ e) (sqrtStop_ e));
          assign (set_eratBig p)
     else mret tt)
    (λ _, _ ← cleanUp; throw std_exception).

(** The object as the member initialisers leave it; the members they do not
    mention are indeterminate and are assigned before they are read. *)
Definition initialised (start stop preSieve : Z) : SieveOfEratosthenes :=
  {| start_ := start; stop_ := stop; sqrtStop_ := 0;
     limitPreSieve_ := preSieve; limitEratSmall_ := 0; limitEratMedium_ := 0;
     sieveSize_ := 0; segmentLow_ := 0; segmentHigh_ := 0;
     sieve_ := NULL; preSieve_ := NULL; eratSmall_ := NULL;
     eratMedium_ := NULL; eratBig_ := NULL; delivered := [] |}.

Definition SieveOfEratosthenes_body (sieveSize : Z) : ctorM unit :=
  e ← this;
  if start_ e <? 7
  then throw (primesieve_error "SieveOfEratosthenes: start must be >= 7")
  else if stop_ e <? start_ e
  then throw (primesieve_error "SieveOfEratosthenes: start must be <= stop")
  else
    _ ← assign (set_sqrtStop (uint_t (isqrt (stop_ e))));
    _ ← assign (set_sieveSize (getInBetween 1 (floorPowerOf2 sieveSize) 4096));
    _ ← assign (λ e, set_sieveSize (uint_t (sieveSize_ e * 1024)) e);
    _ ← assign (λ e, set_segmentLow
                       (uint64_t (start_ e - getByteRemainder (start_ e))) e);
    _ ← assign (λ e, set_segmentHigh
                       (uint64_t (segmentLow_ e
                                  + uint_t (sieveSize_ e * NUMBERS_PER_BYTE) + 1)) e);
    e ← this;
    p ← new (inr (fresh_array (sieveSize_ e)));
    _ ← assign (set_sieve p);
    init.

(** Constructing an engine: either the exception that left the constructor,
    or the engine; with the free store afterwards. *)
Definition construct (start stop sieveSize preSieve : Z) (h : heap)
  : (exception + SieveOfEratosthenes) * heap :=
  match SieveOfEratosthenes_body sieveSize (initialised start stop preSieve, h) with
  | (inl x, (_, h')) => (inl x, h')
  | (inr _, (e, h')) => (inr e, h')
  end.

(** The destructor. *)
Definition destroy (e : SieveOfEratosthenes) (h : heap) : heap :=
  snd (snd (cleanUp (e, h))).

(** *** Sieving *)

(** [while (bitValues_[i] < remainder) i++;] started at [i]: reading past
    the end of the table is undefined. *)
Fixpoint skip_below (remainder : Z) (values : list Z) (i : Z) : result Z :=
  match values with
  | [] => UB
  | v :: values' =>
      if v <? remainder then skip_below remainder values' (i + 1) else Ok i
  end.

(** [for (i = 0; i < 8; i++) if (bitValues_[i] > remainder) break;] *)
Fixpoint upto_above (remainder : Z) (values : list Z) (i : Z) : Z :=
  match values with
  | [] => i
  | v :: values' =>
      if remainder <? v then i else upto_above remainder values' (i + 1)
  end.

Definition preSieve (e : SieveOfEratosthenes) : result SieveOfEratosthenes :=
  '(_, pre) ← deref (preSieve_ e);
  '(a, bytes) ← deref (sieve_ e);
  let bytes :=
    write_window (sieveSize_ e)
                 (PreSieve_doIt pre (sieveSize_ e) (segmentLow_ e)) bytes in
  if segmentLow_ e <=? start_ e then
    bytes ← (if start_ e <=? limitPreSieve_ e
             then store bytes 0 255
             else Ok bytes);
    let remainder := getByteRemainder (start_ e) in
    i ← skip_below remainder bitValues_ 0;
    b ← load bytes 0;
    bytes ← store bytes 0 (Z.land b (Z.shiftl 255 i));
    Ok (set_sieve (Some (a, bytes)) e)
  else Ok (set_sieve (Some (a, bytes)) e).

(** [if (tier) tier->crossOff(...)] on the first [n] bytes of the array. *)
Definition crossOff_if {T : Type} (crossOff : T → list Z → T * list Z)
    (tier : ptr T) (n : Z) (bytes : list Z) : ptr T * list Z :=
  match tier with
  | None => (None, bytes)
  | Some (a, t) =>
      let '(t', new) := crossOff t (take (Z.to_nat n) bytes) in
      (Some (a, t'), write_window n new bytes)
  end.

Definition crossOffMultiples (e : SieveOfEratosthenes)
  : result SieveOfEratosthenes :=
  '(a, bytes) ← deref (sieve_ e);
  let '(small, bytes) :=
    crossOff_if EratSmall_crossOff (eratSmall_ e) (sieveSize_ e) bytes in
  let '(medium, bytes) :=
    crossOff_if EratMedium_crossOff (eratMedium_ e) (sieveSize_ e) bytes in
  let '(big, bytes) :=
    crossOff_if EratBig_crossOff (eratBig_ e) (Z.of_nat (length bytes)) bytes in
  Ok (set_eratBig big (set_eratMedium medium (set_eratSmall small
        (set_sieve (Some (a, bytes)) e)))).

(** The sink is called with the array and [sieveSize_]. *)
Definition segmentProcessed (e : SieveOfEratosthenes) : SieveOfEratosthenes :=
  set_delivered
    (delivered e ++ [ {| seg_low := segmentLow_ e; seg_size := sieveSize_ e;
                         seg_bytes := pointee [] (sieve_ e) |} ]) e.

Definition sieveSegment (e : SieveOfEratosthenes) : result SieveOfEratosthenes :=
  e ← preSieve e;
  e ← crossOffMultiples e;
  Ok (segmentProcessed e).

(** [while (segmentHigh_ < stop_) { ... }], at most [fuel] iterations. *)
Fixpoint finish_loop (fuel : nat) (e : SieveOfEratosthenes)
  : result SieveOfEratosthenes :=
  if segmentHigh_ e <? stop_ e then
    match fuel with
    | O => OutOfFuel
    | S fuel' =>
        e ← sieveSegment e;
        let e := set_segmentLow
                   (uint64_t (segmentLow_ e
                              + uint_t (sieveSize_ e * NUMBERS_PER_BYTE))) e in
        let e := set_segmentHigh
                   (uint64_t (segmentHigh_ e
                              + uint_t (sieveSize_ e * NUMBERS_PER_BYTE))) e in
        finish_loop fuel' e
    end
  else Ok e.

(** [for (uint_t j = sieveSize_; j % 8 != 0; j++) sieve_[j] = 0;] started
    at [j]; it stops within seven steps. *)
Fixpoint zero_tail (fuel : nat) (j : Z) (bytes : list Z) : result (list Z) :=
  if j mod 8 =? 0 then Ok bytes
  else match fuel with
       | O => OutOfFuel
       | S fuel' =>
           bytes ← store bytes j 0;
           zero_tail fuel' (uint_t (j + 1)) bytes
       end.

Definition finish (fuel : nat) (e : SieveOfEratosthenes)
  : result SieveOfEratosthenes :=
  e ← finish_loop fuel e;
  let remainder := getByteRemainder (stop_ e) in
  let e := set_sieveSize
             (uint_t (uint_t (uint64_t (uint64_t (stop_ e - remainder)
                                        - segmentLow_ e))
                      / NUMBERS_PER_BYTE + 1)) e in
  let e := set_segmentHigh
             (uint64_t (segmentLow_ e
                        + uint_t (sieveSize_ e * NUMBERS_PER_BYTE) + 1)) e in
  e ← preSieve e;
  e ← crossOffMultiples e;
  let i := upto_above remainder bitValues_ 0 in
  '(a, bytes) ← deref (sieve_ e);
  b ← load bytes (uint_t (sieveSize_ e - 1));
  bytes ← store bytes (uint_t (sieveSize_ e - 1))
                (Z.land b (Z.lnot (Z.shiftl 255 i)));
  bytes ← zero_tail 8 (sieveSize_ e) bytes;
  Ok (segmentProcessed (set_sieve (Some (a, bytes)) e)).

(** Modelled from the spec: [addSievingPrime] is declared in
    [SieveOfEratosthenes.h], which is not among the sources.  "The driver
    routes by magnitude: p <= limitPreSieve -> discarded (handled by PreSieve
    mask); else p <= limitEratSmall -> EratSmall; else p <= limitEratMedium ->
    EratMedium; else -> EratBig."  The tier is reached through the driver's
    pointer, [NULL] when [init] did not create it. *)
Definition addSievingPrime (prime : Z) (e : SieveOfEratosthenes)
  : result SieveOfEratosthenes :=
  if prime <=? limitPreSieve_ e then Ok e
  else if prime <=? limitEratSmall_ e then
    '(a, t) ← deref (eratSmall_ e);
    Ok (set_eratSmall
          (Some (a, EratSmall_addSievingPrime t prime (segmentLow_ e))) e)
  else if prime <=? limitEratMedium_ e then
    '(a, t) ← deref (eratMedium_ e);
    Ok (set_eratMedium
          (Some (a, EratMedium_addSievingPrime t prime (segmentLow_ e))) e)
  else
    '(a, t) ← deref (eratBig_ e);
    Ok (set_eratBig
          (Some (a, EratBig_addSievingPrime t prime (segmentLow_ e))) e).

Fixpoint addSievingPrimes (primes : list Z) (e : SieveOfEratosthenes)
  : result SieveOfEratosthenes :=
  match primes with
  | [] => Ok e
  | p :: primes' => e ← addSievingPrime p e; addSievingPrimes primes' e
  end.

(** A full run on a constructed engine: the producer adds its sieving
    primes, then calls [finish]. *)
Definition sieve (fuel : nat) (primes : list Z) (e : SieveOfEratosthenes)
  : result SieveOfEratosthenes :=
  e ← addSievingPrimes primes e;
  finish fuel e.

(** *** Invariants and the points of a run

    What the proofs below say about the member functions is stated with the
    definitions of this part. *)

Implicit Types e x : SieveOfEratosthenes.

(** The array as [preSieve_->doIt] leaves it. *)
Definition filled e (pre : PreSieve) (bytes : list Z) : list Z :=
  write_window (sieveSize_ e)
               (PreSieve_doIt pre (sieveSize_ e) (segmentLow_ e)) bytes.

(** The data members no member function assigns after construction, up to
    the last segment. *)
Definition scalars e : Z * Z * Z * Z * Z * Z * Z :=
  (start_ e, stop_ e, sqrtStop_ e, limitPreSieve_ e, limitEratSmall_ e,
   limitEratMedium_ e, sieveSize_ e).

(** [segmentLow_] right after construction, and the integers one full
    segment spans. *)
Definition low0 e : Z := start_ e - getByteRemainder (start_ e).
Definition width e : Z := sieveSize_ e * NUMBERS_PER_BYTE.

(** The two assignments that end an iteration of the segment loop. *)
Definition advance_window e : SieveOfEratosthenes :=
  let e := set_segmentLow
             (uint64_t (segmentLow_ e + uint_t (sieveSize_ e * NUMBERS_PER_BYTE))) e in
  set_segmentHigh
    (uint64_t (segmentHigh_ e + uint_t (sieveSize_ e * NUMBERS_PER_BYTE))) e.

(** The assignments to [sieveSize_] and [segmentHigh_] that open the last
    segment, and the rest of [finish]. *)
Definition last_segment e : SieveOfEratosthenes :=
  let remainder := getByteRemainder (stop_ e) in
  let e := set_sieveSize
             (uint_t (uint_t (uint64_t (uint64_t (stop_ e - remainder)
                                        - segmentLow_ e))
                      / NUMBERS_PER_BYTE + 1)) e in
  set_segmentHigh
    (uint64_t (segmentLow_ e + uint_t (sieveSize_ e * NUMBERS_PER_BYTE) + 1)) e.

Definition deliver_last (remainder : Z) e : result SieveOfEratosthenes :=
  let i := upto_above remainder bitValues_ 0 in
  '(a, bytes) ← deref (sieve_ e);
  b ← load bytes (uint_t (sieveSize_ e - 1));
  bytes ← store bytes (uint_t (sieveSize_ e - 1))
                (Z.land b (Z.lnot (Z.shiftl 255 i)));
  bytes ← zero_tail 8 (sieveSize_ e) bytes;
  Ok (segmentProcessed (set_sieve (Some (a, bytes)) e)).

(** Between two segments of a run, before the last one. *)
Record ready e : Prop := {
  r_start : 7 ≤ start_ e ≤ stop_ e;
  r_stop : stop_ e ≤ getMaxStop;
  r_size : 1024 ≤ sieveSize_ e ≤ 2 ^ 22;
  r_size8 : sieveSize_ e mod 8 = 0;
  r_low : segmentLow_ e = low0 e + Z.of_nat (length (delivered e)) * width e;
  r_high : segmentHigh_ e = segmentLow_ e + width e + 1;
  r_next : segmentLow_ e + 2 ≤ stop_ e;
  r_sieve : ∃ a bytes, sieve_ e = Some (a, bytes)
                       ∧ Z.of_nat (length bytes) = sieveSize_ e;
  r_preSieve : is_Some (preSieve_ e);
  r_eratSmall : limitPreSieve_ e < sqrtStop_ e → is_Some (eratSmall_ e);
  r_eratMedium : limitEratSmall_ e < sqrtStop_ e → is_Some (eratMedium_ e);
  r_eratBig : limitEratMedium_ e < sqrtStop_ e → is_Some (eratBig_ e);
  r_delivered : ∀ (k : nat) seg, delivered e !! k = Some seg →
      seg_low seg = low0 e + Z.of_nat k * width e
      ∧ seg_size seg = sieveSize_ e
      ∧ Z.of_nat (length (seg_bytes seg)) = sieveSize_ e;
}.

(** The engine the constructor returns. *)
Definition exists_iff {T : Type} (b : bool) (p : ptr T) : Prop :=
  if b then is_Some p else p = None.

Record constructed (start stop sieveSize preSieve : Z) e : Prop := {
  c_start : start_ e = start;
  c_stop : stop_ e = stop;
  c_sqrtStop : sqrtStop_ e = uint_t (isqrt stop);
  c_limitPreSieve : limitPreSieve_ e = preSieve;
  c_limitEratSmall : limitEratSmall_ e = limitEratSmall_of (sieveSize_ e);
  c_limitEratMedium : limitEratMedium_ e = limitEratMedium_of (sieveSize_ e);
  c_sieveSize : sieveSize_ e = uint_t (coerced sieveSize * 1024);
  c_segmentLow : segmentLow_ e = uint64_t (start - getByteRemainder start);
  c_segmentHigh :
    segmentHigh_ e
    = uint64_t (segmentLow_ e + uint_t (sieveSize_ e * NUMBERS_PER_BYTE) + 1);
  c_sieve : ∃ a bytes, sieve_ e = Some (a, bytes)
                       ∧ length bytes = Z.to_nat (sieveSize_ e);
  c_preSieve : is_Some (preSieve_ e);
  c_eratSmall : exists_iff (limitPreSieve_ e <? sqrtStop_ e) (eratSmall_ e);
  c_eratMedium : exists_iff (limitEratSmall_ e <? sqrtStop_ e) (eratMedium_ e);
  c_eratBig : exists_iff (limitEratMedium_ e <? sqrtStop_ e) (eratBig_ e);
  c_delivered : delivered e = [];
}.

(** The points of a run:

    From the constructed engine [e0], the producer adds sieving primes and
    the segment loop advances while [segmentHigh_ < stop_]. *)
Inductive sieving (e0 : SieveOfEratosthenes) : SieveOfEratosthenes → Prop :=
| sieving_constructed : sieving e0 e0
| sieving_addSievingPrime prime e e' :
    sieving e0 e → prime ≤ sqrtStop_ e → addSievingPrime prime e = Ok e' →
    sieving e0 e'
| sieving_segment e e' :
    sieving e0 e → segmentHigh_ e < stop_ e → sieveSegment e = Ok e' →
    sieving e0 (advance_window e').

(** The iterations of the segment loop alone. *)
Inductive looping (e0 : SieveOfEratosthenes) : SieveOfEratosthenes → Prop :=
| looping_enter : looping e0 e0
| looping_iterate e e' :
    looping e0 e → segmentHigh_ e < stop_ e → sieveSegment e = Ok e' →
    looping e0 (advance_window e').

(** The iterations the segment loop still makes. *)
Definition segments_left e : nat :=
  Z.to_nat ((stop_ e - segmentHigh_ e + width e - 1) / width e).

(** The states in which a run calls [preSieve]: at the top of an iteration
    of the segment loop, and on the shrunk window of the last segment. *)
Inductive presieving (e0 : SieveOfEratosthenes) : SieveOfEratosthenes → Prop :=
| presieving_loop x :
    sieving e0 x → segmentHigh_ x < stop_ x → presieving e0 x
| presieving_last x :
    sieving e0 x → stop_ x ≤ segmentHigh_ x → presieving e0 (last_segment x).

End Driver.

(** ** What the sink reads *)

(** The integers of the set bits of one byte: bit [j] of the byte whose
    first integer is [base] stands for [base + bitValues_[j]]. *)
Definition decode_byte (base : Z) (b : Z) : list Z :=
  mjoin (imap (λ j v, if Z.testbit b (Z.of_nat j) then [base + v] else [])
              bitValues_).

(** The integers of the set bits of a delivered segment, over the
    [seg_size] bytes the sink was given. *)
Definition decode (s : Segment) : list Z :=
  mjoin (imap (λ i b, decode_byte (seg_low s + NUMBERS_PER_BYTE * Z.of_nat i) b)
              (take (Z.to_nat (seg_size s)) (seg_bytes s))).

Definition reported (segments : list Segment) : list Z :=
  mjoin (decode <$> segments).

(** ** The collaborators of the specification *)

Module Spec.

(** A byte from its eight bits, lowest first. *)
Fixpoint byte_of_bits (bits : list bool) : Z :=
  match bits with
  | [] => 0
  | b :: bits' => Z.b2z b + 2 * byte_of_bits bits'
  end.

Definition divides (p n : Z) : bool := n mod p =? 0.

(** Modelled from the spec: [PreSieve.h] and [PreSieve.cpp] are not among the
    sources.  "Input: a preSieve limit L in [13, 23]."  "After doIt, every bit
    corresponding to a multiple of any prime <= L is clear; all other bits in
    the wheel residues are set."  The primes are those of the wheel, from 7
    on: a multiple of 2, 3 or 5 has no bit. *)
Definition presieve_primes (limit : Z) : list Z :=
  filter (λ q, q ≤ limit) [7; 11; 13; 17; 19; 23].

Definition presieved (limit n : Z) : bool :=
  forallb (λ q, negb (divides q n)) (presieve_primes limit).

Definition PreSieve_new (limit : Z) : exception + Z :=
  if (13 <=? limit) && (limit <=? 23) then inr limit
  else inl (primesieve_error "PreSieve: limit must be >= 13 && <= 23").

Definition PreSieve_fill (limit sieveSize segmentLow : Z) : list Z :=
  (λ i, byte_of_bits
          ((λ v, presieved limit (segmentLow + NUMBERS_PER_BYTE * i + v))
             <$> bitValues_))
    <$> seqZ 0 sieveSize.

(** Modelled from the spec: the three tiers ([EratSmall], [EratMedium],
    [EratBig] and the wheel classes under them) are not among the sources.
    A tier owns sieving prime records: "the prime value p, and a resumable
    state describing the next composite to cross off", kept here as the
    distance of that composite from the low end of the segment the tier
    is at. *)
Definition Tier : Type := list (Z * Z).

Definition Tier_new (stop sieveSize limit : Z) : exception + Tier := inr [].

(** "EratBig publishes a hard cap getMaxStop()" and "stop above max-stop" is
    a precondition error. *)
Definition EratBig_new (stop sieveSize limit : Z) : exception + Tier :=
  if stop <=? getMaxStop then inr []
  else inl (primesieve_error "EratBig: stop must be <= getMaxStop()").

(** "The tier stores the first multiple of p that is >= p^2 and >=
    segmentLow." *)
Definition first_multiple (p segmentLow : Z) : Z :=
  let m := Z.max (p * p) segmentLow in
  (m + p - 1) / p * p.

Definition Tier_add (t : Tier) (prime segmentLow : Z) : Tier :=
  t ++ [(prime, first_multiple prime segmentLow - segmentLow)].

(** The integer at distance [o] from the low end is the next composite of a
    record, or a later multiple of its prime. *)
Definition hit (t : Tier) (o : Z) : bool :=
  existsb (λ r, (r.2 <=? o) && divides r.1 (o - r.2)) t.

(** "After the pass, this state is advanced past the segment ... so the next
    segment can resume": [width] integers further, the next composite is the
    first multiple past this segment's last integer, [width + 1]. *)
Definition advance (width : Z) (r : Z * Z) : Z * Z :=
  let '(p, next) := r in
  if next <=? width + 1
  then (p, next + p * ((width + 1 - next) / p + 1) - width)
  else (p, next - width).

(** "crossOff(begin, end) crosses off, for every prime p it owns, all
    multiples of p whose integer values lie in the segment." *)
Definition Tier_cross (t : Tier) (window : list Z) : Tier * list Z :=
  (advance (NUMBERS_PER_BYTE * Z.of_nat (length window)) <$> t,
   imap (λ i b, Z.land b
                  (byte_of_bits
                     ((λ v, negb (hit t (NUMBERS_PER_BYTE * Z.of_nat i + v)))
                        <$> bitValues_)))
        window).

(** The tier thresholds are "typically about 0.75 and about 9" times the
    sieve size; any pair of them gives an instance. *)
Definition collaborators (small medium : Z → Z) : Collaborators :=
  {| limitEratSmall_of := small;
     limitEratMedium_of := medium;
     PreSieve := Z;
     PreSieve_ctor := PreSieve_new;
     PreSieve_doIt := PreSieve_fill;
     EratSmall := Tier;
     EratSmall_ctor := Tier_new;
     EratSmall_addSievingPrime := Tier_add;
     EratSmall_crossOff := Tier_cross;
     EratMedium := Tier;
     EratMedium_ctor := Tier_new;
     EratMedium_addSievingPrime := Tier_add;
     EratMedium_crossOff := Tier_cross;
     EratBig := Tier;
     EratBig_ctor := EratBig_new;
     EratBig_addSievingPrime := Tier_add;
     EratBig_crossOff := Tier_cross |}.

Definition typical : Collaborators :=
  collaborators (λ sieveSize, 3 * sieveSize / 4) (λ sieveSize, 9 * sieveSize).

(** Modelled from the spec: the producer of sieving primes is outside the
    sources: "a lazy producer of primes <= sqrt(stop) feeding the engine",
    which calls [addSievingPrime] "for each prime 7 <= p <= sqrt(stop) in
    ascending order". *)
Definition is_prime (n : Z) : bool :=
  (1 <? n) && forallb (λ d, negb (divides d n)) (seqZ 2 (n - 2)).

Definition sieving_primes (sqrtStop : Z) : list Z :=
  filter (λ p, is_prime p = true) (seqZ 7 (sqrtStop - 6)).

(** *** Invariants of a run over these collaborators *)

(** A record [(p, next)] of a tier that is at the segment starting at
    [low]: the next composite [low + next] is a multiple of [p] from [p * p]
    on, and the first such with a distance from 2 on. *)
Definition resumes (low : Z) (r : Z * Z) : Prop :=
  1 < r.1 ∧ (r.1 | low + r.2) ∧ r.1 * r.1 ≤ low + r.2
  ∧ (low + r.2 - r.1 < r.1 * r.1 ∨ r.2 - r.1 < 2).

(** The tier behind a pointer after a cross-off over [width] integers. *)
Definition advanced (width : Z) (tier : ptr Tier) : ptr Tier :=
  match tier with
  | Some (a, t) => Some (a, advance width <$> t)
  | None => None
  end.

(** A delivered segment is right when its set bits are the primes of
    [start, stop] among its integers. *)
Definition segment_correct (start stop : Z) (seg : Segment) : Prop :=
  ∀ (i : nat) b (j : nat) v,
    Z.of_nat i < seg_size seg → seg_bytes seg !! i = Some b →
    bitValues_ !! j = Some v →
    Z.testbit b (Z.of_nat j) = true
    ↔ start ≤ seg_low seg + (30 * Z.of_nat i + v) ≤ stop
      ∧ Z.prime (seg_low seg + (30 * Z.of_nat i + v)).

Section Engine.
Variables small medium : Z → Z.

Implicit Types x : @SieveOfEratosthenes (collaborators small medium).

(** The records of the three tiers together. *)
Definition tiers_of x : Tier :=
  pointee [] (eratSmall_ x) ++ pointee [] (eratMedium_ x) ++ pointee [] (eratBig_ x).

(** What holds of the engine between segments, the sieving primes
    [primes] having been added. *)
Record spec_inv (primes : list Z) x : Prop := {
  si_limit : 13 ≤ limitPreSieve_ x ≤ 23;
  si_preSieve : ∃ ap, preSieve_ x = Some (ap, limitPreSieve_ x);
  si_resumes : Forall (resumes (segmentLow_ x)) (tiers_of x);
  si_owned : ∀ p, p ∈ (tiers_of x).*1 ↔ p ∈ primes ∧ limitPreSieve_ x < p;
  si_delivered : Forall (segment_correct (start_ x) (stop_ x)) (delivered x);
}.

End Engine.

Arguments tiers_of {small medium} x.
Arguments spec_inv {small medium} primes x.
Arguments si_limit {small medium primes x} _.
Arguments si_preSieve {small medium primes x} _.
Arguments si_resumes {small medium primes x} _.
Arguments si_owned {small medium primes x} _.
Arguments si_delivered {small medium primes x} _.

End Spec.

(** ** Small engines, for examples

    An empty free store where no request fails, and memory that reads as
    zero before it is written. *)

Definition no_failure : nat → bool := λ _, false.
Definition zeroes : nat → Z := λ _, 0.

(** [start = 7], [stop = 100], a sieve size of 1 KiB and a pre-sieve limit
    of 13. *)
Definition demo_construct
  : (exception + @SieveOfEratosthenes Spec.typical) * heap :=
  construct (C := Spec.typical) no_failure zeroes 7 100 1 13 (Heap [] 0).

Definition demo_engine : @SieveOfEratosthenes Spec.typical :=
  Eval vm_compute in
    match demo_construct with
    | (inr e, _) => e
    | (inl _, _) => initialised 7 100 13
    end.

Definition demo_heap : heap := Eval vm_compute in snd demo_construct.

(** The same with a sieve size of 3 KiB. *)
Definition coerced_construct
  : (exception + @SieveOfEratosthenes Spec.typical) * heap :=
  construct (C := Spec.typical) no_failure zeroes 7 100 3 13 (Heap [] 0).

Definition coerced_engine : @SieveOfEratosthenes Spec.typical :=
  Eval vm_compute in
    match coerced_construct with
    | (inr e, _) => e
    | (inl _, _) => initialised 7 100 13
    end.

Definition coerced_heap : heap := Eval vm_compute in snd coerced_construct.

(** [stop = 30721], the last integer of the first segment of 1 KiB, and a
    pre-sieve limit of 19. *)
Definition edge_construct
  : (exception + @SieveOfEratosthenes Spec.typical) * heap :=
  construct (C := Spec.typical) no_failure zeroes 7 30721 1 19 (Heap [] 0).

Definition edge_engine : @SieveOfEratosthenes Spec.typical :=
  Eval vm_compute in
    match edge_construct with
    | (inr e, _) => e
    | (inl _, _) => initialised 7 30721 19
    end.

Definition edge_heap : heap := Eval vm_compute in snd edge_construct.

(** The small engine again, on a free store whose second request (the
    [PreSieve] object) fails. *)
Definition oom_second : nat → bool := λ k, Nat.eqb k 1.

Definition failing_construct
  : (exception + @SieveOfEratosthenes Spec.typical) * heap :=
  construct (C := Spec.typical) oom_second zeroes 7 100 1 13 (Heap [] 0).

(** ** More of [SieveOfEratosthenes.cpp] *)

(** De Bruijn bitscan table *)
Definition bruijnBitValues_ : list Z :=
  [   7;  47;  11;  49;  67; 113;  13;  53;
     89;  71; 161; 101; 119; 187;  17; 233;
     59;  79;  91;  73; 133; 139; 163; 103;
    149; 121; 203; 169; 191; 217;  19; 239;
     43;  61; 109;  83; 157;  97; 181; 229;
     77; 131; 137; 143; 199; 167; 211;  41;
    107; 151; 179; 227; 127; 197; 209;  37;
    173; 223; 193;  31; 221;  29;  23; 241 ].

(** Modelled from the spec: what reads the table is not among the
    sources.  It is "a 64-entry De-Bruijn table keyed by (bit_isolated ·
    magic) shifted right by 58": the entry for a 64-bit word [mask] under
    the multiplier [magic] is the one at the top six bits of their 64-bit
    product. *)
Definition bruijn_entry (magic mask : Z) : option Z :=
  bruijnBitValues_ !! Z.to_nat (Z.shiftr (uint64_t (mask * magic)) 58).

(** [getSqrtStop] and [getPreSieve] *)
Definition getSqrtStop `{C : Collaborators} (e : SieveOfEratosthenes) : Z :=
  sqrtStop_ e.

Definition getPreSieve `{C : Collaborators} (e : SieveOfEratosthenes) : Z :=
  limitPreSieve_ e.

(** The address a pointer holds, if it is not [NULL]. *)
Definition address {T : Type} (p : ptr T) : list nat :=
  match p with Some (a, _) => [a] | None => [] end.

(** The addresses behind the five owning pointers of an engine, in the
    order of their allocation. *)
Definition owned `{C : Collaborators} (e : SieveOfEratosthenes) : list nat :=
  address (sieve_ e) ++ address (preSieve_ e) ++ address (eratSmall_ e)
  ++ address (eratMedium_ e) ++ address (eratBig_ e).

(** What no member function changes once the engine is constructed: the
    interval, the limits and the addresses it owns. *)
Definition kept `{C : Collaborators} (e : SieveOfEratosthenes)
  : Z * Z * Z * Z * Z * Z * list nat :=
  (start_ e, stop_ e, sqrtStop_ e, limitPreSieve_ e, limitEratSmall_ e,
   limitEratMedium_ e, owned e).

(** Bit [j] of byte [i] of the [k]-th call of the sink stands for the
    integer [n]. *)
Definition position (segments : list Segment) (k i j : nat) (n : Z) : Prop :=
  ∃ seg v,
    segments !! k = Some seg ∧ Z.of_nat i < seg_size seg
    ∧ bitValues_ !! j = Some v
    ∧ n = seg_low seg + NUMBERS_PER_BYTE * Z.of_nat i + v.

(** * [CpuInfo.cpp]: the sizes of the CPU caches

    The variant compiled on Linux and on unknown systems (neither [_WIN32]
    nor [APPLE_SYSCTL]), where [long] and [size_t] have 64 bits. *)

Module CpuInfo.

Definition size_t (x : Z) : Z := x mod 2 ^ 64.
Definition LONG_MIN : Z := - 2 ^ 63.
Definition LONG_MAX : Z := 2 ^ 63 - 1.

(** ** [std::stol]

    [std::stol(str, &idx)] is [strtol] in base 10: white space is skipped,
    a sign may follow, then come as many decimal digits as there are.
    Without a digit it throws [std::invalid_argument], with a value
    outside [long] it throws [std::out_of_range]; otherwise it returns the
    value and sets [idx] to the number of characters it has read. *)

Inductive stol_error : Type := invalid_argument | out_of_range.

(** [isspace] in the C locale: space, and [\t \n \v \f \r]. *)
Definition isspace (c : ascii) : bool :=
  let n := nat_of_ascii c in
  Nat.eqb n 32 || (Nat.leb 9 n && Nat.leb n 13).

Definition isdigit (c : ascii) : bool :=
  let n := nat_of_ascii c in Nat.leb 48 n && Nat.leb n 57.

Definition digit_value (c : ascii) : Z := Z.of_nat (nat_of_ascii c) - 48.

Fixpoint skip_space (s : string) : nat * string :=
  match s with
  | String c s' =>
      if isspace c then let '(n, r) := skip_space s' in (S n, r) else (O, s)
  | EmptyString => (O, s)
  end.

(** The digits that follow, their number, and the value they give after
    [acc]. *)
Fixpoint read_digits (acc : Z) (s : string) : Z * nat :=
  match s with
  | String c s' =>
      if isdigit c
      then let '(v, n) := read_digits (10 * acc + digit_value c) s' in (v, S n)
      else (acc, O)
  | EmptyString => (acc, O)
  end.

Definition stol (str : string) : stol_error + (Z * nat) :=
  let '(spaces, s) := skip_space str in
  let '(negative, sign, s) :=
    match s with
    | String "-" s' => (true, 1%nat, s')
    | String "+" s' => (false, 1%nat, s')
    | _ => (false, O, s)
    end in
  match read_digits 0 s with
  | (_, O) => inl invalid_argument
  | (v, S n) =>
      let v := if negative then - v else v in
      if (LONG_MIN <=? v) && (v <=? LONG_MAX)
      then inr (v, (spaces + sign + S n)%nat)
      else inl out_of_range
  end.

(** [std::to_string(int)] *)
Definition to_string (i : Z) : string := pretty i.

Section Files.
(** The files that can be opened for reading, with their contents. *)
Variable files : string → option string.

(** [getString]: the contents of the file, empty if it cannot be
    opened. *)
Definition getString (filename : string) : string :=
  match files filename with
  | Some contents => contents
  | None => EmptyString
  end.

(** [getValue]: every exception of [stol] is caught and gives 0. *)
Definition getValue (filename : string) : Z :=
  let str := getString filename in
  match stol str with
  | inl _ => 0
  | inr (v, idx) =>
      let val := size_t v in
      match String.get idx str with
      | Some c =>
          (* [idx < str.size()] *)
          let val := if Ascii.eqb c "K" then size_t (val * 1024) else val in
          let val := if Ascii.eqb c "M" then size_t (val * (1024 * 1024)) else val in
          let val := if Ascii.eqb c "G"
                     then size_t (val * (1024 * 1024 * 1024)) else val in
          val
      | None => val
      end
  end.

Record CpuInfo : Type := {
  l1CacheSize_ : Z;
  l2CacheSize_ : Z;
  l3CacheSize_ : Z;
}.

(** The body of the loop of [initCache] for one [i]. *)
Definition initCache_index (c : CpuInfo) (i : Z) : CpuInfo :=
  let filename := "/sys/devices/system/cpu/cpu0/cache/index" +:+ to_string i in
  let cacheLevel := filename +:+ "/level" in
  let cacheSize := filename +:+ "/size" in
  let level := getValue cacheLevel in
  if level =? 1 then
    {| l1CacheSize_ := getValue cacheSize;
       l2CacheSize_ := l2CacheSize_ c; l3CacheSize_ := l3CacheSize_ c |}
  else if level =? 2 then
    {| l1CacheSize_ := l1CacheSize_ c;
       l2CacheSize_ := getValue cacheSize; l3CacheSize_ := l3CacheSize_ c |}
  else if level =? 3 then
    {| l1CacheSize_ := l1CacheSize_ c;
       l2CacheSize_ := l2CacheSize_ c; l3CacheSize_ := getValue cacheSize |}
  else c.

(** [for (int i = 0; i <= 4; i++)] *)
Definition initCache (c : CpuInfo) : CpuInfo :=
  foldl initCache_index c (seqZ 0 5).

(** The constructor. *)
Definition new : CpuInfo :=
  initCache {| l1CacheSize_ := 0; l2CacheSize_ := 0; l3CacheSize_ := 0 |}.

(** The two files [initCache] reads for index [i]. *)
Definition level_file (i : Z) : string :=
  ("/sys/devices/system/cpu/cpu0/cache/index" +:+ to_string i) +:+ "/level".
Definition size_file (i : Z) : string :=
  ("/sys/devices/system/cpu/cpu0/cache/index" +:+ to_string i) +:+ "/size".

(** The last index of [indices] whose [level] file gives [level], and the
    size read for it; [old] if there is none. *)
Definition last_of_level (level : Z) (indices : list Z) : option Z :=
  last (filter (λ i, getValue (level_file i) = level) indices).

Definition size_at (old : Z) (i : option Z) : Z :=
  match i with
  | Some i => getValue (size_file i)
  | None => old
  end.

End Files.

Definition l1CacheSize (c : CpuInfo) : Z := l1CacheSize_ c.
Definition l2CacheSize (c : CpuInfo) : Z := l2CacheSize_ c.
Definition l3CacheSize (c : CpuInfo) : Z := l3CacheSize_ c.

Definition hasL1Cache (c : CpuInfo) : bool :=
  (Z.shiftl 1 12 <=? l1CacheSize_ c) && (l1CacheSize_ c <=? Z.shiftl 1 30).

Definition hasL2Cache (c : CpuInfo) : bool :=
  (Z.shiftl 1 12 <=? l2CacheSize_ c) && (l2CacheSize_ c <=? Z.shiftl 1 30).

Definition hasL3Cache (c : CpuInfo) : bool :=
  (Z.shiftl 1 16 <=? l3CacheSize_ c) && (l3CacheSize_ c <=? Z.shiftl 1 40).

Definition isPrivateL2Cache (c : CpuInfo) : bool :=
  hasL2Cache c && (negb (hasL1Cache c) || hasL3Cache c).

(** The number of decimal digits of [x]; none for 0. *)
Definition digits (x : N) : nat := String.length (pretty_N_go x "").

(** The first character of [s] is not a digit, if there is one. *)
Definition no_digit_first (s : string) : Prop :=
  match s with
  | String c _ => isdigit c = false
  | EmptyString => True
  end.

End CpuInfo.

(** * [store_primes_in_vector.cpp] *)

Module StorePrimes.

(** [unsigned int] to [int], as [push_back(prime)] converts its argument. *)
Definition int_of_unsigned (x : Z) : Z := if x <? 2 ^ 31 then x else x - 2 ^ 32.

(** [callback] on the global vector [primes]: [None] is the
    [stop_primesieve] it throws, the vector being left as it is. *)
Definition callback (prime : Z) (primes : list Z) : option (list Z) :=
  if Nat.eqb (length primes) 1000 then None
  else Some (primes ++ [int_of_unsigned prime]).

(** Modelled from the spec: [PrimeSieve::generatePrimes] ([PrimeSieve.h]) is
    not among the sources.  "Results are delivered incrementally to a
    consumer", and "early-termination via exceptions" is "used in the sample
    consumer to stop at N primes": [generated] are the arguments of the
    calls of the callback in the order they are made, and the calls end
    when the callback throws.  The result is the vector, and whether
    [stop_primesieve] was thrown. *)
Fixpoint generatePrimes (generated : list Z) (primes : list Z) : list Z * bool :=
  match generated with
  | [] => (primes, false)
  | prime :: generated' =>
      match callback prime primes with
      | Some primes' => generatePrimes generated' primes'
      | None => (primes, true)
      end
  end.

(** [main]: the vector at the end and what is written to [std::cout]. *)
Definition main (generated : list Z) : list Z * string :=
  let '(primes, _) := generatePrimes generated [] in
  (primes,
   pretty (Z.of_nat (length primes)) +:+ " primes stored!"
     +:+ String (ascii_of_nat 10) EmptyString).

End StorePrimes.


(** ** Files, for examples

    A file system where every file holds [32K], and one without files. *)
Definition demo_files : string → option string := λ _, Some "32K".
Definition no_files : string → option string := λ _, None.

(** * Facts about the driver *)

(** ** Arithmetic *)

Lemma uint_t_small x : 0 ≤ x < 2 ^ 32 → uint_t x = x.
Proof. apply Z.mod_small. Qed.

Lemma uint64_t_small x : 0 ≤ x < 2 ^ 64 → uint64_t x = x.
Proof. apply Z.mod_small. Qed.

Lemma getByteRemainder_range n : 2 ≤ getByteRemainder n ≤ 31.
Proof.
  unfold getByteRemainder, NUMBERS_PER_BYTE.
  pose proof (Z.mod_pos_bound n 30 ltac:(lia)).
  destruct (Z.leb_spec (n mod 30) 1); lia.
Qed.

Lemma getByteRemainder_mod n : (n - getByteRemainder n) mod 30 = 0.
Proof.
  unfold getByteRemainder, NUMBERS_PER_BYTE.
  destruct (Z.leb_spec (n mod 30) 1).
  - replace (n - (n mod 30 + 30)) with (n - n mod 30 + (-1) * 30) by lia.
    rewrite Z.mod_add by lia. by rewrite Zminus_mod_idemp_r, Z.sub_diag.
  - by rewrite Zminus_mod_idemp_r, Z.sub_diag.
Qed.

Lemma getByteRemainder_le n : 7 ≤ n → getByteRemainder n ≤ n.
Proof.
  intros Hn. unfold getByteRemainder, NUMBERS_PER_BYTE.
  pose proof (Z.mod_pos_bound n 30 ltac:(lia)).
  pose proof (Z.mod_le n 30 ltac:(lia) ltac:(lia)).
  destruct (Z.leb_spec (n mod 30) 1); [|lia].
  destruct (Z.lt_ge_cases n 30).
  - rewrite Z.mod_small in * by lia. lia.
  - assert (1 ≤ n / 30) by (apply Z.div_le_lower_bound; lia).
    pose proof (Z_div_mod_eq_full n 30). lia.
Qed.

Lemma floorPowerOf2_spec x :
  0 < x → ∃ k, 0 ≤ k ∧ floorPowerOf2 x = 2 ^ k ∧ 2 ^ k ≤ x < 2 ^ (k + 1).
Proof.
  intros Hx. unfold floorPowerOf2.
  destruct (Z.leb_spec x 0); [lia|].
  exists (Z.log2 x). pose proof (Z.log2_spec x Hx) as Hs.
  pose proof (Z.log2_nonneg x). replace (Z.succ (Z.log2 x)) with (Z.log2 x + 1) in Hs by lia.
  done.
Qed.

Lemma coerced_pow2 sieveSize :
  ∃ k, 0 ≤ k ≤ 12 ∧ coerced sieveSize = 2 ^ k.
Proof.
  unfold coerced, getInBetween.
  destruct (Z.ltb_spec (floorPowerOf2 sieveSize) 1) as [Hlo|Hlo].
  { exists 0. done. }
  destruct (Z.ltb_spec 4096 (floorPowerOf2 sieveSize)) as [Hhi|Hhi].
  { exists 12. done. }
  destruct (Z.le_gt_cases sieveSize 0) as [Hs|Hs].
  { unfold floorPowerOf2 in Hlo. destruct (Z.leb_spec sieveSize 0); lia. }
  destruct (floorPowerOf2_spec sieveSize Hs) as (k & Hk & Heq & _).
  exists k. split; [|done]. split; [done|].
  rewrite Heq in Hhi. change 4096 with (2 ^ 12) in Hhi.
  apply Z.pow_le_mono_r_iff in Hhi; lia.
Qed.

Lemma coerced_range sieveSize : 1 ≤ coerced sieveSize ≤ 4096.
Proof.
  unfold coerced, getInBetween. repeat case_match; lia.
Qed.

Lemma coerced_mod8 sieveSize : (coerced sieveSize * 1024) mod 8 = 0.
Proof.
  replace (coerced sieveSize * 1024) with (coerced sieveSize * 128 * 8) by lia.
  apply Z.mod_mul. lia.
Qed.

(** ** Bytes and bits *)

Lemma byte_t_range x : 0 ≤ byte_t x < 256.
Proof. unfold byte_t. apply Z.mod_pos_bound. lia. Qed.

Lemma testbit_byte_t x j : 0 ≤ j < 8 → Z.testbit (byte_t x) j = Z.testbit x j.
Proof. intros Hj. unfold byte_t. apply Z.mod_pow2_bits_low. lia. Qed.

Lemma testbit_255 j : 0 ≤ j → Z.testbit 255 j = (j <? 8).
Proof.
  intros Hj. change 255 with (Z.ones 8).
  destruct (Z.ltb_spec j 8).
  - apply Z.ones_spec_low. lia.
  - apply Z.ones_spec_high. lia.
Qed.

(** [b & (0xff << i)] keeps the bits from [i] on. *)
Lemma testbit_keep_from b i j :
  0 ≤ i → 0 ≤ j < 8 →
  Z.testbit (Z.land b (Z.shiftl 255 i)) j = Z.testbit b j && (i <=? j).
Proof.
  intros Hi Hj. rewrite Z.land_spec, Z.shiftl_spec by lia. f_equal.
  destruct (Z.leb_spec i j).
  - rewrite testbit_255 by lia. apply Z.ltb_lt. lia.
  - apply Z.testbit_neg_r. lia.
Qed.

(** [b & ~(0xff << i)] keeps the bits below [i]. *)
Lemma testbit_keep_below b i j :
  0 ≤ i → 0 ≤ j < 8 →
  Z.testbit (Z.land b (Z.lnot (Z.shiftl 255 i))) j = Z.testbit b j && (j <? i).
Proof.
  intros Hi Hj. rewrite Z.land_spec, Z.lnot_spec, Z.shiftl_spec by lia. f_equal.
  destruct (Z.ltb_spec j i).
  - rewrite Z.testbit_neg_r by lia. done.
  - rewrite testbit_255 by lia. destruct (Z.ltb_spec (j - i) 8); [done|lia].
Qed.

Lemma load_Ok (a : list Z) i b :
  a !! i = Some b → load a (Z.of_nat i) = Ok b.
Proof.
  intros Hb. unfold load. pose proof (lookup_lt_Some _ _ _ Hb).
  rewrite Nat2Z.id, Hb.
  destruct (Z.leb_spec 0 (Z.of_nat i)); [|lia].
  destruct (Z.ltb_spec (Z.of_nat i) (Z.of_nat (length a))); [done|lia].
Qed.

Lemma store_Ok (a : list Z) i v :
  (i < length a)%nat → store a (Z.of_nat i) v = Ok (<[i := byte_t v]> a).
Proof.
  intros Hi. unfold store. rewrite Nat2Z.id.
  destruct (Z.leb_spec 0 (Z.of_nat i)); [|lia].
  destruct (Z.ltb_spec (Z.of_nat i) (Z.of_nat (length a))); [done|lia].
Qed.

Lemma load_Ok_Z (a : list Z) i b :
  0 ≤ i → a !! Z.to_nat i = Some b → load a i = Ok b.
Proof.
  intros Hi Hb. rewrite <- (Z2Nat.id i) by done. by apply load_Ok.
Qed.

Lemma store_Ok_Z (a : list Z) i v :
  0 ≤ i < Z.of_nat (length a) → store a i v = Ok (<[Z.to_nat i := byte_t v]> a).
Proof.
  intros Hi. rewrite <- (Z2Nat.id i) at 1 by lia. apply store_Ok. lia.
Qed.

Lemma length_write_window n new old :
  length (write_window n new old) = length old.
Proof. apply length_imap. Qed.

Lemma lookup_write_window_outside n new old i :
  n ≤ Z.of_nat i → write_window n new old !! i = old !! i.
Proof.
  intros Hi. unfold write_window. rewrite list_lookup_imap.
  destruct (old !! i); [|done]. cbn.
  destruct (Z.ltb_spec (Z.of_nat i) n); [lia|done].
Qed.

Lemma lookup_write_window_inside n new old i v :
  Z.of_nat i < n → (i < length old)%nat → new !! i = Some v →
  write_window n new old !! i = Some (byte_t v).
Proof.
  intros Hi Hlen Hv. unfold write_window. rewrite list_lookup_imap.
  destruct (lookup_lt_is_Some_2 old i Hlen) as [b ->]. cbn.
  destruct (Z.ltb_spec (Z.of_nat i) n); [|lia]. by rewrite Hv.
Qed.

(** The two scans of [bitValues_]: in a strictly increasing table they
    count the entries below, respectively up to, the remainder. *)
Lemma skip_below_spec r vs i0 :
  StronglySorted Z.lt vs → (∃ v, v ∈ vs ∧ r ≤ v) →
  ∃ k : nat, skip_below r vs i0 = Ok (i0 + Z.of_nat k)
    ∧ ∀ (j : nat) v, vs !! j = Some v → (v < r ↔ (j < k)%nat).
Proof.
  intros Hs. revert i0. induction Hs as [|v vs Hs IH Hv]; intros i0 (w & Hw & Hr).
  { by apply elem_of_nil in Hw. }
  cbn. destruct (Z.ltb_spec v r) as [Hlt|Hge].
  - apply elem_of_cons in Hw as [->|Hw]; [lia|].
    destruct (IH (i0 + 1) (ex_intro _ w (conj Hw Hr))) as (k & Hk & Hbits).
    exists (S k). split; [rewrite Hk; f_equal; lia|].
    intros [|j] u Hu; cbn in Hu; simplify_eq.
    + split; [lia|done].
    + rewrite (Hbits j u Hu). lia.
  - exists 0%nat. split; [f_equal; lia|].
    intros [|j] u Hu; cbn in Hu; simplify_eq; [lia|].
    rewrite Forall_forall in Hv. apply list_elem_of_lookup_2 in Hu.
    specialize (Hv u Hu). lia.
Qed.

Lemma upto_above_spec r vs i0 :
  StronglySorted Z.lt vs →
  ∃ k : nat, upto_above r vs i0 = i0 + Z.of_nat k ∧ (k ≤ length vs)%nat
    ∧ ∀ (j : nat) v, vs !! j = Some v → (v ≤ r ↔ (j < k)%nat).
Proof.
  intros Hs. revert i0. induction Hs as [|v vs Hs IH Hv]; intros i0.
  { exists 0%nat. split_and!; [cbn; lia|done|]. intros j v Hj. done. }
  cbn. destruct (Z.ltb_spec r v) as [Hlt|Hge].
  - exists 0%nat. split_and!; [lia|lia|].
    intros [|j] u Hu; cbn in Hu; simplify_eq; [lia|].
    rewrite Forall_forall in Hv. apply list_elem_of_lookup_2 in Hu.
    specialize (Hv u Hu). lia.
  - destruct (IH (i0 + 1)) as (k & Hk & Hlen & Hbits).
    exists (S k). split_and!; [rewrite Hk; lia|cbn; lia|].
    intros [|j] u Hu; cbn in Hu; simplify_eq.
    + split; [lia|done].
    + rewrite (Hbits j u Hu). lia.
Qed.

#[global] Arguments skip_below : simpl never.
#[global] Arguments upto_above : simpl never.

Lemma bitValues_sorted : StronglySorted Z.lt bitValues_.
Proof.
  unfold bitValues_. repeat (constructor; [|repeat constructor; lia]). constructor.
Qed.

Lemma bitValues_range (j : nat) v : bitValues_ !! j = Some v → 7 ≤ v ≤ 31 ∧ (j < 8)%nat.
Proof.
  intros Hv. pose proof (lookup_lt_Some _ _ _ Hv) as Hj. cbn in Hj. split; [|done].
  do 8 (destruct j as [|j]; [cbn in Hv; simplify_eq; lia|]). cbn in Hj. lia.
Qed.

(** Running the constructor's monad on a state. *)
Ltac run_ctor :=
  unfold construct, SieveOfEratosthenes_body, init, try_catch, new, cleanUp,
    assign, this, throw, mbind, ctorM_bind, mret, ctorM_ret; cbn.

(** ** The member functions, one by one *)

Section DriverFacts.
Context `{C : Collaborators}.

Implicit Types e : SieveOfEratosthenes.

Lemma bind_Ok {A B : Type} (a : A) (k : A → result B) : Ok a ≫= k = k a.
Proof. reflexivity. Qed.

#[local] Arguments preSieve : simpl never.
#[local] Arguments crossOffMultiples : simpl never.
#[local] Arguments sieveSegment : simpl never.
#[local] Arguments finish_loop : simpl never.

Lemma preSieve_later e a bytes ap pre :
  sieve_ e = Some (a, bytes) → preSieve_ e = Some (ap, pre) →
  start_ e < segmentLow_ e →
  preSieve e = Ok (set_sieve (Some (a, filled e pre bytes)) e).
Proof.
  intros Hs Hp Hlow. unfold preSieve. rewrite Hs, Hp. cbn.
  destruct (Z.leb_spec (segmentLow_ e) (start_ e)); [lia|done].
Qed.

Lemma preSieve_first e a bytes ap pre :
  sieve_ e = Some (a, bytes) → preSieve_ e = Some (ap, pre) →
  segmentLow_ e ≤ start_ e → (0 < length bytes)%nat →
  ∃ bytes' b0 f0,
    preSieve e = Ok (set_sieve (Some (a, bytes')) e)
    ∧ length bytes' = length bytes
    ∧ (∀ i, (0 < i)%nat → bytes' !! i = filled e pre bytes !! i)
    ∧ bytes' !! 0%nat = Some b0
    ∧ filled e pre bytes !! 0%nat = Some f0
    ∧ ∀ (j : nat) v, bitValues_ !! j = Some v →
        Z.testbit b0 (Z.of_nat j)
        = (getByteRemainder (start_ e) <=? v)
          && ((start_ e <=? limitPreSieve_ e) || Z.testbit f0 (Z.of_nat j)).
Proof.
  intros Hs Hp Hlow Hlen. unfold preSieve. rewrite Hs, Hp. cbn.
  fold (filled e pre bytes).
  assert (length (filled e pre bytes) = length bytes) as Hfl
    by apply length_write_window.
  destruct (lookup_lt_is_Some_2 (filled e pre bytes) 0%nat ltac:(lia)) as [f0 Hf0].
  destruct (Z.leb_spec (segmentLow_ e) (start_ e)); [|lia].
  destruct (skip_below_spec (getByteRemainder (start_ e)) bitValues_ 0
              bitValues_sorted) as (k & Hk & Hbits).
  { exists 31. split; [unfold bitValues_; repeat (apply elem_of_cons; first [by left|right]); fail|].
    apply getByteRemainder_range. }
  set (first := if start_ e <=? limitPreSieve_ e then 255 else f0).
  exists (<[0%nat := byte_t (Z.land first (Z.shiftl 255 (Z.of_nat k)))]>
            (filled e pre bytes)), (byte_t (Z.land first (Z.shiftl 255 (Z.of_nat k)))), f0.
  split_and!.
  - destruct (start_ e <=? limitPreSieve_ e) eqn:Hsmall; cbn.
    + rewrite (store_Ok _ 0) by lia. cbn. rewrite Hk. cbn.
      rewrite (load_Ok _ 0 (byte_t 255)) by (apply list_lookup_insert_eq; lia).
      cbn. rewrite (store_Ok _ 0) by (rewrite length_insert; lia). cbn.
      by rewrite list_insert_insert_eq.
    + rewrite Hk. cbn. rewrite (load_Ok _ 0 f0) by done. cbn.
      by rewrite (store_Ok _ 0) by lia.
  - by rewrite length_insert.
  - intros i Hi. apply list_lookup_insert_ne. lia.
  - apply list_lookup_insert_eq. lia.
  - done.
  - intros j v Hv. destruct (bitValues_range j v Hv) as [Hvr Hj].
    rewrite testbit_byte_t, testbit_keep_from by lia.
    rewrite andb_comm. f_equal.
    + specialize (Hbits j v Hv).
      destruct (Z.leb_spec (Z.of_nat k) (Z.of_nat j)),
               (Z.leb_spec (getByteRemainder (start_ e)) v); lia.
    + unfold first. destruct (start_ e <=? limitPreSieve_ e); cbn; [|done].
      rewrite testbit_255 by lia. apply Z.ltb_lt. lia.
Qed.

Lemma crossOff_if_spec {T : Type} (f : T → list Z → T * list Z)
    (tier : ptr T) n bytes tier' bytes' :
  crossOff_if f tier n bytes = (tier', bytes') →
  length bytes' = length bytes
  ∧ (is_Some tier' ↔ is_Some tier)
  ∧ ∀ i, n ≤ Z.of_nat i → bytes' !! i = bytes !! i.
Proof.
  unfold crossOff_if. destruct tier as [[a t]|]; [|by intros [= <- <-]].
  destruct (f t _) as [t' new]. intros [= <- <-]. split_and!.
  - apply length_write_window.
  - by split; intros _.
  - intros i Hi. by apply lookup_write_window_outside.
Qed.

Lemma crossOffMultiples_spec e a bytes :
  sieve_ e = Some (a, bytes) →
  ∃ bytes' small medium big,
    crossOffMultiples e
    = Ok (set_eratBig big (set_eratMedium medium (set_eratSmall small
            (set_sieve (Some (a, bytes')) e))))
    ∧ length bytes' = length bytes
    ∧ (is_Some small ↔ is_Some (eratSmall_ e))
    ∧ (is_Some medium ↔ is_Some (eratMedium_ e))
    ∧ (is_Some big ↔ is_Some (eratBig_ e)).
Proof.
  intros Hs. unfold crossOffMultiples. rewrite Hs. cbn.
  destruct (crossOff_if EratSmall_crossOff _ _ _) as [small b1] eqn:H1.
  destruct (crossOff_if EratMedium_crossOff _ _ _) as [medium b2] eqn:H2.
  destruct (crossOff_if EratBig_crossOff _ _ _) as [big b3] eqn:H3.
  apply crossOff_if_spec in H1 as (L1 & S1 & _), H2 as (L2 & S2 & _),
    H3 as (L3 & S3 & _).
  exists b3, small, medium, big. split_and!; [done|congruence|done..].
Qed.


(** ** The invariant of the segment loop *)

Lemma scalars_eq e e' :
  scalars e' = scalars e →
  start_ e' = start_ e ∧ stop_ e' = stop_ e ∧ sieveSize_ e' = sieveSize_ e
  ∧ width e' = width e ∧ low0 e' = low0 e ∧ sqrtStop_ e' = sqrtStop_ e
  ∧ limitPreSieve_ e' = limitPreSieve_ e.
Proof. unfold width, low0. intros [= -> -> -> -> _ _ ->]. done. Qed.

Lemma finish_loop_unfold fuel e :
  finish_loop fuel e
  = if segmentHigh_ e <? stop_ e
    then match fuel with
         | O => OutOfFuel
         | S fuel' => e' ← sieveSegment e; finish_loop fuel' (advance_window e')
         end
    else Ok e.
Proof. by destruct fuel. Qed.

Lemma low0_mod e : low0 e mod 30 = 0.
Proof. apply getByteRemainder_mod. Qed.

Lemma low0_range e : 7 ≤ start_ e → 0 ≤ low0 e ∧ low0 e + 2 ≤ start_ e ≤ low0 e + 31.
Proof.
  intros Hs. unfold low0. pose proof (getByteRemainder_range (start_ e)).
  pose proof (getByteRemainder_le (start_ e) Hs). lia.
Qed.

Lemma ready_low_mod e : ready e → segmentLow_ e mod 30 = 0.
Proof.
  intros He. rewrite (r_low e He). unfold width, NUMBERS_PER_BYTE.
  replace (low0 e + Z.of_nat (length (delivered e)) * (sieveSize_ e * 30))
    with (low0 e + Z.of_nat (length (delivered e)) * sieveSize_ e * 30) by lia.
  rewrite Z.mod_add by lia. apply low0_mod.
Qed.

Lemma ready_low_ge e : ready e → low0 e ≤ segmentLow_ e.
Proof.
  intros He. rewrite (r_low e He). pose proof (r_size e He).
  unfold width, NUMBERS_PER_BYTE. nia.
Qed.

Lemma getMaxStop_eq : getMaxStop = 18446744030759878656.
Proof. reflexivity. Qed.

Lemma length_fresh_array garbage n : length (fresh_array garbage n) = Z.to_nat n.
Proof. unfold fresh_array. by rewrite length_fmap, length_seq. Qed.

Lemma construct_constructed oom garbage start stop sieveSize preSieve h e h' :
  construct oom garbage start stop sieveSize preSieve h = (inr e, h') →
  constructed start stop sieveSize preSieve e.
Proof.
  run_ctor. intros H.
  repeat (case_match; simplify_eq/=).
  all: split; cbn; unfold exists_iff; try done; eauto using length_fresh_array.
  all: repeat match goal with H : (_ <? _) = _ |- _ => rewrite H; clear H end.
  all: done.
Qed.

Lemma constructed_sieveSize start stop sieveSize preSieve e :
  constructed start stop sieveSize preSieve e →
  sieveSize_ e = coerced sieveSize * 1024.
Proof.
  intros He. rewrite (c_sieveSize _ _ _ _ _ He).
  pose proof (coerced_range sieveSize). apply uint_t_small. lia.
Qed.

Lemma constructed_ready start stop sieveSize preSieve e :
  7 ≤ start ≤ stop → stop ≤ getMaxStop →
  constructed start stop sieveSize preSieve e → ready e.
Proof.
  intros Hstart Hstop He.
  pose proof (constructed_sieveSize _ _ _ _ _ He) as Hsize.
  pose proof (coerced_range sieveSize) as Hc.
  pose proof (c_start _ _ _ _ _ He) as Hs. pose proof (c_stop _ _ _ _ _ He) as Ht.
  pose proof (low0_range e ltac:(lia)) as Hl0.
  rewrite getMaxStop_eq in Hstop.
  assert (segmentLow_ e = low0 e) as Hlow.
  { rewrite (c_segmentLow _ _ _ _ _ He). unfold low0. rewrite Hs.
    apply uint64_t_small. unfold low0 in Hl0. rewrite Hs in Hl0. lia. }
  destruct (c_sieve _ _ _ _ _ He) as (a & bytes & Hsv & Hlen).
  split.
  - lia.
  - rewrite getMaxStop_eq. lia.
  - lia.
  - rewrite Hsize. apply coerced_mod8.
  - rewrite (c_delivered _ _ _ _ _ He). cbn. lia.
  - rewrite (c_segmentHigh _ _ _ _ _ He), Hlow. unfold width, NUMBERS_PER_BYTE.
    rewrite uint_t_small by lia. apply uint64_t_small. lia.
  - lia.
  - exists a, bytes. split; [done|]. lia.
  - apply (c_preSieve _ _ _ _ _ He).
  - intros Hlt. pose proof (c_eratSmall _ _ _ _ _ He) as Hx.
    unfold exists_iff in Hx. destruct (Z.ltb_spec (limitPreSieve_ e) (sqrtStop_ e)); [done|lia].
  - intros Hlt. pose proof (c_eratMedium _ _ _ _ _ He) as Hx.
    unfold exists_iff in Hx. destruct (Z.ltb_spec (limitEratSmall_ e) (sqrtStop_ e)); [done|lia].
  - intros Hlt. pose proof (c_eratBig _ _ _ _ _ He) as Hx.
    unfold exists_iff in Hx. destruct (Z.ltb_spec (limitEratMedium_ e) (sqrtStop_ e)); [done|lia].
  - intros k seg. rewrite (c_delivered _ _ _ _ _ He). done.
Qed.


Lemma addSievingPrime_spec prime e :
  ready e → prime ≤ sqrtStop_ e →
  ∃ e', addSievingPrime prime e = Ok e'
    ∧ ready e'
    ∧ scalars e' = scalars e
    ∧ segmentLow_ e' = segmentLow_ e ∧ segmentHigh_ e' = segmentHigh_ e
    ∧ sieve_ e' = sieve_ e ∧ preSieve_ e' = preSieve_ e
    ∧ delivered e' = delivered e.
Proof.
  intros He Hp. unfold addSievingPrime.
  destruct (Z.leb_spec prime (limitPreSieve_ e)); [by exists e|].
  destruct (Z.leb_spec prime (limitEratSmall_ e)).
  { destruct (r_eratSmall e He ltac:(lia)) as [[a t] Ht]. rewrite Ht. cbn.
    eexists. split; [done|]. split; [|done].
    destruct He. by split. }
  destruct (Z.leb_spec prime (limitEratMedium_ e)).
  { destruct (r_eratMedium e He ltac:(lia)) as [[a t] Ht]. rewrite Ht. cbn.
    eexists. split; [done|]. split; [|done].
    destruct He. by split. }
  destruct (r_eratBig e He ltac:(lia)) as [[a t] Ht]. rewrite Ht. cbn.
  eexists. split; [done|]. split; [|done].
  destruct He. by split.
Qed.

Lemma addSievingPrimes_spec primes e :
  ready e → Forall (λ p, p ≤ sqrtStop_ e) primes →
  ∃ e', addSievingPrimes primes e = Ok e'
    ∧ ready e'
    ∧ scalars e' = scalars e
    ∧ segmentLow_ e' = segmentLow_ e ∧ segmentHigh_ e' = segmentHigh_ e
    ∧ sieve_ e' = sieve_ e ∧ preSieve_ e' = preSieve_ e
    ∧ delivered e' = delivered e.
Proof.
  intros He Hps. revert e He Hps.
  induction primes as [|p primes IH]; intros e He Hps; [by exists e|].
  apply Forall_cons in Hps as [Hp Hps]. cbn.
  destruct (addSievingPrime_spec p e He Hp) as (e1 & -> & He1 & Hsc & ? & ? & ? & ? & ?).
  cbn. destruct (IH e1 He1) as (e2 & -> & He2 & Hsc2 & ? & ? & ? & ? & ?).
  { assert (sqrtStop_ e1 = sqrtStop_ e) as -> by (by injection Hsc). done. }
  exists e2. split_and!; congruence.
Qed.

(** One segment: the array is filled, sieved and handed to the sink. *)
Lemma sieveSegment_spec e :
  ready e →
  ∃ e' a bytes,
    sieveSegment e = Ok e'
    ∧ scalars e' = scalars e
    ∧ segmentLow_ e' = segmentLow_ e ∧ segmentHigh_ e' = segmentHigh_ e
    ∧ sieve_ e' = Some (a, bytes) ∧ Z.of_nat (length bytes) = sieveSize_ e
    ∧ preSieve_ e' = preSieve_ e
    ∧ (is_Some (eratSmall_ e') ↔ is_Some (eratSmall_ e))
    ∧ (is_Some (eratMedium_ e') ↔ is_Some (eratMedium_ e))
    ∧ (is_Some (eratBig_ e') ↔ is_Some (eratBig_ e))
    ∧ delivered e'
      = delivered e ++ [ {| seg_low := segmentLow_ e; seg_size := sieveSize_ e;
                            seg_bytes := bytes |} ].
Proof.
  intros He. destruct (r_sieve e He) as (a & bytes & Hs & Hlen).
  destruct (r_preSieve e He) as [[ap pre] Hp]. pose proof (r_size e He).
  unfold sieveSegment.
  assert (∃ bytes1, preSieve e = Ok (set_sieve (Some (a, bytes1)) e)
                    ∧ length bytes1 = length bytes) as (bytes1 & -> & Hlen1).
  { destruct (Z.le_gt_cases (segmentLow_ e) (start_ e)).
    - destruct (preSieve_first e a bytes ap pre Hs Hp) as (b1 & ? & ? & ? & ? & _);
        [done|lia|]. by exists b1.
    - eexists. split; [by eapply preSieve_later|]. apply length_write_window. }
  rewrite bind_Ok.
  destruct (crossOffMultiples_spec (set_sieve (Some (a, bytes1)) e) a bytes1 eq_refl)
    as (bytes2 & small & medium & big & -> & Hlen2 & ? & ? & ?).
  rewrite bind_Ok. eexists _, a, bytes2. split; [done|]. cbn.
  split_and!; try done. lia.
Qed.

Lemma ready_advance e e' a bytes :
  ready e → segmentHigh_ e < stop_ e →
  scalars e' = scalars e →
  segmentLow_ e' = segmentLow_ e → segmentHigh_ e' = segmentHigh_ e →
  sieve_ e' = Some (a, bytes) → Z.of_nat (length bytes) = sieveSize_ e →
  preSieve_ e' = preSieve_ e →
  (is_Some (eratSmall_ e') ↔ is_Some (eratSmall_ e)) →
  (is_Some (eratMedium_ e') ↔ is_Some (eratMedium_ e)) →
  (is_Some (eratBig_ e') ↔ is_Some (eratBig_ e)) →
  delivered e'
  = delivered e ++ [ {| seg_low := segmentLow_ e; seg_size := sieveSize_ e;
                        seg_bytes := bytes |} ] →
  ready (advance_window e')
  ∧ segmentLow_ (advance_window e') = segmentLow_ e + width e
  ∧ segmentHigh_ (advance_window e') = segmentHigh_ e + width e.
Proof.
  intros He Hlt Hsc Hlow Hhigh Hs Hlen Hp Hsm Hme Hbi Hd.
  injection Hsc as Hstart Hstop Hsqrt Hlp Hls Hlm Hsize.
  pose proof (r_size e He) as Hsz. pose proof (r_stop e He) as Hmax.
  pose proof (r_high e He) as Hh. pose proof (ready_low_ge e He) as Hge.
  pose proof (r_start e He) as Hst. pose proof (low0_range e ltac:(lia)) as Hl0.
  rewrite getMaxStop_eq in Hmax.
  assert (width e' = width e) as Hw by (unfold width; congruence).
  assert (low0 e' = low0 e) as Hl by (unfold low0; congruence).
  assert (0 < width e < 2 ^ 32) as Hwr by (unfold width, NUMBERS_PER_BYTE; lia).
  assert (segmentLow_ (advance_window e') = segmentLow_ e + width e) as Hlow'.
  { cbn. rewrite Hlow, Hsize. fold (width e). rewrite uint_t_small by lia.
    apply uint64_t_small. lia. }
  assert (segmentHigh_ (advance_window e') = segmentHigh_ e + width e) as Hhigh'.
  { cbn. rewrite Hhigh, Hsize. fold (width e). rewrite uint_t_small by lia.
    apply uint64_t_small. lia. }
  split; [|done]. split.
  - cbn. lia.
  - cbn. rewrite getMaxStop_eq. lia.
  - cbn. lia.
  - cbn. rewrite Hsize. apply (r_size8 e He).
  - rewrite Hlow'. change (delivered (advance_window e')) with (delivered e').
    change (low0 (advance_window e')) with (low0 e').
    change (width (advance_window e')) with (width e').
    rewrite Hd, length_app, Hl, Hw, (r_low e He). cbn. lia.
  - rewrite Hhigh', Hlow'. change (width (advance_window e')) with (width e'). lia.
  - rewrite Hlow'. cbn. lia.
  - exists a, bytes. cbn. split; [done|]. lia.
  - cbn. rewrite Hp. apply (r_preSieve e He).
  - cbn. rewrite Hlp, Hsqrt, Hsm. apply (r_eratSmall e He).
  - cbn. rewrite Hls, Hsqrt, Hme. apply (r_eratMedium e He).
  - cbn. rewrite Hlm, Hsqrt, Hbi. apply (r_eratBig e He).
  - intros k seg. change (delivered (advance_window e')) with (delivered e').
    change (low0 (advance_window e')) with (low0 e').
    change (width (advance_window e')) with (width e').
    change (sieveSize_ (advance_window e')) with (sieveSize_ e').
    rewrite Hd, Hl, Hw, Hsize. intros Hk.
    apply lookup_app_Some in Hk as [Hk|[Hk1 Hk2]].
    + by apply (r_delivered e He).
    + apply list_lookup_singleton_Some in Hk2 as [Hk2 <-]. cbn.
      split_and!; [|done|done].
      assert (k = length (delivered e)) as -> by lia. apply (r_low e He).
Qed.


(** ** The points of a run *)

Lemma looping_trans e0 e1 e2 : looping e0 e1 → looping e1 e2 → looping e0 e2.
Proof.
  intros H1 H2. induction H2; [done|]. by eapply looping_iterate.
Qed.

Lemma looping_sieving e0 e : looping e0 e → sieving e0 e.
Proof.
  induction 1; [constructor|]. by eapply sieving_segment.
Qed.

Lemma sieving_trans e0 e1 e2 : sieving e0 e1 → sieving e1 e2 → sieving e0 e2.
Proof.
  intros H1 H2. induction H2; [done|..].
  - by eapply sieving_addSievingPrime.
  - by eapply sieving_segment.
Qed.

Lemma sieving_ready e0 e :
  ready e0 → sieving e0 e → ready e ∧ scalars e = scalars e0.
Proof.
  intros H0 Hs. induction Hs as [|p e e' _ [He Hsc] Hp Hadd|e e' _ [He Hsc] Hlt Hseg].
  - done.
  - destruct (addSievingPrime_spec p e He Hp) as (e1 & He1 & Hr & Hsc1 & _).
    rewrite He1 in Hadd. injection Hadd as <-. split; [done|congruence].
  - destruct (sieveSegment_spec e He)
      as (e1 & a & bytes & He1 & Hsc1 & ? & ? & ? & ? & ? & ? & ? & ? & ?).
    rewrite He1 in Hseg. injection Hseg as <-.
    split; [by eapply ready_advance|].
    change (scalars (advance_window e1)) with (scalars e1). congruence.
Qed.

Lemma addSievingPrimes_sieving primes e e' :
  Forall (λ p, p ≤ sqrtStop_ e) primes → ready e →
  addSievingPrimes primes e = Ok e' → sieving e e'.
Proof.
  revert e. induction primes as [|p primes IH]; intros e Hps He; cbn.
  - intros [= <-]. constructor.
  - apply Forall_cons in Hps as [Hp Hps].
    destruct (addSievingPrime_spec p e He Hp) as (e1 & He1 & Hr & Hsc1 & _).
    rewrite He1, bind_Ok. intros H1.
    eapply sieving_trans; [|apply IH; [|done..]].
    + eapply sieving_addSievingPrime; [constructor|done..].
    + assert (sqrtStop_ e1 = sqrtStop_ e) as -> by (by injection Hsc1). done.
Qed.

Lemma width_range e : ready e → 30 ≤ width e < 2 ^ 32.
Proof. intros He. pose proof (r_size e He). unfold width, NUMBERS_PER_BYTE. lia. Qed.

Lemma segments_left_done e :
  ready e → stop_ e ≤ segmentHigh_ e → segments_left e = 0%nat.
Proof.
  intros He Hge. pose proof (width_range e He). unfold segments_left.
  assert ((stop_ e - segmentHigh_ e + width e - 1) / width e ≤ 0); [|lia].
  apply Z.lt_succ_r. apply Z.div_lt_upper_bound; lia.
Qed.

Lemma segments_left_more e w :
  ready e → segmentHigh_ e < stop_ e → w = width e →
  Z.to_nat ((stop_ e - (segmentHigh_ e + w) + w - 1) / w) = pred (segments_left e)
  ∧ (0 < segments_left e)%nat.
Proof.
  intros He Hlt ->. pose proof (width_range e He). unfold segments_left.
  replace (stop_ e - segmentHigh_ e + width e - 1)
    with (stop_ e - (segmentHigh_ e + width e) + width e - 1 + 1 * width e) by lia.
  rewrite Z.div_add by lia.
  assert (0 ≤ (stop_ e - (segmentHigh_ e + width e) + width e - 1) / width e)
    by (apply Z.div_pos; lia).
  lia.
Qed.

Lemma finish_loop_spec n e :
  ready e → segments_left e = n →
  ∃ e', (∀ fuel, (n ≤ fuel)%nat → finish_loop fuel e = Ok e')
    ∧ looping e e'
    ∧ stop_ e' ≤ segmentHigh_ e'
    ∧ length (delivered e') = (length (delivered e) + n)%nat
    ∧ delivered e `prefix_of` delivered e'.
Proof.
  revert e. induction n as [|n IH]; intros e He Hn.
  - destruct (Z.lt_ge_cases (segmentHigh_ e) (stop_ e)) as [Hlt|Hge].
    { destruct (segments_left_more e (width e) He Hlt eq_refl). lia. }
    exists e. split_and!; [|constructor|done|lia|done].
    intros fuel _. rewrite finish_loop_unfold.
    destruct (Z.ltb_spec (segmentHigh_ e) (stop_ e)); [lia|done].
  - destruct (Z.lt_ge_cases (segmentHigh_ e) (stop_ e)) as [Hlt|Hge].
    2: { rewrite segments_left_done in Hn by done. lia. }
    destruct (sieveSegment_spec e He)
      as (e1 & a & bytes & He1 & Hsc1 & Hl1 & Hh1 & Hs1 & Hlen1 & Hp1 & Ht1 & Ht2 & Ht3 & Hd1).
    destruct (ready_advance e e1 a bytes He Hlt Hsc1 Hl1 Hh1 Hs1 Hlen1 Hp1 Ht1 Ht2 Ht3 Hd1)
      as (Hr & Hlow & Hhigh).
    destruct (IH (advance_window e1) Hr) as (e' & Hrun & Hsv & Hstop & Hlen & Hpre).
    { unfold segments_left. rewrite Hhigh.
      change (stop_ (advance_window e1)) with (stop_ e1).
      change (width (advance_window e1)) with (width e1).
      destruct (scalars_eq _ _ Hsc1) as (_ & -> & _ & -> & _).
      destruct (segments_left_more e (width e) He Hlt eq_refl) as [-> _]. lia. }
    exists e'. split_and!; [| |done| |].
    + intros [|fuel] Hfuel; [lia|]. rewrite finish_loop_unfold.
      destruct (Z.ltb_spec (segmentHigh_ e) (stop_ e)); [|lia].
      rewrite He1, bind_Ok. apply Hrun. lia.
    + eapply looping_trans; [|done]. eapply looping_iterate; [constructor|done..].
    + rewrite Hlen. change (delivered (advance_window e1)) with (delivered e1).
      rewrite Hd1, length_app. cbn. lia.
    + etrans; [|done]. change (delivered (advance_window e1)) with (delivered e1).
      rewrite Hd1. by apply prefix_app_r.
Qed.


(** ** The last segment *)

#[local] Arguments zero_tail : simpl never.

Lemma zero_tail_unfold fuel j bytes :
  zero_tail fuel j bytes
  = if j mod 8 =? 0 then Ok bytes
    else match fuel with
         | O => OutOfFuel
         | S fuel' => bytes ← store bytes j 0; zero_tail fuel' (uint_t (j + 1)) bytes
         end.
Proof. by destruct fuel. Qed.

(** The loop zeroes the bytes from [j] up to the next multiple of 8 and
    nothing else. *)
Lemma zero_tail_spec fuel j bytes :
  0 ≤ j → (Z.to_nat ((- j) mod 8) ≤ fuel)%nat →
  j + (- j) mod 8 ≤ Z.of_nat (length bytes) → j + (- j) mod 8 < 2 ^ 32 →
  ∃ bytes', zero_tail fuel j bytes = Ok bytes'
    ∧ length bytes' = length bytes
    ∧ (∀ i : nat, Z.of_nat i < j ∨ j + (- j) mod 8 ≤ Z.of_nat i →
         bytes' !! i = bytes !! i)
    ∧ (∀ i : nat, j ≤ Z.of_nat i < j + (- j) mod 8 → bytes' !! i = Some 0).
Proof.
  revert j bytes. induction fuel as [|fuel IH]; intros j bytes Hj Hfuel Hlen Hmax;
    rewrite zero_tail_unfold.
  - destruct (Z.eqb_spec (j mod 8) 0) as [Hz|Hnz].
    + exists bytes. split_and!; [done..|]. intros i Hi. Z.div_mod_to_equations. lia.
    + Z.div_mod_to_equations. lia.
  - destruct (Z.eqb_spec (j mod 8) 0) as [Hz|Hnz].
    { exists bytes. split_and!; [done..|]. intros i Hi. Z.div_mod_to_equations. lia. }
    assert ((- (j + 1)) mod 8 = (- j) mod 8 - 1) as Hd
      by (Z.div_mod_to_equations; lia).
    assert (1 ≤ (- j) mod 8) as Hd1 by (Z.div_mod_to_equations; lia).
    rewrite store_Ok_Z by lia. rewrite bind_Ok, uint_t_small by lia.
    destruct (IH (j + 1) (<[Z.to_nat j := byte_t 0]> bytes))
      as (bytes' & -> & Hlen' & Hout & Hin); [lia|lia|rewrite length_insert; lia|lia|].
    exists bytes'. rewrite length_insert in Hlen'. split_and!; [done|done|..].
    + intros i Hi. rewrite Hout by lia. apply list_lookup_insert_ne. lia.
    + intros i Hi. destruct (decide (Z.of_nat i = j)) as [Heq|Hne].
      * rewrite Hout by lia. replace (Z.to_nat j) with i by lia.
        apply list_lookup_insert_eq. lia.
      * apply Hin. lia.
Qed.

Lemma finish_unfold fuel e :
  finish fuel e
  = e ← finish_loop fuel e;
    e' ← preSieve (last_segment e);
    e' ← crossOffMultiples e';
    deliver_last (getByteRemainder (stop_ e)) e'.
Proof. reflexivity. Qed.


Lemma last_segment_spec e :
  ready e → stop_ e ≤ segmentHigh_ e →
  1 ≤ sieveSize_ (last_segment e) ≤ sieveSize_ e
  ∧ segmentLow_ e + 30 * (sieveSize_ (last_segment e) - 1)
    = stop_ e - getByteRemainder (stop_ e)
  ∧ segmentHigh_ (last_segment e)
    = segmentLow_ e + sieveSize_ (last_segment e) * 30 + 1.
Proof.
  intros He Hge.
  pose proof (r_size e He) as Hsz. pose proof (r_stop e He) as Hmax.
  pose proof (r_high e He) as Hh. pose proof (ready_low_ge e He) as Hlo.
  pose proof (r_start e He) as Hst. pose proof (low0_range e ltac:(lia)) as Hl0.
  pose proof (r_next e He) as Hnext. pose proof (ready_low_mod e He) as Hmod.
  pose proof (getByteRemainder_range (stop_ e)) as Hr.
  pose proof (getByteRemainder_mod (stop_ e)) as Hrm.
  rewrite getMaxStop_eq in Hmax. unfold width, NUMBERS_PER_BYTE in Hh.
  set (d := stop_ e - getByteRemainder (stop_ e) - segmentLow_ e).
  assert (d mod 30 = 0) as Hd30.
  { unfold d. rewrite Zminus_mod, Hrm, Hmod. done. }
  assert (0 ≤ d ≤ sieveSize_ e * 30 - 1) as Hd.
  { split; [|unfold d; lia].
    assert (-30 < d) by (unfold d; lia). Z.div_mod_to_equations. lia. }
  assert (sieveSize_ (last_segment e) = d / 30 + 1) as Hsize.
  { cbn. unfold NUMBERS_PER_BYTE.
    rewrite (uint64_t_small (stop_ e - _)) by lia. fold d.
    rewrite uint64_t_small by lia. rewrite (uint_t_small d) by lia.
    apply uint_t_small. Z.div_mod_to_equations. lia. }
  assert (0 ≤ d / 30 ≤ sieveSize_ e - 1) by (Z.div_mod_to_equations; lia).
  rewrite Hsize. split_and!; [lia|lia| |].
  - unfold d in *. Z.div_mod_to_equations. lia.
  - cbn. unfold NUMBERS_PER_BYTE. fold d.
    rewrite (uint64_t_small (stop_ e - _)) by lia. fold d.
    rewrite (uint64_t_small d) by lia. rewrite (uint_t_small d) by lia.
    rewrite (uint_t_small (d / 30 + 1)) by lia.
    rewrite uint_t_small by lia. apply uint64_t_small. lia.
Qed.

Lemma preSieve_Ok e a bytes :
  sieve_ e = Some (a, bytes) → is_Some (preSieve_ e) → (0 < length bytes)%nat →
  ∃ bytes', preSieve e = Ok (set_sieve (Some (a, bytes')) e)
            ∧ length bytes' = length bytes.
Proof.
  intros Hs [[ap pre] Hp] Hlen.
  destruct (Z.le_gt_cases (segmentLow_ e) (start_ e)).
  - destruct (preSieve_first e a bytes ap pre Hs Hp) as (b1 & ? & ? & ? & ? & _);
      [done|lia|]. by exists b1.
  - eexists. split; [by eapply preSieve_later|]. apply length_write_window.
Qed.

(** What [finish] does to the array after the last cross-off: the last
    byte loses the bits above [remainder], the bytes up to the next multiple
    of 8 become zero, the rest stays. *)
Lemma deliver_last_spec remainder e a bytes :
  sieve_ e = Some (a, bytes) →
  1 ≤ sieveSize_ e ≤ Z.of_nat (length bytes) →
  Z.of_nat (length bytes) mod 8 = 0 → Z.of_nat (length bytes) < 2 ^ 32 →
  ∃ bytes' b b',
    deliver_last remainder e = Ok (segmentProcessed (set_sieve (Some (a, bytes')) e))
    ∧ length bytes' = length bytes
    ∧ (∀ i : nat, Z.of_nat i < sieveSize_ e - 1 → bytes' !! i = bytes !! i)
    ∧ bytes !! Z.to_nat (sieveSize_ e - 1) = Some b
    ∧ bytes' !! Z.to_nat (sieveSize_ e - 1) = Some b'
    ∧ (∀ (j : nat) v, bitValues_ !! j = Some v →
         Z.testbit b' (Z.of_nat j) = Z.testbit b (Z.of_nat j) && (v <=? remainder))
    ∧ (∀ i : nat, sieveSize_ e ≤ Z.of_nat i < sieveSize_ e + (- sieveSize_ e) mod 8 →
         bytes' !! i = Some 0).
Proof.
  intros Hs Hsize Hlen8 Hlen32. unfold deliver_last. rewrite Hs. cbn.
  rewrite uint_t_small by lia.
  destruct (lookup_lt_is_Some_2 bytes (Z.to_nat (sieveSize_ e - 1)) ltac:(lia)) as [b Hb].
  rewrite (load_Ok_Z _ _ b) by (done || lia). cbn.
  rewrite store_Ok_Z by lia. cbn.
  destruct (upto_above_spec remainder bitValues_ 0 bitValues_sorted) as (k & -> & Hk & Hbits).
  cbn in Hk. rewrite Z.add_0_l.
  set (b' := byte_t (Z.land b (Z.lnot (Z.shiftl 255 (Z.of_nat k))))).
  destruct (zero_tail_spec 8 (sieveSize_ e) (<[Z.to_nat (sieveSize_ e - 1) := b']> bytes))
    as (bytes' & -> & Hlen' & Hout & Hin).
  { lia. } { Z.div_mod_to_equations. lia. }
  { rewrite length_insert. Z.div_mod_to_equations. lia. }
  { Z.div_mod_to_equations. lia. }
  rewrite length_insert in Hlen'.
  exists bytes', b, b'. split_and!; [done|done| |done| | |done].
  - intros i Hi. rewrite Hout by lia. apply list_lookup_insert_ne. lia.
  - rewrite Hout by lia. apply list_lookup_insert_eq. lia.
  - intros j v Hv. destruct (bitValues_range j v Hv) as [Hvr Hj].
    unfold b'. rewrite testbit_byte_t, testbit_keep_below by lia. f_equal.
    specialize (Hbits j v Hv).
    destruct (Z.ltb_spec (Z.of_nat j) (Z.of_nat k)), (Z.leb_spec v remainder); lia.
Qed.

(** The whole of [finish], from a state of the run before the segment
    loop: the loop, then the last segment on the shrunk window. *)
Lemma finish_spec e :
  ready e →
  ∃ e1 e2 e3 a bytes bytes' b b',
    looping e e1 ∧ ready e1 ∧ stop_ e1 ≤ segmentHigh_ e1
    ∧ length (delivered e1) = (length (delivered e) + segments_left e)%nat
    ∧ (∀ fuel, (segments_left e ≤ fuel)%nat → finish_loop fuel e = Ok e1)
    ∧ preSieve (last_segment e1) = Ok e2
    ∧ crossOffMultiples e2 = Ok e3
    ∧ scalars e3 = scalars (last_segment e1)
    ∧ segmentLow_ e3 = segmentLow_ e1
    ∧ segmentHigh_ e3 = segmentHigh_ (last_segment e1)
    ∧ delivered e3 = delivered e1
    ∧ sieve_ e3 = Some (a, bytes)
    ∧ (∀ fuel, (segments_left e ≤ fuel)%nat →
         finish fuel e = Ok (segmentProcessed (set_sieve (Some (a, bytes')) e3)))
    ∧ Z.of_nat (length bytes') = sieveSize_ e
    ∧ length bytes' = length bytes
    ∧ (∀ i : nat, Z.of_nat i < sieveSize_ e3 - 1 → bytes' !! i = bytes !! i)
    ∧ bytes !! Z.to_nat (sieveSize_ e3 - 1) = Some b
    ∧ bytes' !! Z.to_nat (sieveSize_ e3 - 1) = Some b'
    ∧ (∀ (j : nat) v, bitValues_ !! j = Some v →
         Z.testbit b' (Z.of_nat j)
         = Z.testbit b (Z.of_nat j) && (v <=? getByteRemainder (stop_ e)))
    ∧ (∀ i : nat, sieveSize_ e3 ≤ Z.of_nat i < sieveSize_ e3 + (- sieveSize_ e3) mod 8 →
         bytes' !! i = Some 0).
Proof.
  intros He.
  destruct (finish_loop_spec (segments_left e) e He eq_refl)
    as (e1 & Hloop & Hlp & Hstop & Hlen & _).
  destruct (sieving_ready e e1 He (looping_sieving _ _ Hlp)) as [He1 Hsc1].
  destruct (scalars_eq _ _ Hsc1) as (Hstart1 & Hstop1 & Hsize1 & _).
  destruct (last_segment_spec e1 He1 Hstop) as (Hsz & Hlast & Hhigh).
  destruct (r_sieve e1 He1) as (a & bytes0 & Hs0 & Hlen0).
  pose proof (r_size e1 He1) as Hsize.
  destruct (preSieve_Ok (last_segment e1) a bytes0 Hs0 (r_preSieve e1 He1) ltac:(lia))
    as (bytes1 & Hpre & Hlen1).
  destruct (crossOffMultiples_spec (set_sieve (Some (a, bytes1)) (last_segment e1))
              a bytes1 eq_refl)
    as (bytes2 & small & medium & big & Hcross & Hlen2 & _).
  set (e3 := set_eratBig big _) in Hcross.
  destruct (deliver_last_spec (getByteRemainder (stop_ e1)) e3 a bytes2 eq_refl)
    as (bytes3 & b & b' & Hdel & Hlen3 & Hlow & Hb & Hb' & Hbits & Hzero).
  { change (sieveSize_ e3) with (sieveSize_ (last_segment e1)). lia. }
  { rewrite Hlen2, Hlen1, Hlen0. apply (r_size8 e1 He1). }
  { lia. }
  exists e1, (set_sieve (Some (a, bytes1)) (last_segment e1)), e3, a, bytes2, bytes3, b, b'.
  split_and!; try done.
  - intros fuel Hfuel. rewrite finish_unfold, (Hloop fuel Hfuel), bind_Ok, Hpre, bind_Ok,
      Hcross, bind_Ok. done.
  - lia.
  - by rewrite <- Hstop1.
Qed.

End DriverFacts.

(** ** Decoding *)

Lemma elem_of_decode_byte base b n :
  n ∈ decode_byte base b
  ↔ ∃ (j : nat) v, bitValues_ !! j = Some v
                   ∧ Z.testbit b (Z.of_nat j) = true ∧ n = base + v.
Proof.
  unfold decode_byte. rewrite list_elem_of_join. split.
  - intros (l & Hn & Hl). apply elem_of_lookup_imap in Hl as (j & v & -> & Hv).
    exists j, v. destruct (Z.testbit b (Z.of_nat j)).
    + apply list_elem_of_singleton in Hn. done.
    + by apply elem_of_nil in Hn.
  - intros (j & v & Hv & Hb & ->). exists [base + v]. split.
    + by apply list_elem_of_singleton.
    + apply elem_of_lookup_imap. exists j, v. by rewrite Hb.
Qed.

Lemma elem_of_decode seg n :
  n ∈ decode seg
  ↔ ∃ (i : nat) b (j : nat) v,
      Z.of_nat i < seg_size seg ∧ seg_bytes seg !! i = Some b
      ∧ bitValues_ !! j = Some v ∧ Z.testbit b (Z.of_nat j) = true
      ∧ n = seg_low seg + 30 * Z.of_nat i + v.
Proof.
  unfold decode, NUMBERS_PER_BYTE. rewrite list_elem_of_join. split.
  - intros (l & Hn & Hl). apply elem_of_lookup_imap in Hl as (i & b & -> & Hb).
    apply lookup_take_Some in Hb as [Hb Hi].
    apply elem_of_decode_byte in Hn as (j & v & Hv & Hbit & ->).
    exists i, b, j, v. split_and!; [lia|done..|lia].
  - intros (i & b & j & v & Hi & Hb & Hv & Hbit & ->).
    exists (decode_byte (seg_low seg + 30 * Z.of_nat i) b). split.
    + apply elem_of_decode_byte. by exists j, v.
    + apply elem_of_lookup_imap. exists i, b. split; [done|].
      apply lookup_take_Some. split; [done|lia].
Qed.

Lemma elem_of_reported segments n :
  n ∈ reported segments ↔ ∃ seg, seg ∈ segments ∧ n ∈ decode seg.
Proof.
  unfold reported. rewrite list_elem_of_join. split.
  - intros (l & Hn & Hl). apply list_elem_of_fmap in Hl as (seg & -> & Hseg). eauto.
  - intros (seg & Hseg & Hn). exists (decode seg). split; [done|].
    apply list_elem_of_fmap. eauto.
Qed.

(** * The constructor *)

Section Construction.
Context `{C : Collaborators}.
Variable oom : nat → bool.
Variable garbage : nat → Z.

Implicit Types e : SieveOfEratosthenes.

Lemma filter_fresh (l : list nat) (a n : nat) :
  Forall (λ b, (b < n)%nat) l → (n ≤ a)%nat → filter (λ b, b ≠ a) l = l.
Proof.
  intros Hl Ha. induction Hl as [|b l Hb Hl IH]; [done|].
  rewrite filter_cons_True by lia. by rewrite IH.
Qed.

Lemma filter_other (l : list nat) (a b : nat) :
  b ≠ a → filter (λ c, c ≠ a) (b :: l) = b :: filter (λ c, c ≠ a) l.
Proof. intros. by rewrite filter_cons_True. Qed.

Lemma filter_same (l : list nat) (a : nat) :
  filter (λ c, c ≠ a) (a :: l) = filter (λ c, c ≠ a) l.
Proof. rewrite filter_cons_False; [done|]. by intros []. Qed.

Ltac free_all H :=
  cbn; repeat (case_decide; try lia);
  repeat first
    [ rewrite filter_same
    | rewrite filter_other by lia
    | rewrite (filter_fresh _ _ _ H) by lia ];
  try done.

(** C9.  An allocation that fails during construction leaves the
    constructor as an exception ([bad_alloc] from the array, the sliced
    [std::exception] from [init]), with every allocation made by then
    given back: the live allocations are those from before the call, and no
    engine is returned.  The requests made are those numbered from
    [requests h] up to [requests h']. *)
Theorem construct_failure_releases start stop sieveSize preSieve h r h' :
  heap_wf h →
  construct oom garbage start stop sieveSize preSieve h = (r, h') →
  (∃ k, (requests h ≤ k < requests h')%nat ∧ oom k = true) →
  ∃ x, r = inl x ∧ (x = bad_alloc ∨ x = std_exception) ∧ live h' = live h.
Proof.
  intros Hwf Hc (k & Hk & Hoom). revert Hc. run_ctor.
  destruct h as [lv rq]. unfold heap_wf in Hwf. cbn in *.
  repeat (case_match; simplify_eq/=); intros [= <- <-]; cbn in Hk.
  all: try lia.
  all: try (eexists; split_and!; [done|by eauto|free_all Hwf]; fail).
  all: exfalso.
  all: repeat match goal with
         | H : oom ?a = false |- _ =>
             destruct (decide (k = a)) as [->|?]; [congruence|]; revert H
         end; intros; lia.
Qed.


Lemma coerced_idem sieveSize : coerced (coerced sieveSize) = coerced sieveSize.
Proof.
  destruct (coerced_pow2 sieveSize) as (k & Hk & Heq).
  pose proof (coerced_range sieveSize) as Hr.
  rewrite Heq in *. unfold coerced at 1, getInBetween, floorPowerOf2.
  destruct (Z.leb_spec (2 ^ k) 0); [lia|].
  rewrite Z.log2_pow2 by lia.
  destruct (Z.ltb_spec (2 ^ k) 1); [lia|].
  destruct (Z.ltb_spec 4096 (2 ^ k)); [lia|done].
Qed.

(** The two checks in the body of the constructor, the coercion of the
    sieve size, and a construction that succeeds: no allocation fails and
    each collaborator constructor that [init] calls returns. *)
Lemma construct_arguments start stop sieveSize preSieve h :
  (start < 7 →
   construct oom garbage start stop sieveSize preSieve h
   = (inl (primesieve_error "SieveOfEratosthenes: start must be >= 7"), h))
  ∧ (7 ≤ start → stop < start →
     construct oom garbage start stop sieveSize preSieve h
     = (inl (primesieve_error "SieveOfEratosthenes: start must be <= stop"), h))
  ∧ construct oom garbage start stop sieveSize preSieve h
    = construct oom garbage start stop (coerced sieveSize) preSieve h
  ∧ (let size := coerced sieveSize * 1024 in
     let sqrtStop := uint_t (isqrt stop) in
     7 ≤ start ≤ stop → (∀ k, oom k = false) →
     is_Some (match PreSieve_ctor preSieve with inr p => Some p | inl _ => None end) →
     (preSieve < sqrtStop →
      ∃ t, EratSmall_ctor stop size (limitEratSmall_of size) = inr t) →
     (limitEratSmall_of size < sqrtStop →
      ∃ t, EratMedium_ctor stop size (limitEratMedium_of size) = inr t) →
     (limitEratMedium_of size < sqrtStop →
      ∃ t, EratBig_ctor stop size sqrtStop = inr t) →
     ∃ e h', construct oom garbage start stop sieveSize preSieve h = (inr e, h')).
Proof.
  split_and!.
  - intros Hlt. run_ctor. destruct (Z.ltb_spec start 7); [done|lia].
  - intros Hge Hlt. run_ctor. destruct (Z.ltb_spec start 7); [lia|].
    destruct (Z.ltb_spec stop start); [done|lia].
  - unfold construct, SieveOfEratosthenes_body.
    fold (coerced sieveSize). fold (coerced (coerced sieveSize)).
    by rewrite coerced_idem.
  - intros size sqrtStop Hs Hoom Hpre Hsmall Hmedium Hbig.
    pose proof (coerced_range sieveSize) as Hc.
    assert (uint_t (coerced sieveSize * 1024) = size) as Hsize
      by (apply uint_t_small; lia).
    run_ctor.
    destruct (Z.ltb_spec start 7); [lia|]. destruct (Z.ltb_spec stop start); [lia|].
    cbn. fold (coerced sieveSize). rewrite !Hoom, Hsize. fold sqrtStop. cbn.
    destruct (PreSieve_ctor preSieve) as [x|pre]; [by destruct Hpre|]. cbn.
    destruct (Z.ltb_spec preSieve sqrtStop) as [H1|H1];
      [destruct (Hsmall H1) as [t1 ->]|]; cbn; rewrite ?Hoom; cbn.
    all: destruct (Z.ltb_spec (limitEratSmall_of size) sqrtStop) as [H2|H2];
      [destruct (Hmedium H2) as [t2 ->]|]; cbn; rewrite ?Hoom; cbn.
    all: destruct (Z.ltb_spec (limitEratMedium_of size) sqrtStop) as [H3|H3];
      [destruct (Hbig H3) as [t3 ->]|]; cbn; rewrite ?Hoom; cbn.
    all: by eexists _, _.
Qed.

(** What a successful construction tells about its arguments: the two
    checks of the constructor passed, and every collaborator constructor
    that [init] called returned. *)
Lemma construct_inr_inv start stop sieveSize preSieve h e h' :
  construct oom garbage start stop sieveSize preSieve h = (inr e, h') →
  let size := uint_t (coerced sieveSize * 1024) in
  let sqrtStop := uint_t (isqrt stop) in
  7 ≤ start ≤ stop
  ∧ (∃ p, PreSieve_ctor preSieve = inr p)
  ∧ (preSieve < sqrtStop →
     ∃ t, EratSmall_ctor stop size (limitEratSmall_of size) = inr t)
  ∧ (limitEratSmall_of size < sqrtStop →
     ∃ t, EratMedium_ctor stop size (limitEratMedium_of size) = inr t)
  ∧ (limitEratMedium_of size < sqrtStop →
     ∃ t, EratBig_ctor stop size sqrtStop = inr t).
Proof.
  intros Hc size sqrtStop. revert Hc. run_ctor. fold (coerced sieveSize).
  fold size. fold sqrtStop.
  destruct (Z.ltb_spec start 7) as [H7|H7]; [by intros [=]|].
  destruct (Z.ltb_spec stop start) as [Hs|Hs]; [by intros [=]|]. cbn.
  fold size. fold sqrtStop.
  destruct (oom (requests h)); [by intros [=]|]. cbn.
  destruct (oom (S (requests h))); [by intros [=]|].
  destruct (PreSieve_ctor preSieve) as [x|p] eqn:Hp; [by intros [=]|]. cbn.
  fold size. fold sqrtStop.
  destruct (Z.ltb_spec preSieve sqrtStop) as [H1|H1]; cbn.
  - destruct (oom _); [by intros [=]|].
    destruct (EratSmall_ctor _ _ _) as [x1|t1] eqn:Ht1; [by intros [=]|]. cbn.
    fold size. fold sqrtStop.
    destruct (Z.ltb_spec (limitEratSmall_of size) sqrtStop) as [H2|H2]; cbn.
    + destruct (oom _); [by intros [=]|].
      destruct (EratMedium_ctor _ _ _) as [x2|t2] eqn:Ht2; [by intros [=]|]. cbn.
      fold size. fold sqrtStop.
      destruct (Z.ltb_spec (limitEratMedium_of size) sqrtStop) as [H3|H3]; cbn.
      * destruct (oom _); [by intros [=]|].
        destruct (EratBig_ctor _ _ _) as [x3|t3] eqn:Ht3; [by intros [=]|].
        intros _. split_and!; eauto; lia.
      * intros _. split_and!; eauto; lia.
    + fold size. fold sqrtStop.
      destruct (Z.ltb_spec (limitEratMedium_of size) sqrtStop) as [H3|H3]; cbn.
      * destruct (oom _); [by intros [=]|].
        destruct (EratBig_ctor _ _ _) as [x3|t3] eqn:Ht3; [by intros [=]|].
        intros _. split_and!; eauto; lia.
      * intros _. split_and!; eauto; lia.
  - fold size. fold sqrtStop.
    destruct (Z.ltb_spec (limitEratSmall_of size) sqrtStop) as [H2|H2]; cbn.
    + destruct (oom _); [by intros [=]|].
      destruct (EratMedium_ctor _ _ _) as [x2|t2] eqn:Ht2; [by intros [=]|]. cbn.
      fold size. fold sqrtStop.
      destruct (Z.ltb_spec (limitEratMedium_of size) sqrtStop) as [H3|H3]; cbn.
      * destruct (oom _); [by intros [=]|].
        destruct (EratBig_ctor _ _ _) as [x3|t3] eqn:Ht3; [by intros [=]|].
        intros _. split_and!; eauto; lia.
      * intros _. split_and!; eauto; lia.
    + fold size. fold sqrtStop.
      destruct (Z.ltb_spec (limitEratMedium_of size) sqrtStop) as [H3|H3]; cbn.
      * destruct (oom _); [by intros [=]|].
        destruct (EratBig_ctor _ _ _) as [x3|t3] eqn:Ht3; [by intros [=]|].
        intros _. split_and!; eauto; lia.
      * intros _. split_and!; eauto; lia.
Qed.

(** C8.  The sieve size of a constructed engine is the requested size in
    KiB, floored to a power of two and clamped to [1, 4096], times 1024. *)
Theorem sieveSize_coerced start stop sieveSize preSieve h e h' :
  construct oom garbage start stop sieveSize preSieve h = (inr e, h') →
  sieveSize_ e = getInBetween 1 (floorPowerOf2 sieveSize) 4096 * 1024
  ∧ (∃ k, 0 ≤ k ≤ 12 ∧ sieveSize_ e = 2 ^ k * 1024)
  ∧ 1 * 1024 ≤ sieveSize_ e ≤ 4096 * 1024
  ∧ (1 ≤ sieveSize ≤ 4096 →
     ∃ k, sieveSize_ e = 2 ^ k * 1024 ∧ 2 ^ k ≤ sieveSize < 2 ^ (k + 1)).
Proof.
  intros Hc. apply construct_constructed in Hc.
  pose proof (constructed_sieveSize _ _ _ _ _ Hc) as Hsize.
  pose proof (coerced_range sieveSize) as Hr.
  split_and!; [done| |lia..|].
  - destruct (coerced_pow2 sieveSize) as (k & Hk & Heq). exists k.
    by rewrite Hsize, Heq.
  - intros Hin. destruct (floorPowerOf2_spec sieveSize ltac:(lia)) as (k & Hk & Heq & Hb).
    exists k. split; [|done]. rewrite Hsize. unfold coerced, getInBetween.
    rewrite Heq. destruct (Z.ltb_spec (2 ^ k) 1); [lia|].
    destruct (Z.ltb_spec 4096 (2 ^ k)); [lia|done].
Qed.

End Construction.

(** ** The preconditions of the constructor *)

Section Preconditions.
#[local] Existing Instance Spec.typical.
Variable oom : nat → bool.
Variable garbage : nat → Z.

Lemma sqrtStop_above_getMaxStop stop :
  getMaxStop < stop → stop < 2 ^ 64 →
  2 ^ 32 - 6 ≤ uint_t (isqrt stop) < 2 ^ 32.
Proof.
  intros Hlo Hhi. unfold isqrt. rewrite getMaxStop_eq in Hlo.
  assert (2 ^ 32 - 6 ≤ Z.sqrt stop).
  { apply Z.sqrt_le_square; lia. }
  assert (Z.sqrt stop < 2 ^ 32).
  { apply Z.sqrt_lt_square; lia. }
  rewrite uint_t_small by lia. lia.
Qed.

(** C2 (amended).  With the collaborators of the specification,
    construction fails with the message of the source for [start < 7] and
    for [start > stop], and it fails for [stop] above [getMaxStop] and for
    a pre-sieve limit outside [13, 23].  A sieve size is never rejected:
    the engine is the one built from the coerced size, and it is
    constructed whenever the other arguments are in range and no
    allocation fails. *)
Theorem construct_preconditions start stop sieveSize preSieve h :
  (start < 7 →
   construct oom garbage start stop sieveSize preSieve h
   = (inl (primesieve_error "SieveOfEratosthenes: start must be >= 7"), h))
  ∧ (7 ≤ start → stop < start →
     construct oom garbage start stop sieveSize preSieve h
     = (inl (primesieve_error "SieveOfEratosthenes: start must be <= stop"), h))
  ∧ (getMaxStop < stop → stop < 2 ^ 64 →
     ∃ x h', construct oom garbage start stop sieveSize preSieve h = (inl x, h'))
  ∧ (¬ (13 ≤ preSieve ≤ 23) →
     ∃ x h', construct oom garbage start stop sieveSize preSieve h = (inl x, h'))
  ∧ construct oom garbage start stop sieveSize preSieve h
    = construct oom garbage start stop (coerced sieveSize) preSieve h
  ∧ (7 ≤ start ≤ stop → stop ≤ getMaxStop → 13 ≤ preSieve ≤ 23 →
     (∀ k, oom k = false) →
     ∃ e h', construct oom garbage start stop sieveSize preSieve h = (inr e, h')).
Proof.
  destruct (construct_arguments oom garbage start stop sieveSize preSieve h)
    as (Hstart & Hstop & Hsize & Hok).
  split_and!; [done|done| | |done|].
  - intros Hlo Hhi.
    destruct (construct oom garbage start stop sieveSize preSieve h)
      as [[x|e] h'] eqn:Hc; [by eauto|].
    apply construct_inr_inv in Hc as (_ & _ & _ & _ & Hbig). exfalso.
    pose proof (sqrtStop_above_getMaxStop stop Hlo Hhi) as Hsqrt.
    pose proof (coerced_range sieveSize) as Hr.
    destruct Hbig as [t Ht].
    { cbn. rewrite uint_t_small by lia. lia. }
    cbn in Ht. unfold Spec.EratBig_new in Ht.
    destruct (Z.leb_spec stop getMaxStop); [lia|discriminate Ht].
  - intros Hlimit.
    destruct (construct oom garbage start stop sieveSize preSieve h)
      as [[x|e] h'] eqn:Hc; [by eauto|].
    apply construct_inr_inv in Hc as (_ & [p Hp] & _). exfalso.
    cbn in Hp. unfold Spec.PreSieve_new in Hp.
    destruct (Z.leb_spec 13 preSieve), (Z.leb_spec preSieve 23);
      cbn in Hp; (lia || discriminate Hp).
  - intros Hs Hmax Hlimit Hoom. cbn zeta in Hok. apply Hok; try done.
    + cbn. unfold Spec.PreSieve_new.
      destruct (Z.leb_spec 13 preSieve), (Z.leb_spec preSieve 23); cbn; by (eauto || lia).
    + intros _. by eexists.
    + intros _. by eexists.
    + intros _. cbn. unfold Spec.EratBig_new.
      destruct (Z.leb_spec stop getMaxStop); [by eexists|lia].
Qed.

End Preconditions.


(** * A full run *)

Lemma ceil_div_spec a b :
  0 < b → (ceil_div a b - 1) * b < a ≤ ceil_div a b * b.
Proof. intros Hb. unfold ceil_div. Z.div_mod_to_equations. nia. Qed.

Section Run.
Context `{C : Collaborators}.
Variable oom : nat → bool.
Variable garbage : nat → Z.

Implicit Types e x : SieveOfEratosthenes.

#[local] Arguments preSieve : simpl never.
#[local] Arguments crossOffMultiples : simpl never.
#[local] Arguments sieveSegment : simpl never.
#[local] Arguments finish_loop : simpl never.
#[local] Arguments finish : simpl never.
#[local] Arguments addSievingPrimes : simpl never.

Variables start stop sieveSize limit : Z.
Variables h h' : heap.
Variable e : SieveOfEratosthenes.

Hypothesis Hstart : 7 ≤ start ≤ stop.
Hypothesis Hstop : stop ≤ getMaxStop.
Hypothesis Hctor :
  construct oom garbage start stop sieveSize limit h = (inr e, h').

Lemma run_constructed : constructed start stop sieveSize limit e.
Proof. by eapply construct_constructed. Qed.

Lemma run_ready : ready e.
Proof. eapply constructed_ready; [done..|apply run_constructed]. Qed.

Lemma run_low0 : segmentLow_ e = low0 e ∧ delivered e = [].
Proof.
  pose proof run_ready as He. pose proof run_constructed as Hc.
  rewrite (r_low e He), (c_delivered _ _ _ _ _ Hc). cbn. split; [lia|done].
Qed.

Lemma run_start_stop : start_ e = start ∧ stop_ e = stop.
Proof.
  pose proof run_constructed as Hc.
  by rewrite (c_start _ _ _ _ _ Hc), (c_stop _ _ _ _ _ Hc).
Qed.

(** The calls of the sink in a run. *)
Lemma run_calls e0 :
  ready e0 → scalars e0 = scalars e → segmentHigh_ e0 = segmentHigh_ e →
  delivered e0 = [] →
  Z.of_nat (segments_left e0 + 1)
  = ceil_div (stop - 1 - segmentLow_ e) (sieveSize_ e * 30).
Proof.
  intros He0 Hsc Hhigh Hd. pose proof run_ready as He.
  destruct (scalars_eq _ _ Hsc) as (Hs & Ht & Hsz & Hw & Hl & _).
  destruct run_start_stop as [Hs' Ht']. destruct run_low0 as [Hlow _].
  pose proof (width_range e He) as Hwr. pose proof (r_high e He) as Hh.
  pose proof (r_next e He) as Hn.
  unfold segments_left, ceil_div. rewrite Hhigh, Hw, Ht, Ht', Hh.
  fold NUMBERS_PER_BYTE. fold (width e).
  replace (stop - 1 - segmentLow_ e + width e - 1)
    with (stop - (segmentLow_ e + width e + 1) + width e - 1 + 1 * width e) by lia.
  rewrite Z.div_add by lia.
  assert (0 ≤ (stop - (segmentLow_ e + width e + 1) + width e - 1) / width e).
  { apply Z.div_pos; lia. }
  lia.
Qed.

Lemma run_sink_calls primes :
  Forall (λ p, p ≤ sqrtStop_ e) primes →
  ∃ e', (∀ fuel, (length (delivered e') ≤ fuel)%nat → sieve fuel primes e = Ok e')
    ∧ Z.of_nat (length (delivered e'))
      = ceil_div (stop - 1 - segmentLow_ e) (sieveSize_ e * 30).
Proof.
  intros Hps. pose proof run_ready as He.
  destruct (addSievingPrimes_spec primes e He Hps)
    as (e0 & Hadd & He0 & Hsc0 & Hl0 & Hh0 & Hs0 & Hp0 & Hd0).
  destruct (finish_spec e0 He0)
    as (e1 & e2 & e3 & a & bytes & bytes' & b & b' & Hloop & He1 & Hge & Hlen & _ & _ & _
        & _ & _ & _ & Hd3 & _ & Hfin & _).
  destruct run_low0 as [_ Hnil].
  assert (length (delivered (segmentProcessed (set_sieve (Some (a, bytes')) e3)))
          = (segments_left e0 + 1)%nat) as Hcalls.
  { cbn. rewrite length_app, Hd3, Hlen, Hd0, Hnil. cbn. lia. }
  eexists. split.
  - intros fuel Hfuel. unfold sieve. rewrite Hadd, bind_Ok. apply Hfin. lia.
  - rewrite Hcalls. apply run_calls; [done..|congruence|congruence].
Qed.

(** C3 (amended).  A full run calls the sink exactly
    [ceil ((stop - 1 - segmentLow_0) / (sieveSize * 30))] times. *)
Theorem sink_calls primes :
  Forall (λ p, p ≤ sqrtStop_ e) primes →
  ∃ e', (∀ fuel, (length (delivered e') ≤ fuel)%nat → sieve fuel primes e = Ok e')
    ∧ Z.of_nat (length (delivered e'))
      = ceil_div (stop - 1 - segmentLow_ e) (sieveSize_ e * 30).
Proof. exact (run_sink_calls primes). Qed.


Lemma run_sieving x :
  sieving e x →
  ready x ∧ start_ x = start ∧ stop_ x = stop ∧ sieveSize_ x = sieveSize_ e
  ∧ low0 x = segmentLow_ e.
Proof.
  intros Hx. destruct (sieving_ready e x run_ready Hx) as [Hr Hsc].
  destruct (scalars_eq _ _ Hsc) as (Hs & Ht & Hsz & Hw & Hl & _).
  destruct run_start_stop as [Hs' Ht']. destruct run_low0 as [Hlow _].
  split_and!; congruence.
Qed.

(** C4.  At every point of a run [segmentLow_] is a multiple of 30, every
    advance of the segment loop adds [sieveSize * 30] to it, and so the
    segments the sink receives start [sieveSize * 30] apart. *)
Theorem segmentLow_aligned :
  (∀ x, sieving e x →
     segmentLow_ x mod 30 = 0
     ∧ ∀ x', segmentHigh_ x < stop_ x → sieveSegment x = Ok x' →
         segmentLow_ (advance_window x') = segmentLow_ x + sieveSize_ e * 30)
  ∧ ∀ primes, Forall (λ p, p ≤ sqrtStop_ e) primes →
      ∃ e', (∀ fuel, (length (delivered e') ≤ fuel)%nat →
               sieve fuel primes e = Ok e')
        ∧ segmentLow_ e' mod 30 = 0
        ∧ ∀ (k : nat) seg, delivered e' !! k = Some seg →
            seg_low seg mod 30 = 0
            ∧ seg_low seg = segmentLow_ e + Z.of_nat k * (sieveSize_ e * 30).
Proof.
  split.
  - intros x Hx. destruct (run_sieving x Hx) as (Hr & _ & _ & Hsz & _).
    split; [by apply ready_low_mod|]. intros x' Hlt Hseg.
    destruct (sieveSegment_spec x Hr)
      as (x1 & a & bytes & Hx1 & Hsc1 & Hl1 & Hh1 & Hs1 & Hlen1 & Hp1 & Ht1 & Ht2 & Ht3 & Hd1).
    rewrite Hx1 in Hseg. injection Hseg as <-.
    destruct (ready_advance x x1 a bytes Hr Hlt Hsc1 Hl1 Hh1 Hs1 Hlen1 Hp1 Ht1 Ht2 Ht3 Hd1)
      as (_ & -> & _).
    unfold width, NUMBERS_PER_BYTE. by rewrite Hsz.
  - intros primes Hps. pose proof run_ready as He.
    destruct (addSievingPrimes_spec primes e He Hps)
      as (e0 & Hadd & He0 & Hsc0 & Hl0 & Hh0 & Hs0 & Hp0 & Hd0).
    destruct (finish_spec e0 He0)
      as (e1 & e2 & e3 & a & bytes & bytes' & b & b' & Hloop & He1 & Hge & Hlen & _ & _ & _
          & _ & Hl3 & _ & Hd3 & _ & Hfin & _).
    destruct run_low0 as [Hlow Hnil].
    assert (sieving e e1) as Hsv.
    { eapply sieving_trans; [by eapply addSievingPrimes_sieving|].
      by apply looping_sieving. }
    destruct (run_sieving e1 Hsv) as (_ & _ & _ & Hsz1 & Hlow1).
    eexists. split_and!.
    + intros fuel Hfuel. unfold sieve. rewrite Hadd, bind_Ok. apply Hfin.
      revert Hfuel. cbn. rewrite length_app, Hd3, Hlen, Hd0, Hnil. cbn. lia.
    + cbn. rewrite Hl3. by apply ready_low_mod.
    + intros k seg. cbn. rewrite Hd3. intros Hk.
      assert (seg_low seg = segmentLow_ e + Z.of_nat k * (sieveSize_ e * 30)) as Hseg.
      { apply lookup_app_Some in Hk as [Hk|[Hk1 Hk2]].
        - destruct (r_delivered e1 He1 k seg Hk) as (-> & _).
          unfold width, NUMBERS_PER_BYTE. by rewrite Hlow1, Hsz1.
        - apply list_lookup_singleton_Some in Hk2 as [Hk2 <-]. cbn.
          rewrite Hl3, (r_low e1 He1). unfold width, NUMBERS_PER_BYTE.
          rewrite Hlow1, Hsz1. f_equal. f_equal. lia. }
      split; [|done]. rewrite Hseg.
      replace (segmentLow_ e + Z.of_nat k * (sieveSize_ e * 30))
        with (segmentLow_ e + Z.of_nat k * sieveSize_ e * 30) by lia.
      rewrite Z.mod_add by lia. by apply ready_low_mod.
Qed.

(** C5 (amended).  At every point of a run, and after the last segment,
    [segmentHigh_ = segmentLow_ + sieveSize_ * 30 + 1]: the integer of the
    last bit (31) of the last byte of the window, above which no bit of the
    window lies. *)
Theorem segmentHigh_window :
  (∀ x, sieving e x →
     segmentHigh_ x = segmentLow_ x + sieveSize_ x * 30 + 1
     ∧ segmentHigh_ x = segmentLow_ x + 30 * (sieveSize_ x - 1) + 31
     ∧ ∀ i v, 0 ≤ i < sieveSize_ x → v ∈ bitValues_ →
         segmentLow_ x + 30 * i + v ≤ segmentHigh_ x)
  ∧ ∀ primes, Forall (λ p, p ≤ sqrtStop_ e) primes →
      ∃ e', (∀ fuel, (length (delivered e') ≤ fuel)%nat →
               sieve fuel primes e = Ok e')
        ∧ segmentHigh_ e' = segmentLow_ e' + sieveSize_ e' * 30 + 1
        ∧ stop ≤ segmentHigh_ e'.
Proof.
  split.
  - intros x Hx. destruct (run_sieving x Hx) as (Hr & _).
    pose proof (r_high x Hr) as Hh. unfold width, NUMBERS_PER_BYTE in Hh.
    split_and!; [lia|lia|]. intros i v Hi Hv.
    apply list_elem_of_lookup in Hv as [j Hv]. apply bitValues_range in Hv. lia.
  - intros primes Hps. pose proof run_ready as He.
    destruct (addSievingPrimes_spec primes e He Hps)
      as (e0 & Hadd & He0 & Hsc0 & Hl0 & Hh0 & Hs0 & Hp0 & Hd0).
    destruct (finish_spec e0 He0)
      as (e1 & e2 & e3 & a & bytes & bytes' & b & b' & Hloop & He1 & Hge & Hlen & _ & _ & _
          & Hsc3 & Hl3 & Hh3 & Hd3 & _ & Hfin & _).
    destruct run_low0 as [Hlow Hnil].
    assert (sieving e e1) as Hsv.
    { eapply sieving_trans; [by eapply addSievingPrimes_sieving|].
      by apply looping_sieving. }
    destruct (run_sieving e1 Hsv) as (_ & _ & Hstop1 & _).
    destruct (last_segment_spec e1 He1 Hge) as (Hsz & Hlast & Hhigh).
    destruct (scalars_eq _ _ Hsc3) as (_ & _ & Hsz3 & _).
    pose proof (getByteRemainder_range (stop_ e1)).
    eexists. split_and!.
    + intros fuel Hfuel. unfold sieve. rewrite Hadd, bind_Ok. apply Hfin.
      revert Hfuel. cbn. rewrite length_app, Hd3, Hlen, Hd0, Hnil. cbn. lia.
    + cbn. rewrite Hh3, Hl3, Hsz3. done.
    + cbn. rewrite Hh3, Hhigh. lia.
Qed.


Lemma run_finish primes :
  Forall (λ p, p ≤ sqrtStop_ e) primes →
  ∃ e1 e3 a (bytes bytes' : list Z) b b',
    sieving e e1 ∧ ready e1 ∧ stop ≤ segmentHigh_ e1
    ∧ sieveSize_ e3 = sieveSize_ (last_segment e1)
    ∧ segmentLow_ e3 = segmentLow_ e1
    ∧ delivered e3 = delivered e1
    ∧ (∀ fuel, (length (delivered e1) + 1 ≤ fuel)%nat →
         sieve fuel primes e = Ok (segmentProcessed (set_sieve (Some (a, bytes')) e3)))
    ∧ (∀ i : nat, Z.of_nat i < sieveSize_ e3 - 1 → bytes' !! i = bytes !! i)
    ∧ bytes !! Z.to_nat (sieveSize_ e3 - 1) = Some b
    ∧ bytes' !! Z.to_nat (sieveSize_ e3 - 1) = Some b'
    ∧ (∀ (j : nat) v, bitValues_ !! j = Some v →
         Z.testbit b' (Z.of_nat j)
         = Z.testbit b (Z.of_nat j) && (v <=? getByteRemainder stop))
    ∧ (∀ i : nat, sieveSize_ e3 ≤ Z.of_nat i < sieveSize_ e3 + (- sieveSize_ e3) mod 8 →
         bytes' !! i = Some 0).
Proof.
  intros Hps. pose proof run_ready as He.
  destruct (addSievingPrimes_spec primes e He Hps)
    as (e0 & Hadd & He0 & Hsc0 & Hl0 & Hh0 & Hs0 & Hp0 & Hd0).
  destruct (finish_spec e0 He0)
    as (e1 & e2 & e3 & a & bytes & bytes' & b & b' & Hloop & He1 & Hge & Hlen & _ & _ & _
        & Hsc3 & Hl3 & Hh3 & Hd3 & _ & Hfin & _ & _ & Hlow & Hb & Hb' & Hbits & Hzero).
  destruct run_low0 as [Hlow0 Hnil].
  assert (sieving e e1) as Hsv.
  { eapply sieving_trans; [by eapply addSievingPrimes_sieving|].
    by apply looping_sieving. }
  destruct (run_sieving e1 Hsv) as (_ & _ & Hstop1 & _).
  destruct (scalars_eq _ _ Hsc3) as (_ & _ & Hsz3 & _).
  destruct (scalars_eq _ _ Hsc0) as (_ & Hstop0 & _).
  destruct run_start_stop as [_ Hstop'].
  exists e1, e3, a, bytes, bytes', b, b'.
  split_and!; try done; [lia| |].
  - intros fuel Hfuel. unfold sieve. rewrite Hadd, bind_Ok. apply Hfin.
    rewrite Hlen, Hd0, Hnil in Hfuel. cbn in Hfuel. lia.
  - intros j v Hv. rewrite (Hbits j v Hv). by rewrite Hstop0, Hstop'.
Qed.

(** C6.  In the array handed to the sink for the last segment, the bits of
    the last byte that stand for integers above [stop] are clear, the bytes
    from [sieveSize] up to the next multiple of 8 are zero, and every set
    bit of the [sieveSize] bytes delivered stands for an integer up to
    [stop]. *)
Theorem last_segment_masked primes :
  Forall (λ p, p ≤ sqrtStop_ e) primes →
  ∃ e' final,
    (∀ fuel, (length (delivered e') ≤ fuel)%nat → sieve fuel primes e = Ok e')
    ∧ last (delivered e') = Some final
    ∧ (∃ b, seg_bytes final !! Z.to_nat (seg_size final - 1) = Some b
            ∧ ∀ (j : nat) v, bitValues_ !! j = Some v →
                stop < seg_low final + 30 * (seg_size final - 1) + v →
                Z.testbit b (Z.of_nat j) = false)
    ∧ (∀ i : nat,
         seg_size final ≤ Z.of_nat i < seg_size final + (- seg_size final) mod 8 →
         seg_bytes final !! i = Some 0)
    ∧ (∀ n, n ∈ decode final → n ≤ stop).
Proof.
  intros Hps.
  destruct (run_finish primes Hps)
    as (e1 & e3 & a & bytes & bytes' & b & b' & Hsv & He1 & Hge & Hsz3 & Hl3 & Hd3 & Hfin
        & Hlow & Hb & Hb' & Hbits & Hzero).
  destruct (run_sieving e1 Hsv) as (_ & _ & Hstop1 & _).
  rewrite <- Hstop1 in Hge.
  destruct (last_segment_spec e1 He1 Hge) as (Hsz & Hlast & Hhigh).
  rewrite <- Hsz3, Hstop1 in Hlast. rewrite <- Hsz3 in Hsz.
  pose proof (getByteRemainder_range stop) as Hr.
  eexists _, _. split_and!.
  - intros fuel Hfuel. apply Hfin. revert Hfuel. cbn.
    rewrite length_app, Hd3. cbn. lia.
  - cbn. apply last_snoc.
  - cbn. exists b'. split; [done|]. intros j v Hv Hgt.
    rewrite (Hbits j v Hv). destruct (Z.leb_spec v (getByteRemainder stop)); [lia|].
    apply andb_false_r.
  - cbn. done.
  - intros n Hn. apply elem_of_decode in Hn as (i & bb & j & v & Hi & Hbb & Hv & Hbit & ->).
    cbn in *. destruct (bitValues_range j v Hv) as [Hvr _].
    destruct (decide (Z.of_nat i = sieveSize_ e3 - 1)) as [Heq|Hne].
    + replace (Z.to_nat (sieveSize_ e3 - 1)) with i in Hb' by lia.
      rewrite Hb' in Hbb. injection Hbb as <-.
      rewrite (Hbits j v Hv) in Hbit. apply andb_true_iff in Hbit as [_ Hle].
      apply Z.leb_le in Hle. lia.
    + lia.
Qed.

(** C7.  The first segment of a run is the one sieved before any was
    delivered.  There [preSieve] clears the bits of the integers below
    [start], all of them in byte 0, and clears no other bit (byte 0 is
    first set to [0xff] when [start <= limitPreSieve_]); in every later
    segment [segmentLow_ > start] and [preSieve] leaves the array as
    [doIt] filled it. *)
Theorem start_edge_masked_once x :
  presieving e x →
  ∃ a bytes ap pre,
    sieve_ x = Some (a, bytes) ∧ preSieve_ x = Some (ap, pre)
    ∧ ((delivered x = [] ∧ segmentLow_ x ≤ start
        ∧ ∃ bytes',
            preSieve x = Ok (set_sieve (Some (a, bytes')) x)
            ∧ length bytes' = length bytes
            ∧ ∀ (i : nat) b f (j : nat) v,
                bytes' !! i = Some b → filled x pre bytes !! i = Some f →
                bitValues_ !! j = Some v →
                let n := segmentLow_ x + 30 * Z.of_nat i + v in
                (n < start → i = 0%nat ∧ Z.testbit b (Z.of_nat j) = false)
                ∧ (start ≤ n →
                   Z.testbit b (Z.of_nat j)
                   = if decide (i = 0%nat ∧ start ≤ limitPreSieve_ x) then true
                     else Z.testbit f (Z.of_nat j)))
       ∨ (delivered x ≠ [] ∧ start < segmentLow_ x
          ∧ preSieve x = Ok (set_sieve (Some (a, filled x pre bytes)) x))).
Proof.
  intros Hx.
  assert (∃ x1, sieving e x1 ∧ sieve_ x = sieve_ x1 ∧ preSieve_ x = preSieve_ x1
                ∧ delivered x = delivered x1 ∧ segmentLow_ x = segmentLow_ x1
                ∧ start_ x = start_ x1 ∧ limitPreSieve_ x = limitPreSieve_ x1)
    as (x1 & Hsv & Hs & Hp & Hd & Hl & Hst & Hlp).
  { destruct Hx as [x Hsv _|x Hsv _]; by exists x. }
  destruct (run_sieving x1 Hsv) as (Hr & Hstart1 & _ & Hsz1 & Hlow1).
  destruct (r_sieve x1 Hr) as (a & bytes & Hs1 & Hlen).
  destruct (r_preSieve x1 Hr) as [[ap pre] Hp1].
  pose proof (r_size x1 Hr) as Hsize. pose proof (r_low x1 Hr) as Hlow.
  pose proof (low0_range x1 ltac:(lia)) as Hl0.
  assert (start_ x = start) as Hstx by congruence.
  assert (low0 x1 = start - getByteRemainder start) as Hl1
    by (unfold low0; by rewrite Hstart1).
  rewrite Hstart1 in Hl0.
  rewrite <- Hs in Hs1. rewrite <- Hp in Hp1. rewrite <- Hd, <- Hl in Hlow.
  unfold width, NUMBERS_PER_BYTE in Hlow.
  exists a, bytes, ap, pre. split_and!; [done..|].
  destruct (delivered x) as [|seg d] eqn:Hdx.
  - left. cbn in Hlow. split_and!; [done|lia|].
    destruct (preSieve_first x a bytes ap pre Hs1 Hp1 ltac:(lia) ltac:(lia))
      as (bytes' & b0 & f0 & Hpre & Hlen' & Hrest & Hb0 & Hf0 & Hbits).
    exists bytes'. split_and!; [done..|].
    intros i b f j v Hb Hf Hv n. unfold n. clear n.
    destruct (bitValues_range j v Hv) as [Hvr _].
    rewrite Hstx in Hbits.
    destruct i as [|i].
    + rewrite Hb0 in Hb. injection Hb as <-. rewrite Hf0 in Hf. injection Hf as <-.
      rewrite (Hbits j v Hv).
      split.
      * intros Hlt. split; [done|].
        destruct (Z.leb_spec (getByteRemainder start) v); [lia|done].
      * intros Hge. destruct (Z.leb_spec (getByteRemainder start) v); [|lia].
        cbn. case_decide as Hdec.
        -- destruct Hdec as [_ Hle].
           by destruct (Z.leb_spec start (limitPreSieve_ x)); [|lia].
        -- destruct (Z.leb_spec start (limitPreSieve_ x)); [|done].
           exfalso. by apply Hdec.
    + rewrite Hrest in Hb by lia. rewrite Hf in Hb. injection Hb as <-.
      split; [lia|]. intros _. case_decide as Hdec; [|done]. by destruct Hdec.
  - right. split_and!; [done| |].
    + cbn in Hlow. nia.
    + apply (preSieve_later x a bytes ap pre Hs1 Hp1).
      cbn in Hlow. nia.
Qed.

Lemma sieving_preSieve e0 x :
  ready e0 → sieving e0 x → preSieve_ x = preSieve_ e0.
Proof.
  intros H0 Hs. induction Hs as [|p x x' Hs IH Hp Hadd|x x' Hs IH Hlt Hseg]; [done|..].
  - destruct (sieving_ready e0 x H0 Hs) as [Hr _].
    destruct (addSievingPrime_spec p x Hr Hp) as (x1 & Hx1 & _ & _ & _ & _ & _ & Hpre & _).
    rewrite Hx1 in Hadd. injection Hadd as <-. congruence.
  - destruct (sieving_ready e0 x H0 Hs) as [Hr _].
    destruct (sieveSegment_spec x Hr)
      as (x1 & a & bytes & Hx1 & _ & _ & _ & _ & _ & Hpre & _).
    rewrite Hx1 in Hseg. injection Hseg as <-.
    change (preSieve_ (advance_window x1)) with (preSieve_ x1). congruence.
Qed.

(** The state in which the first segment is pre-sieved. *)
Lemma presieving_first x :
  presieving e x → delivered x = [] →
  ∃ a (bytes : list Z) ap pre,
    sieve_ x = Some (a, bytes) ∧ preSieve_ x = Some (ap, pre)
    ∧ preSieve_ x = preSieve_ e
    ∧ (0 < length bytes)%nat ∧ 1 ≤ sieveSize_ x
    ∧ segmentLow_ x = segmentLow_ e ∧ start_ x = start
    ∧ limitPreSieve_ x = limit.
Proof.
  intros Hx Hnil.
  assert (∃ x1, sieving e x1 ∧ sieve_ x = sieve_ x1 ∧ preSieve_ x = preSieve_ x1
                ∧ delivered x = delivered x1 ∧ segmentLow_ x = segmentLow_ x1
                ∧ start_ x = start_ x1 ∧ limitPreSieve_ x = limitPreSieve_ x1
                ∧ (ready x1 → 1 ≤ sieveSize_ x))
    as (x1 & Hsv & Hs & Hp & Hd & Hl & Hst & Hlp & Hone).
  { destruct Hx as [x Hsv _|x Hsv Hge]; exists x; split_and!; try done.
    - intros Hr. pose proof (r_size x Hr). lia.
    - intros Hr. by destruct (last_segment_spec x Hr Hge) as ([? _] & _). }
  destruct (run_sieving x1 Hsv) as (Hr & Hstart1 & _ & Hsz1 & Hlow1).
  destruct (sieving_ready e x1 run_ready Hsv) as [_ Hsc].
  destruct (scalars_eq _ _ Hsc) as (_ & _ & _ & _ & _ & _ & Hlim).
  pose proof (construct_constructed _ _ _ _ _ _ _ _ _ Hctor) as Hcd.
  destruct (r_sieve x1 Hr) as (a & bytes & Hs1 & Hlen).
  destruct (r_preSieve x1 Hr) as [[ap pre] Hp1].
  pose proof (r_size x1 Hr) as Hsize. pose proof (r_low x1 Hr) as Hlow.
  rewrite <- Hd, Hnil in Hlow. cbn in Hlow.
  exists a, bytes, ap, pre.
  split_and!; [congruence|congruence| |lia|by apply Hone|lia|congruence|].
  - rewrite Hp. apply sieving_preSieve; [apply run_ready|done].
  - rewrite Hlp, Hlim. apply (c_limitPreSieve _ _ _ _ _ Hcd).
Qed.

End Run.

(** * The collaborators of the specification *)

Module SpecFacts.
Import Spec.

(** ** Numbers *)

Lemma divides_spec p n : p ≠ 0 → divides p n = true ↔ (p | n).
Proof.
  intros Hp. unfold divides. rewrite Z.eqb_eq. by apply Z.mod_divide.
Qed.

Lemma is_prime_spec n : is_prime n = true ↔ Z.prime n.
Proof.
  unfold is_prime, Z.prime.
  rewrite andb_true_iff, Z.ltb_lt, forallb_forall. split.
  - intros [Hn Hd]. split; [done|]. intros d Hdn Hdiv.
    specialize (Hd d). rewrite negb_true_iff in Hd.
    assert (divides d n = true) as Ht by (apply divides_spec; [lia|done]).
    rewrite Hd in Ht; [done|].
    apply list_elem_of_In, list_elem_of_lookup. exists (Z.to_nat (d - 2)).
    apply lookup_seqZ. lia.
  - intros [Hn Hd]. split; [done|]. intros d Hin.
    apply list_elem_of_In, list_elem_of_lookup in Hin as [i Hi].
    apply lookup_seqZ in Hi as [-> Hi].
    apply negb_true_iff. destruct (divides (2 + Z.of_nat i) n) eqn:Hdiv; [|done].
    apply divides_spec in Hdiv; [|lia]. exfalso. apply (Hd (2 + Z.of_nat i)); [lia|done].
Qed.

Lemma prime_or_divisor n :
  1 < n → Z.prime n ∨ ∃ d, 1 < d < n ∧ (d | n).
Proof.
  intros Hn. destruct (prime_dec n) as [Hp|Hnp].
  - left. by apply prime_alt.
  - right. by apply not_prime_divide.
Qed.

Lemma prime_factor n : 1 < n → ∃ q, Z.prime q ∧ (q | n).
Proof.
  assert (∀ k : nat, ∀ n, n ≤ Z.of_nat k → 1 < n → ∃ q, Z.prime q ∧ (q | n)) as Hind.
  { induction k as [|k IH]; intros m Hm Hm1; [lia|].
    destruct (prime_or_divisor m Hm1) as [Hp|(d & Hd & Hdiv)].
    - exists m. split; [done|]. apply Z.divide_refl.
    - destruct (IH d ltac:(lia) ltac:(lia)) as (q & Hq & Hqd).
      exists q. split; [done|]. by etrans. }
  intros Hn. apply (Hind (Z.to_nat n)); lia.
Qed.

(** A composite has a prime factor up to its square root. *)
Lemma small_prime_factor n :
  1 < n → ¬ Z.prime n → ∃ q, Z.prime q ∧ (q | n) ∧ q * q ≤ n.
Proof.
  intros Hn Hnp. destruct (prime_or_divisor n Hn) as [?|(d & Hd & [c Hc])]; [done|].
  assert (1 < c) as Hc1 by nia.
  destruct (Z.le_gt_cases d c) as [Hle|Hgt].
  - destruct (prime_factor d ltac:(lia)) as (q & Hq & Hqd).
    exists q. split_and!; [done|etrans; [done|]; by exists c|].
    pose proof (Z.prime_ge_2 q Hq). apply Z.divide_pos_le in Hqd; [|lia]. nia.
  - destruct (prime_factor c Hc1) as (q & Hq & Hqc).
    exists q. split_and!; [done|etrans; [done|]; exists d; lia|].
    pose proof (Z.prime_ge_2 q Hq). apply Z.divide_pos_le in Hqc; [|lia]. nia.
Qed.

Lemma prime_divides_prime q n : 1 < q → Z.prime n → (q | n) → q = n.
Proof.
  intros Hq [Hn Hnd] Hdiv. apply Z.divide_pos_le in Hdiv as Hle; [|lia].
  destruct (decide (q = n)) as [|Hne]; [done|]. destruct (Hnd q); [lia|done].
Qed.

(** An integer with a bit has no divisor from 2 to 6. *)
Lemma wheel_coprime low i v q :
  low mod 30 = 0 → v ∈ bitValues_ → 2 ≤ q ≤ 6 → ¬ (q | low + 30 * i + v).
Proof.
  intros Hlow Hv Hq [k Hk].
  assert (low = 30 * (low / 30)) as Hl by (Z.div_mod_to_equations; lia).
  unfold bitValues_ in Hv. rewrite !elem_of_cons in Hv. rewrite elem_of_nil in Hv.
  assert (q = 2 ∨ q = 3 ∨ q = 4 ∨ q = 5 ∨ q = 6) as Hcases by lia.
  destruct Hcases as [-> | [-> | [-> | [-> | ->]]]];
    destruct Hv as [-> | [-> | [-> | [-> | [-> | [-> | [-> | [-> | []]]]]]]]]; lia.
Qed.

(** A prime from 7 on has a bit: its remainder is in the table. *)
Lemma prime_remainder n : Z.prime n → 7 ≤ n → getByteRemainder n ∈ bitValues_.
Proof.
  intros Hp Hn.
  assert (∀ d, 2 ≤ d ≤ 5 → ¬ (d | n)) as Hnd.
  { intros d Hd. apply Hp. lia. }
  assert (n mod 2 ≠ 0) as H2 by (rewrite Z.mod_divide by lia; apply Hnd; lia).
  assert (n mod 3 ≠ 0) as H3 by (rewrite Z.mod_divide by lia; apply Hnd; lia).
  assert (n mod 5 ≠ 0) as H5 by (rewrite Z.mod_divide by lia; apply Hnd; lia).
  unfold getByteRemainder, NUMBERS_PER_BYTE, bitValues_.
  rewrite !elem_of_cons.
  destruct (Z.leb_spec (n mod 30) 1); Z.div_mod_to_equations; lia.
Qed.

Lemma getByteRemainder_floor n : n - getByteRemainder n = 30 * ((n - 2) / 30).
Proof.
  unfold getByteRemainder, NUMBERS_PER_BYTE.
  destruct (Z.leb_spec (n mod 30) 1); Z.div_mod_to_equations; lia.
Qed.


(** ** Bytes of the pre-sieve and of the tiers *)

Lemma testbit_byte_of_bits bits (j : nat) :
  Z.testbit (byte_of_bits bits) (Z.of_nat j) = default false (bits !! j).
Proof.
  revert j. induction bits as [|b bits IH]; intros j; cbn [byte_of_bits].
  - by rewrite Z.testbit_0_l.
  - rewrite Z.add_comm. destruct j as [|j].
    + by rewrite Z.testbit_0_r.
    + rewrite Nat2Z.inj_succ, Z.testbit_succ_r by lia. apply IH.
Qed.

#[local] Arguments byte_of_bits : simpl never.
#[local] Arguments hit : simpl never.
#[local] Arguments presieved : simpl never.

Lemma testbit_bits_of_values (f : Z → bool) (j : nat) v :
  bitValues_ !! j = Some v →
  Z.testbit (byte_of_bits (f <$> bitValues_)) (Z.of_nat j) = f v.
Proof.
  intros Hv. rewrite testbit_byte_of_bits, list_lookup_fmap, Hv. done.
Qed.

Lemma presieve_primes_spec limit q :
  13 ≤ limit ≤ 23 → q ∈ presieve_primes limit ↔ Z.prime q ∧ 7 ≤ q ≤ limit.
Proof.
  intros Hl. unfold presieve_primes. rewrite list_elem_of_filter.
  rewrite !elem_of_cons, elem_of_nil. split.
  - intros [Hq Hin]. split; [|lia].
    destruct Hin as [-> | [-> | [-> | [-> | [-> | [-> | []]]]]]];
      by apply is_prime_spec.
  - intros [Hp Hq]. split; [lia|].
    assert (q = 7 ∨ q = 8 ∨ q = 9 ∨ q = 10 ∨ q = 11 ∨ q = 12 ∨ q = 13 ∨ q = 14
            ∨ q = 15 ∨ q = 16 ∨ q = 17 ∨ q = 18 ∨ q = 19 ∨ q = 20 ∨ q = 21
            ∨ q = 22 ∨ q = 23) as Hcases by lia.
    apply is_prime_spec in Hp.
    repeat (destruct Hcases as [-> | Hcases]; [first [discriminate Hp | tauto]|]).
    subst. tauto.
Qed.

Lemma presieved_spec limit n :
  13 ≤ limit ≤ 23 →
  presieved limit n = true ↔ ∀ q, Z.prime q → 7 ≤ q ≤ limit → ¬ (q | n).
Proof.
  intros Hl. unfold presieved. rewrite forallb_forall. split.
  - intros Hall q Hq Hr Hdiv.
    assert (q ∈ presieve_primes limit) as Hin by (by apply presieve_primes_spec).
    apply list_elem_of_In, Hall, negb_true_iff in Hin.
    apply divides_spec in Hdiv; [congruence|lia].
  - intros Hall q Hin. apply list_elem_of_In, presieve_primes_spec in Hin as [Hq Hr]; [|done].
    apply negb_true_iff. destruct (divides q n) eqn:Hd; [|done].
    apply divides_spec in Hd; [|lia]. by destruct (Hall q Hq Hr).
Qed.

Lemma lookup_PreSieve_fill limit sieveSize low (i : nat) :
  Z.of_nat i < sieveSize →
  PreSieve_fill limit sieveSize low !! i
  = Some (byte_of_bits
            ((λ v, presieved limit (low + 30 * Z.of_nat i + v)) <$> bitValues_)).
Proof.
  intros Hi. unfold PreSieve_fill, NUMBERS_PER_BYTE.
  rewrite list_lookup_fmap, lookup_seqZ_lt by done. cbn. do 3 f_equal.
Qed.


(** ** Sieving prime records *)

Lemma resumes_hit low r o :
  resumes low r → 2 ≤ o →
  (r.2 <=? o) && divides r.1 (o - r.2) = true
  ↔ (r.1 | low + o) ∧ r.1 * r.1 ≤ low + o.
Proof.
  destruct r as [p next]. unfold resumes. cbn. intros (Hp & [k Hk] & Hsq & Hfirst) Ho.
  rewrite andb_true_iff, Z.leb_le, divides_spec by lia. split.
  - intros [Hle [c Hc]]. split; [|lia]. exists (k + c). nia.
  - intros [[c Hc] Hge].
    assert (o - next = (c - k) * p) as Hd by nia.
    split; [|by exists (c - k)].
    destruct (Z.le_gt_cases next o) as [|Hlt]; [done|exfalso].
    assert (c - k ≤ -1) by nia. nia.
Qed.

Lemma hit_spec low t o :
  Forall (resumes low) t → 2 ≤ o →
  hit t o = true ↔ ∃ p, p ∈ t.*1 ∧ (p | low + o) ∧ p * p ≤ low + o.
Proof.
  intros Ht Ho. unfold hit. rewrite existsb_exists. split.
  - intros (r & Hin & Hr). apply list_elem_of_In in Hin.
    rewrite Forall_forall in Ht.
    apply (resumes_hit low r o (Ht r Hin) Ho) in Hr.
    exists r.1. split; [|done]. apply list_elem_of_fmap. by exists r.
  - intros (p & Hin & Hdiv). apply list_elem_of_fmap in Hin as (r & -> & Hin).
    exists r. split; [by apply list_elem_of_In|].
    rewrite Forall_forall in Ht. by apply (resumes_hit low r o (Ht r Hin) Ho).
Qed.

Lemma advance_fst width r : (advance width r).1 = r.1.
Proof. destruct r as [p next]. unfold advance. by case_match. Qed.

Lemma advance_primes width (t : Tier) : (advance width <$> t).*1 = t.*1.
Proof.
  rewrite <- list_fmap_compose. apply list_fmap_ext. intros _ r _.
  apply advance_fst.
Qed.

Lemma resumes_advance low width r :
  0 < width → resumes low r → resumes (low + width) (advance width r).
Proof.
  destruct r as [p next]. unfold resumes, advance. cbn.
  intros Hw (Hp & [k Hk] & Hsq & Hfirst).
  destruct (Z.leb_spec next (width + 1)); cbn.
  - set (c := (width + 1 - next) / p).
    assert (p * c ≤ width + 1 - next < p * (c + 1)) as Hc.
    { unfold c. pose proof (Z.mul_div_le (width + 1 - next) p ltac:(lia)).
      pose proof (Z.mul_succ_div_gt (width + 1 - next) p ltac:(lia)). lia. }
    assert (0 ≤ c) by (apply Z.div_pos; lia).
    split_and!; [done|exists (k + c + 1); nia|nia|right; nia].
  - split_and!; [done|exists k; lia|lia|].
    destruct Hfirst; [left|right]; lia.
Qed.

Lemma resumes_add low p :
  1 < p → resumes low (p, first_multiple p low - low).
Proof.
  intros Hp. unfold resumes, first_multiple. cbn.
  set (m := Z.max (p * p) low).
  assert (p * ((m + p - 1) / p) ≤ m + p - 1 < p * ((m + p - 1) / p + 1)) as Hc.
  { pose proof (Z.mul_div_le (m + p - 1) p ltac:(lia)).
    pose proof (Z.mul_succ_div_gt (m + p - 1) p ltac:(lia)). lia. }
  split_and!; [done|exists ((m + p - 1) / p); lia|lia|lia].
Qed.

(** ** One tier on the array *)

Lemma spec_crossOff_if (tier : ptr Tier) n (bytes : list Z) :
  0 ≤ n ≤ Z.of_nat (length bytes) →
  ∃ bytes',
    crossOff_if Tier_cross tier n bytes
    = (advanced (30 * n) tier, bytes')
    ∧ length bytes' = length bytes
    ∧ ∀ (i : nat) b, bytes !! i = Some b →
        ∃ b', bytes' !! i = Some b'
          ∧ ∀ (j : nat) v, bitValues_ !! j = Some v →
              Z.testbit b' (Z.of_nat j)
              = Z.testbit b (Z.of_nat j)
                && negb ((Z.of_nat i <? n)
                         && hit (pointee [] tier) (30 * Z.of_nat i + v)).
Proof.
  intros Hn. unfold crossOff_if. destruct tier as [[a t]|]; cbn.
  - unfold NUMBERS_PER_BYTE. rewrite length_take_le by lia. rewrite Z2Nat.id by lia.
    eexists. split_and!; [done|apply length_write_window|].
    intros i b Hb. unfold write_window. rewrite list_lookup_imap, Hb. cbn.
    destruct (Z.ltb_spec (Z.of_nat i) n) as [Hi|Hi].
    + rewrite list_lookup_imap, lookup_take_lt, Hb by lia. cbn.
      eexists. split; [done|]. intros j v Hv.
      destruct (bitValues_range j v Hv) as [_ Hj].
      rewrite testbit_byte_t, Z.land_spec by lia. f_equal.
      exact (testbit_bits_of_values (λ v, negb (hit t (30 * Z.of_nat i + v))) j v Hv).
    + exists b. split; [done|]. intros j v Hv. by rewrite andb_true_r.
  - exists bytes. split_and!; [done..|]. intros i b Hb. exists b. split; [done|].
    intros j v Hv. rewrite andb_false_r. by rewrite andb_true_r.
Qed.


(** ** Which bits survive *)

Lemma bitValues_prime v : v ∈ bitValues_ → Z.prime v.
Proof.
  unfold bitValues_. rewrite !elem_of_cons, elem_of_nil.
  intros [-> | [-> | [-> | [-> | [-> | [-> | [-> | [-> | []]]]]]]]];
    by apply is_prime_spec.
Qed.

Lemma bitValues_bounds v : v ∈ bitValues_ → 7 ≤ v ≤ 31.
Proof.
  intros Hv. destruct (proj1 (list_elem_of_lookup _ _) Hv) as [j Hj].
  apply (bitValues_range j v Hj).
Qed.

Section Candidates.
Variables (limit stop : Z) (primes : list Z) (t : Tier) (low : Z).
Hypothesis Hlimit : 13 ≤ limit ≤ 23.
Hypothesis Hprimes : ∀ p, p ∈ primes → Z.prime p.
Hypothesis Hcomplete : ∀ q, Z.prime q → 7 ≤ q → q * q ≤ stop → q ∈ primes.
Hypothesis Hresumes : Forall (resumes low) t.
Hypothesis Howned : ∀ p, p ∈ t.*1 ↔ p ∈ primes ∧ limit < p.
Hypothesis Hlow : low mod 30 = 0.
Hypothesis Hlow0 : 0 ≤ low.

(** A bit that the pre-sieve and the tiers leave set stands for a prime
    above the pre-sieve limit, and such a prime keeps its bit. *)
Lemma candidate_prime i v :
  0 ≤ i → v ∈ bitValues_ → low + (30 * i + v) ≤ stop →
  presieved limit (low + (30 * i + v)) && negb (hit t (30 * i + v)) = true
  ↔ Z.prime (low + (30 * i + v)) ∧ limit < low + (30 * i + v).
Proof.
  intros Hi Hv Hstop. set (n := low + (30 * i + v)).
  pose proof (bitValues_bounds v Hv) as Hvr.
  assert (7 ≤ n) as Hn by (unfold n; lia).
  assert (∀ q, Z.prime q → (q | n) → 7 ≤ q) as Hwheel.
  { intros q Hq Hdiv. pose proof (Z.prime_ge_2 q Hq).
    destruct (Z.le_gt_cases 7 q); [done|].
    destruct (wheel_coprime low i v q Hlow Hv ltac:(lia)).
    by replace (low + 30 * i + v) with n by (unfold n; lia). }
  rewrite andb_true_iff, negb_true_iff, (presieved_spec limit n Hlimit).
  rewrite <- not_true_iff_false, (hit_spec low t _ Hresumes) by lia.
  fold n. split.
  - intros [Hpre Hnohit].
    assert (Z.prime n) as Hp.
    { destruct (prime_dec n) as [Hp%prime_alt|Hnp]; [done|exfalso].
      destruct (small_prime_factor n ltac:(lia)) as (q & Hq & Hdiv & Hsq).
      { by rewrite prime_alt. }
      pose proof (Hwheel q Hq Hdiv).
      destruct (Z.le_gt_cases q limit).
      - by apply (Hpre q).
      - apply Hnohit. exists q. split_and!; [|done..].
        apply Howned. split; [|done]. apply Hcomplete; [done..|lia]. }
    split; [done|]. destruct (Z.le_gt_cases n limit); [|done].
    destruct (Hpre n Hp); [lia|apply Z.divide_refl].
  - intros [Hp Hgt]. split.
    + intros q Hq Hr Hdiv. pose proof (Z.prime_ge_2 q Hq).
      assert (q = n) by (apply prime_divides_prime; [lia|done..]). lia.
    + intros (p & Hin & Hdiv & Hsq). apply Howned in Hin as [Hin _].
      pose proof (Z.prime_ge_2 p (Hprimes p Hin)).
      assert (p = n) by (apply prime_divides_prime; [lia|done..]). nia.
Qed.

(** In the byte of the integers 7 to 31 no tier has a hit. *)
Lemma first_byte_unhit v : low = 0 → v ∈ bitValues_ → hit t (30 * 0 + v) = false.
Proof.
  intros -> Hv.
  pose proof (bitValues_bounds v Hv) as Hvr.
  apply not_true_iff_false. rewrite (hit_spec 0 t _ Hresumes) by lia.
  intros (p & Hin & _ & Hsq). apply Howned in Hin as [_ Hp]. nia.
Qed.

End Candidates.


(** ** The driver over these collaborators *)

Lemma hit_app t1 t2 o : hit (t1 ++ t2) o = hit t1 o || hit t2 o.
Proof. unfold hit. apply existsb_app. Qed.

Lemma pointee_advanced width (tier : ptr Tier) :
  pointee [] (advanced width tier) = advance width <$> pointee [] tier.
Proof. by destruct tier as [[a t]|]. Qed.

Section SpecRun.
Variables small medium : Z → Z.

#[local] Hint Extern 0 Collaborators =>
  exact (collaborators small medium) : typeclass_instances.

Implicit Types e x : @SieveOfEratosthenes (collaborators small medium).

#[local] Arguments preSieve : simpl never.
#[local] Arguments crossOffMultiples : simpl never.
#[local] Arguments sieveSegment : simpl never.
#[local] Arguments finish_loop : simpl never.
#[local] Arguments finish : simpl never.
#[local] Arguments addSievingPrimes : simpl never.

Lemma spec_crossOffMultiples x a (bytes : list Z) :
  sieve_ x = Some (a, bytes) → 0 ≤ sieveSize_ x ≤ Z.of_nat (length bytes) →
  ∃ bytes',
    crossOffMultiples x
    = Ok (set_eratBig (advanced (30 * Z.of_nat (length bytes)) (eratBig_ x))
            (set_eratMedium (advanced (30 * sieveSize_ x) (eratMedium_ x))
               (set_eratSmall (advanced (30 * sieveSize_ x) (eratSmall_ x))
                  (set_sieve (Some (a, bytes')) x))))
    ∧ length bytes' = length bytes
    ∧ ∀ (i : nat) b, bytes !! i = Some b → Z.of_nat i < sieveSize_ x →
        ∃ b', bytes' !! i = Some b'
          ∧ ∀ (j : nat) v, bitValues_ !! j = Some v →
              Z.testbit b' (Z.of_nat j)
              = Z.testbit b (Z.of_nat j)
                && negb (hit (tiers_of x) (30 * Z.of_nat i + v)).
Proof.
  intros Hs Hn. unfold crossOffMultiples. rewrite Hs. cbn.
  destruct (spec_crossOff_if (eratSmall_ x) (sieveSize_ x) bytes Hn)
    as (b1 & H1 & L1 & B1).
  destruct (spec_crossOff_if (eratMedium_ x) (sieveSize_ x) b1 ltac:(lia))
    as (b2 & H2 & L2 & B2).
  destruct (spec_crossOff_if (eratBig_ x) (Z.of_nat (length b2)) b2 ltac:(lia))
    as (b3 & H3 & L3 & B3).
  change (@EratSmall_crossOff (collaborators small medium)) with Tier_cross.
  change (@EratMedium_crossOff (collaborators small medium)) with Tier_cross.
  change (@EratBig_crossOff (collaborators small medium)) with Tier_cross.
  rewrite H1, H2, H3. exists b3. split_and!; [by rewrite L2, L1|congruence|].
  intros i b Hb Hi.
  destruct (B1 i b Hb) as (c1 & Hc1 & T1). destruct (B2 i c1 Hc1) as (c2 & Hc2 & T2).
  destruct (B3 i c2 Hc2) as (c3 & Hc3 & T3).
  exists c3. split; [done|]. intros j v Hv.
  rewrite (T3 j v Hv), (T2 j v Hv), (T1 j v Hv).
  unfold tiers_of. rewrite !hit_app.
  pose proof (lookup_lt_Some _ _ _ Hc2).
  destruct (Z.ltb_spec (Z.of_nat i) (sieveSize_ x)); [|lia].
  destruct (Z.ltb_spec (Z.of_nat i) (Z.of_nat (length b2))); [|lia].
  cbn. by rewrite !negb_orb, !andb_assoc.
Qed.

Lemma spec_filled_bits x (limit : Z) (bytes : list Z) (i : nat) :
  Z.of_nat i < sieveSize_ x → (i < length bytes)%nat →
  ∃ f, filled x limit bytes !! i = Some f
    ∧ ∀ (j : nat) v, bitValues_ !! j = Some v →
        Z.testbit f (Z.of_nat j)
        = presieved limit (segmentLow_ x + 30 * Z.of_nat i + v).
Proof.
  intros Hi Hlen. unfold filled.
  change (@PreSieve_doIt (collaborators small medium)) with PreSieve_fill.
  eexists. split.
  - apply lookup_write_window_inside; [done..|]. by apply lookup_PreSieve_fill.
  - intros j v Hv. destruct (bitValues_range j v Hv) as [_ Hj].
    rewrite testbit_byte_t by lia.
    exact (testbit_bits_of_values
             (λ v, presieved limit (segmentLow_ x + 30 * Z.of_nat i + v)) j v Hv).
Qed.

Section Sieved.
Variable primes : list Z.
Variable y : SieveOfEratosthenes.
Variables (a : nat) (bytes : list Z).

Hypothesis Hprimes : ∀ p, p ∈ primes → Z.prime p.
Hypothesis Hcomplete :
  ∀ q, Z.prime q → 7 ≤ q → q * q ≤ stop_ y → q ∈ primes.
Hypothesis Hinv : spec_inv primes y.
Hypothesis Hsieve : sieve_ y = Some (a, bytes).
Hypothesis Hsize : 1 ≤ sieveSize_ y ≤ Z.of_nat (length bytes).
Hypothesis Hstart : 7 ≤ start_ y.
Hypothesis Hlow : segmentLow_ y = low0 y ∨ start_ y < segmentLow_ y.
Hypothesis Hlow30 : segmentLow_ y mod 30 = 0.

(** [preSieve] then [crossOffMultiples]: the tiers move on, and a bit of
    the window is set exactly for the primes from [start] on, as far as
    [stop]. *)
Lemma spec_sieved :
  ∃ y1 bytes',
    preSieve y = Ok y1
    ∧ crossOffMultiples y1
      = Ok (set_eratBig (advanced (30 * Z.of_nat (length bytes)) (eratBig_ y))
              (set_eratMedium (advanced (30 * sieveSize_ y) (eratMedium_ y))
                 (set_eratSmall (advanced (30 * sieveSize_ y) (eratSmall_ y))
                    (set_sieve (Some (a, bytes')) y))))
    ∧ length bytes' = length bytes
    ∧ ∀ (i : nat) b (j : nat) v,
        Z.of_nat i < sieveSize_ y → bytes' !! i = Some b →
        bitValues_ !! j = Some v →
        segmentLow_ y + (30 * Z.of_nat i + v) ≤ stop_ y →
        Z.testbit b (Z.of_nat j) = true
        ↔ start_ y ≤ segmentLow_ y + (30 * Z.of_nat i + v)
          ∧ Z.prime (segmentLow_ y + (30 * Z.of_nat i + v)).
Proof.
  destruct (si_preSieve Hinv) as [ap Hpre].
  pose proof (si_limit Hinv) as Hlimit.
  pose proof (low0_range y Hstart) as Hl0.
  assert (0 ≤ segmentLow_ y) as Hlow0 by lia.
  assert (start_ y < segmentLow_ y → 30 ≤ segmentLow_ y) as Hlater30
    by (intros ?; Z.div_mod_to_equations; lia).
  set (limit := limitPreSieve_ y) in *.
  (* the array after [preSieve] *)
  assert (∃ bytes1,
    preSieve y = Ok (set_sieve (Some (a, bytes1)) y)
    ∧ length bytes1 = length bytes
    ∧ ∀ (i : nat) (j : nat) v,
        Z.of_nat i < sieveSize_ y → bitValues_ !! j = Some v →
        ∃ b1, bytes1 !! i = Some b1
          ∧ Z.testbit b1 (Z.of_nat j)
            = if decide (segmentLow_ y = low0 y ∧ i = 0%nat)
              then (getByteRemainder (start_ y) <=? v)
                   && ((start_ y <=? limit)
                       || presieved limit (segmentLow_ y + 30 * Z.of_nat i + v))
              else presieved limit (segmentLow_ y + 30 * Z.of_nat i + v))
    as (bytes1 & Hpre1 & Hlen1 & Hbits1).
  { destruct Hlow as [Hfirst|Hlater].
    - destruct (preSieve_first y a bytes ap limit Hsieve Hpre ltac:(lia) ltac:(lia))
        as (bytes1 & b0 & f0 & Hp1 & Hlen1 & Hrest & Hb0 & Hf0 & Hbits0).
      exists bytes1. split_and!; [done..|]. intros i j v Hi Hv.
      destruct (spec_filled_bits y limit bytes i Hi ltac:(lia)) as (f & Hf & Hfb).
      destruct i as [|i].
      + exists b0. split; [done|]. rewrite decide_True by done.
        rewrite (Hbits0 j v Hv). rewrite Hf0 in Hf. injection Hf as <-.
        by rewrite (Hfb j v Hv).
      + exists f. split; [by rewrite Hrest by lia|].
        rewrite decide_False by (intros [_ ?]; done). by apply Hfb.
    - exists (filled y limit bytes). split_and!.
      + apply (preSieve_later y a bytes ap limit Hsieve Hpre). lia.
      + apply length_write_window.
      + intros i j v Hi Hv.
        destruct (spec_filled_bits y limit bytes i Hi ltac:(lia)) as (f & Hf & Hfb).
        exists f. split; [done|]. rewrite decide_False by lia. by apply Hfb. }
  (* the array after [crossOffMultiples] *)
  destruct (spec_crossOffMultiples (set_sieve (Some (a, bytes1)) y) a bytes1 eq_refl)
    as (bytes2 & Hcross & Hlen2 & Hbits2); [cbn; lia|].
  cbn in Hcross. rewrite Hlen1 in Hcross.
  exists (set_sieve (Some (a, bytes1)) y), bytes2.
  split_and!; [done|done|congruence|].
  intros i b j v Hi Hb Hv Hstop.
  destruct (bitValues_range j v Hv) as [Hvr _].
  assert (v ∈ bitValues_) as Hvin by (by eapply list_elem_of_lookup_2).
  destruct (Hbits1 i j v Hi Hv) as (b1 & Hb1 & Hbit1).
  destruct (Hbits2 i b1 Hb1 Hi) as (b2 & Hb2 & Hbit2).
  rewrite Hb2 in Hb. injection Hb as <-.
  rewrite (Hbit2 j v Hv), Hbit1.
  change (tiers_of (set_sieve (Some (a, bytes1)) y)) with (tiers_of y).
  pose proof (candidate_prime limit (stop_ y) primes (tiers_of y) (segmentLow_ y)
                Hlimit Hprimes Hcomplete (si_resumes Hinv) (si_owned Hinv)
                Hlow30 Hlow0 (Z.of_nat i) v ltac:(lia) Hvin Hstop) as Hcand.
  replace (segmentLow_ y + 30 * Z.of_nat i + v)
    with (segmentLow_ y + (30 * Z.of_nat i + v)) by lia.
  case_decide as Hdec.
  - destruct Hdec as [Hfirst ->]. unfold low0 in Hfirst.
    change (Z.of_nat 0) with 0 in *.
    destruct (Z.leb_spec (start_ y) limit) as [Hsmall|Hbig].
    + (* byte 0 was set to 0xff: the integers 7 to 31 *)
      assert (segmentLow_ y = 0) as Hzero.
      { pose proof (getByteRemainder_mod (start_ y)).
        pose proof (getByteRemainder_range (start_ y)).
        Z.div_mod_to_equations. lia. }
      rewrite orb_true_l, andb_true_r.
      assert (hit (tiers_of y) (30 * 0 + v) = false) as ->.
      { eapply (first_byte_unhit limit primes (tiers_of y) (segmentLow_ y));
          first [done | apply (si_resumes Hinv) | apply (si_owned Hinv)]. }
      rewrite andb_true_r, Z.leb_le, Hzero. replace (0 + (30 * 0 + v)) with v by lia.
      split; [|lia]. intros Hle. split; [lia|]. by apply bitValues_prime.
    + rewrite orb_false_l, <- andb_assoc, andb_true_iff, Hcand, Z.leb_le. split.
      * intros [Hle [Hp _]]. split; [lia|done].
      * intros [Hle Hp]. split_and!; [lia|done|lia].
  - rewrite Hcand. split.
    + intros [Hp Hgt]. split; [|done].
      destruct Hlow as [Hfirst|Hlater]; [|lia].
      destruct i as [|i]; [by destruct Hdec|]. lia.
    + intros [Hle Hp]. split; [done|].
      destruct Hlow as [Hfirst|Hlater]; [|specialize (Hlater30 Hlater); lia].
      destruct i as [|i]; [by destruct Hdec|]. lia.
Qed.

End Sieved.

(** *** The sieving primes reach the tiers *)

Lemma sieving_primes_spec sqrtStop p :
  p ∈ sieving_primes sqrtStop ↔ Z.prime p ∧ 7 ≤ p ≤ sqrtStop.
Proof.
  unfold sieving_primes. rewrite list_elem_of_filter, is_prime_spec.
  rewrite list_elem_of_lookup. split.
  - intros [Hp [i Hi]]. apply lookup_seqZ in Hi. split; [done|lia].
  - intros [Hp Hr]. split; [done|]. exists (Z.to_nat (p - 7)).
    apply lookup_seqZ. lia.
Qed.

Lemma spec_constructed oom garbage start stop sieveSize limit h e h' :
  13 ≤ limit ≤ 23 →
  construct oom garbage start stop sieveSize limit h = (inr e, h') →
  (∃ ap, preSieve_ e = Some (ap, limit)) ∧ tiers_of e = [].
Proof.
  intros Hl. run_ctor. unfold tiers_of, PreSieve_new, Tier_new, EratBig_new. intros H.
  destruct (Z.leb_spec 13 limit); [|lia]. destruct (Z.leb_spec limit 23); [|lia].
  cbn in H.
  repeat (case_match; simplify_eq/=); split; by eauto.
Qed.

Lemma spec_inv_constructed oom garbage start stop sieveSize limit h e h' :
  13 ≤ limit ≤ 23 →
  construct oom garbage start stop sieveSize limit h = (inr e, h') →
  spec_inv [] e.
Proof.
  intros Hl Hc. destruct (spec_constructed _ _ _ _ _ _ _ _ _ Hl Hc) as [Hpre Ht].
  pose proof (construct_constructed _ _ _ _ _ _ _ _ _ Hc) as Hcd.
  pose proof (c_limitPreSieve _ _ _ _ _ Hcd) as Hlim.
  split.
  - by rewrite Hlim.
  - by rewrite Hlim.
  - by rewrite Ht.
  - intros p. rewrite Ht. cbn. rewrite elem_of_nil. tauto.
  - by rewrite (c_delivered _ _ _ _ _ Hcd).
Qed.

Lemma tiers_of_add primes x x' (r : Z * Z) :
  spec_inv primes x →
  (∀ r', r' ∈ tiers_of x' ↔ r' ∈ tiers_of x ∨ r' = r) →
  resumes (segmentLow_ x) r →
  limitPreSieve_ x < r.1 →
  limitPreSieve_ x' = limitPreSieve_ x → preSieve_ x' = preSieve_ x →
  segmentLow_ x' = segmentLow_ x → start_ x' = start_ x → stop_ x' = stop_ x →
  delivered x' = delivered x →
  spec_inv (primes ++ [r.1]) x'.
Proof.
  intros Hinv Hin Hr Hgt Hlim Hpre Hlow Hstart Hstop Hd. split.
  - rewrite Hlim. apply (si_limit Hinv).
  - rewrite Hlim, Hpre. apply (si_preSieve Hinv).
  - rewrite Hlow. apply Forall_forall. intros r' Hr'. apply Hin in Hr' as [Hr'| ->]; [|done].
    pose proof (si_resumes Hinv) as Hall. rewrite Forall_forall in Hall. by apply Hall.
  - intros p. rewrite Hlim, elem_of_app, list_elem_of_singleton.
    rewrite list_elem_of_fmap. split.
    + intros (r' & -> & Hr'). apply Hin in Hr' as [Hr'| ->]; [|by split; [right|]].
      assert (r'.1 ∈ (tiers_of x).*1) as Hp by (apply list_elem_of_fmap; eauto).
      apply (si_owned Hinv) in Hp as [? ?]. by split; [left|].
    + intros [[Hp| ->] Hlt].
      * assert (p ∈ (tiers_of x).*1) as Hp' by (by apply (si_owned Hinv)).
        apply list_elem_of_fmap in Hp' as (r' & -> & Hr'). exists r'. split; [done|].
        apply Hin. by left.
      * exists r. split; [done|]. apply Hin. by right.
  - rewrite Hstart, Hstop, Hd. apply (si_delivered Hinv).
Qed.

Lemma spec_addSievingPrime primes p x :
  ready x → spec_inv primes x → 1 < p → p ≤ sqrtStop_ x →
  ∃ x', addSievingPrime p x = Ok x' ∧ spec_inv (primes ++ [p]) x'.
Proof.
  intros Hr Hinv Hp Hsq.
  set (r := (p, first_multiple p (segmentLow_ x) - segmentLow_ x)).
  pose proof (resumes_add (segmentLow_ x) p Hp) as Hres. fold r in Hres.
  unfold addSievingPrime.
  destruct (Z.leb_spec p (limitPreSieve_ x)) as [Hle|Hgt].
  { exists x. split; [done|]. destruct Hinv as [H1 H2 H3 H4 H5]. split; try done.
    intros p'. rewrite H4, elem_of_app, list_elem_of_singleton.
    split; [intros [? ?]; by split; [left|]|]. intros [[?| ->] ?]; [done|lia]. }
  destruct (Z.leb_spec p (limitEratSmall_ x)).
  { destruct (r_eratSmall x Hr ltac:(lia)) as [[a t] Ht]. rewrite Ht. cbn.
    eexists. split; [done|].
    apply (tiers_of_add primes x _ r Hinv); try done.
    intros r'. unfold tiers_of. cbn. rewrite Ht. cbn.
    change (@EratSmall_addSievingPrime (collaborators small medium)) with Tier_add.
    unfold Tier_add. fold r. rewrite !elem_of_app, list_elem_of_singleton. tauto. }
  destruct (Z.leb_spec p (limitEratMedium_ x)).
  { destruct (r_eratMedium x Hr ltac:(lia)) as [[a t] Ht]. rewrite Ht. cbn.
    eexists. split; [done|].
    apply (tiers_of_add primes x _ r Hinv); try done.
    intros r'. unfold tiers_of. cbn. rewrite Ht. cbn.
    change (@EratMedium_addSievingPrime (collaborators small medium)) with Tier_add.
    unfold Tier_add. fold r. rewrite !elem_of_app, list_elem_of_singleton. tauto. }
  destruct (r_eratBig x Hr ltac:(lia)) as [[a t] Ht]. rewrite Ht. cbn.
  eexists. split; [done|].
  apply (tiers_of_add primes x _ r Hinv); try done.
  intros r'. unfold tiers_of. cbn. rewrite Ht. cbn.
  change (@EratBig_addSievingPrime (collaborators small medium)) with Tier_add.
  unfold Tier_add. fold r. rewrite !elem_of_app, list_elem_of_singleton. tauto.
Qed.

Lemma spec_addSievingPrimes added primes x :
  ready x → spec_inv added x →
  Forall (λ p, 1 < p ∧ p ≤ sqrtStop_ x) primes →
  ∃ x', addSievingPrimes primes x = Ok x' ∧ spec_inv (added ++ primes) x'.
Proof.
  intros Hr Hinv Hps. revert added x Hr Hinv Hps.
  induction primes as [|p primes IH]; intros added x Hr Hinv Hps.
  { exists x. by rewrite app_nil_r. }
  apply Forall_cons in Hps as [[Hp Hsq] Hps].
  destruct (spec_addSievingPrime added p x Hr Hinv Hp Hsq) as (x1 & Hx1 & Hinv1).
  destruct (addSievingPrime_spec p x Hr Hsq) as (x1' & Hx1' & Hr1 & Hsc & _).
  rewrite Hx1 in Hx1'. injection Hx1' as <-.
  destruct (IH (added ++ [p]) x1 Hr1 Hinv1) as (x2 & Hx2 & Hinv2).
  { destruct (scalars_eq _ _ Hsc) as (_ & _ & _ & _ & _ & -> & _). done. }
  exists x2. split.
  - unfold addSievingPrimes. fold addSievingPrimes. by rewrite Hx1.
  - by rewrite <- app_assoc in Hinv2.
Qed.

(** *** The segment loop *)

Lemma tiers_of_advanced x a (bytes' : list Z) width :
  tiers_of
    (set_eratBig (advanced width (eratBig_ x))
       (set_eratMedium (advanced width (eratMedium_ x))
          (set_eratSmall (advanced width (eratSmall_ x))
             (set_sieve (Some (a, bytes')) x))))
  = advance width <$> tiers_of x.
Proof.
  unfold tiers_of. cbn. by rewrite !pointee_advanced, !fmap_app.
Qed.

Lemma spec_looping primes e0 x :
  (∀ p, p ∈ primes → Z.prime p) →
  (∀ q, Z.prime q → 7 ≤ q → q * q ≤ stop_ e0 → q ∈ primes) →
  ready e0 → spec_inv primes e0 → looping e0 x → spec_inv primes x.
Proof.
  intros Hprimes Hcomplete Hr0 Hinv0 Hloop.
  induction Hloop as [|x x' Hloop IH Hlt Hseg]; [done|].
  destruct (sieving_ready e0 x Hr0 (looping_sieving _ _ Hloop)) as [Hr Hsc].
  destruct (scalars_eq _ _ Hsc) as (Hstart & Hstop & _).
  destruct (r_sieve x Hr) as (a & bytes & Hs & Hlen).
  pose proof (r_size x Hr) as Hsize. pose proof (r_start x Hr) as Hst.
  pose proof (r_low x Hr) as Hlow. pose proof (r_high x Hr) as Hhigh.
  pose proof (low0_range x ltac:(lia)) as Hl0.
  unfold width, NUMBERS_PER_BYTE in Hlow, Hhigh.
  destruct (spec_sieved primes x a bytes Hprimes) as (y1 & bytes' & Hpre & Hcross & Hlen' & Hbits);
    [by rewrite Hstop|done|done|lia|lia| |by apply ready_low_mod|].
  { destruct (delivered x); [left; cbn in Hlow; lia|right; cbn in Hlow; nia]. }
  revert Hseg. unfold sieveSegment. rewrite Hpre, bind_Ok, Hcross, bind_Ok.
  intros [= <-].
  destruct (sieveSegment_spec x Hr)
    as (x1 & a1 & bytes1 & Hx1 & Hsc1 & Hl1 & Hh1 & Hs1 & Hlen1 & Hp1 & Ht1 & Ht2 & Ht3 & Hd1).
  destruct (ready_advance x x1 a1 bytes1 Hr Hlt Hsc1 Hl1 Hh1 Hs1 Hlen1 Hp1 Ht1 Ht2 Ht3 Hd1)
    as (_ & Hlow' & _).
  revert Hx1. unfold sieveSegment. rewrite Hpre, bind_Ok, Hcross, bind_Ok.
  intros [= <-]. unfold width, NUMBERS_PER_BYTE in Hlow'.
  replace (30 * Z.of_nat (length bytes)) with (30 * sieveSize_ x) in * by lia.
  split.
  - apply (si_limit IH).
  - apply (si_preSieve IH).
  - rewrite Hlow'.
    change (tiers_of (advance_window (segmentProcessed ?y))) with (tiers_of y).
    rewrite tiers_of_advanced. apply Forall_fmap.
    eapply Forall_impl; [apply (si_resumes IH)|]. intros r Hres. cbn.
    replace (sieveSize_ x * 30) with (30 * sieveSize_ x) by lia.
    apply resumes_advance; [lia|done].
  - intros p.
    change (tiers_of (advance_window (segmentProcessed ?y))) with (tiers_of y).
    rewrite tiers_of_advanced, advance_primes. apply (si_owned IH).
  - cbn. apply Forall_app. split; [apply (si_delivered IH)|].
    apply Forall_singleton. intros i b j v Hi Hb Hv. cbn in *.
    destruct (bitValues_range j v Hv) as [Hvr _].
    rewrite (Hbits i b j v Hi Hb Hv) by lia. split; [|tauto].
    intros [? ?]. split; [lia|done].
Qed.

(** *** A full run *)

Lemma spec_inv_last_segment primes x :
  spec_inv primes x → spec_inv primes (last_segment x).
Proof. intros [H1 H2 H3 H4 H5]. by split. Qed.

Lemma sqrtStop_constructed start stop sieveSize limit e :
  0 ≤ stop ≤ getMaxStop → constructed start stop sieveSize limit e →
  sqrtStop_ e = Z.sqrt stop.
Proof.
  intros Hstop Hc. rewrite (c_sqrtStop _ _ _ _ _ Hc). unfold isqrt.
  rewrite getMaxStop_eq in Hstop. apply uint_t_small.
  split; [apply Z.sqrt_nonneg|]. apply Z.sqrt_lt_square; lia.
Qed.

#[local] Arguments last_segment : simpl never.

Ltac last_segment_frame :=
  repeat first
    [ progress change (delivered (last_segment ?x)) with (delivered x) in *
    | progress change (segmentLow_ (last_segment ?x)) with (segmentLow_ x) in *
    | progress change (start_ (last_segment ?x)) with (start_ x) in *
    | progress change (stop_ (last_segment ?x)) with (stop_ x) in *
    | progress change (low0 (last_segment ?x)) with (low0 x) in * ].

Section Finished.
Variable oom : nat → bool.
Variable garbage : nat → Z.
Variables start stop sieveSize limit : Z.
Variables h h' : heap.
Variable e : SieveOfEratosthenes.

Hypothesis Hstart : 7 ≤ start ≤ stop.
Hypothesis Hstop : stop ≤ getMaxStop.
Hypothesis Hlimit : 13 ≤ limit ≤ 23.
Hypothesis Hctor :
  construct oom garbage start stop sieveSize limit h = (inr e, h').

Lemma spec_run_segments :
  ∃ e' e1 final,
    (∀ fuel, (length (delivered e') ≤ fuel)%nat →
       sieve fuel (sieving_primes (sqrtStop_ e)) e = Ok e')
    ∧ delivered e' = delivered e1 ++ [final]
    ∧ ready e1 ∧ scalars e1 = scalars e
    ∧ Forall (segment_correct start stop) (delivered e')
    ∧ seg_low final = segmentLow_ e1
    ∧ seg_low final + 30 * (seg_size final - 1) = stop - getByteRemainder stop
    ∧ 1 ≤ seg_size final ≤ Z.of_nat (length (seg_bytes final)).
Proof.
  pose proof (construct_constructed _ _ _ _ _ _ _ _ _ Hctor) as Hcd.
  pose proof (constructed_ready _ _ _ _ _ Hstart Hstop Hcd) as Hr.
  pose proof (spec_inv_constructed _ _ _ _ _ _ _ _ _ Hlimit Hctor) as Hinv.
  pose proof (sqrtStop_constructed start stop sieveSize limit e ltac:(lia) Hcd) as Hsqrt.
  pose proof (c_start _ _ _ _ _ Hcd) as Hst. pose proof (c_stop _ _ _ _ _ Hcd) as Hsp.
  pose proof (c_delivered _ _ _ _ _ Hcd) as Hnil.
  set (primes := sieving_primes (sqrtStop_ e)).
  assert (∀ p, p ∈ primes → Z.prime p) as Hprimes.
  { intros p Hp. by apply sieving_primes_spec in Hp as [? _]. }
  assert (Forall (λ p, 1 < p ∧ p ≤ sqrtStop_ e) primes) as Hall.
  { apply Forall_forall. intros p Hp. apply sieving_primes_spec in Hp as [? ?]. lia. }
  destruct (spec_addSievingPrimes [] primes e Hr Hinv Hall) as (e0 & Hadd & Hinv0).
  cbn in Hinv0.
  destruct (addSievingPrimes_spec primes e Hr) as (e0' & Hadd' & Hr0 & Hsc0 & Hl0 & Hh0 & Hs0 & Hp0 & Hd0).
  { eapply Forall_impl; [done|]. cbn. tauto. }
  rewrite Hadd in Hadd'. injection Hadd' as <-.
  destruct (scalars_eq _ _ Hsc0) as (Hstart0 & Hstop0 & _).
  assert (∀ q, Z.prime q → 7 ≤ q → q * q ≤ stop_ e0 → q ∈ primes) as Hcomplete.
  { intros q Hq Hq7 Hsq. apply sieving_primes_spec. split; [done|].
    rewrite Hsqrt. split; [done|]. apply Z.sqrt_le_square; lia. }
  destruct (finish_spec e0 Hr0)
    as (e1 & e2 & e3 & a & bytes & bytes' & b & b' & Hloop & Hr1 & Hge & Hlen & _ & Hpre
        & Hcross & Hsc3 & Hl3 & Hh3 & Hd3 & Hs3 & Hfin & Hlen' & Hlenb & Hlow & Hb & Hb'
        & Hbits & _).
  pose proof (spec_looping primes e0 e1 Hprimes Hcomplete Hr0 Hinv0 Hloop) as Hinv1.
  destruct (sieving_ready e0 e1 Hr0 (looping_sieving _ _ Hloop)) as [_ Hsc1].
  destruct (scalars_eq _ _ Hsc1) as (Hstart1 & Hstop1 & Hsize1 & _).
  destruct (last_segment_spec e1 Hr1 Hge) as (Hsz & Hlast & Hhigh).
  destruct (r_sieve e1 Hr1) as (a1 & bytes1 & Hs1 & Hlen1).
  pose proof (r_low e1 Hr1) as Hlow1. pose proof (r_start e1 Hr1) as Hst1.
  pose proof (low0_range e1 ltac:(lia)) as Hl01.
  pose proof (r_size e1 Hr1) as Hsize. unfold width, NUMBERS_PER_BYTE in Hlow1.
  destruct (spec_sieved primes (last_segment e1) a1 bytes1 Hprimes)
    as (y1 & bytes2 & Hpre2 & Hcross2 & Hlen2 & Hbits2);
    [intros q Hq Hq7 Hsq; apply Hcomplete; [done..|];
     change (stop_ (last_segment e1)) with (stop_ e1) in Hsq; lia
    |by apply spec_inv_last_segment|done|lia
    |change (start_ (last_segment e1)) with (start_ e1); lia|
    |by apply (ready_low_mod e1)|].
  { change (low0 (last_segment e1)) with (low0 e1).
    change (segmentLow_ (last_segment e1)) with (segmentLow_ e1).
    change (start_ (last_segment e1)) with (start_ e1).
    destruct (delivered e1); [left; cbn in Hlow1; lia|right; cbn in Hlow1; nia]. }
  change (segmentLow_ (last_segment e1)) with (segmentLow_ e1) in Hbits2.
  change (start_ (last_segment e1)) with (start_ e1) in Hbits2.
  change (stop_ (last_segment e1)) with (stop_ e1) in Hbits2.
  rewrite Hpre in Hpre2. injection Hpre2 as <-.
  rewrite Hcross in Hcross2. injection Hcross2 as ->. cbn in Hs3.
  injection Hs3 as <- <-. cbn in Hbits2, Hlow, Hb, Hb', Hsz, Hlast, Hhigh, Hd3, Hl3.
  cbn in Hfin. last_segment_frame.
  set (size := sieveSize_ (last_segment e1)) in *.
  assert (stop_ e1 = stop) as Hstop' by congruence.
  assert (start_ e1 = start) as Hstart' by congruence.
  rewrite Hstop', ?Hstart' in *.
  pose proof (getByteRemainder_range stop) as Hrem.
  eexists _, e1, _. split_and!.
  - intros fuel Hfuel. unfold sieve. rewrite Hadd, bind_Ok. apply Hfin.
    revert Hfuel. cbn. last_segment_frame. rewrite length_app, Hlen, Hd0, Hnil. cbn. lia.
  - cbn. last_segment_frame. done.
  - done.
  - congruence.
  - cbn. last_segment_frame. apply Forall_app. split.
    { pose proof (si_delivered Hinv1) as Hdel. by rewrite Hstart', Hstop' in Hdel. }
    apply Forall_singleton. intros i c j v Hi Hc Hv. cbn in *. last_segment_frame.
    destruct (bitValues_range j v Hv) as [Hvr _].
    destruct (decide (Z.of_nat i = size - 1)) as [Heq|Hne].
    + replace (Z.to_nat (size - 1)) with i in Hb, Hb' by lia.
      rewrite Hb' in Hc. injection Hc as <-.
      rewrite Hstop0, Hsp in Hbits. rewrite (Hbits j v Hv), andb_true_iff, Z.leb_le.
      destruct (Z.le_gt_cases v (getByteRemainder stop)) as [Hle|Hgt].
      * rewrite (Hbits2 i b j v Hi Hb Hv) by lia. split; [|tauto].
        intros [[? ?] _]. split; [lia|done].
      * split; [lia|]. intros [? _]. lia.
    + rewrite Hlow in Hc by lia.
      rewrite (Hbits2 i c j v Hi Hc Hv) by lia. split; [|tauto].
      intros [? ?]. split; [lia|done].
  - done.
  - cbn. last_segment_frame. fold size. lia.
  - cbn. fold size. lia.
  - cbn. fold size. lia.
Qed.

(** The delivered segments together: their set bits are the primes of
    [start, stop]. *)
Lemma spec_reported :
  ∃ e',
    (∀ fuel, (length (delivered e') ≤ fuel)%nat →
       sieve fuel (sieving_primes (sqrtStop_ e)) e = Ok e')
    ∧ ∀ n, n ∈ reported (delivered e') ↔ start ≤ n ≤ stop ∧ Z.prime n.
Proof.
  destruct spec_run_segments
    as (e' & e1 & final & Hrun & Hd & Hr1 & Hsc1 & Hall & Hlow & Hlast & Hsize).
  exists e'. split; [done|]. intros n.
  rewrite elem_of_reported. rewrite Forall_forall in Hall. split.
  - intros (seg & Hseg & Hn).
    apply elem_of_decode in Hn as (i & b & j & v & Hi & Hb & Hv & Hbit & ->).
    apply (Hall seg Hseg i b j v Hi Hb Hv) in Hbit.
    by replace (seg_low seg + 30 * Z.of_nat i + v)
      with (seg_low seg + (30 * Z.of_nat i + v)) by lia.
  - intros [Hn Hp].
    pose proof (construct_constructed _ _ _ _ _ _ _ _ _ Hctor) as Hcd.
    pose proof (c_start _ _ _ _ _ Hcd) as Hst.
    destruct (scalars_eq _ _ Hsc1) as (Hstart1 & _ & Hsize1 & Hw1 & Hl1 & _).
    pose proof (r_size e1 Hr1) as Hsz. pose proof (r_low e1 Hr1) as Hlow1.
    pose proof (r_delivered e1 Hr1) as Hsegs.
    set (K := Z.of_nat (length (delivered e1))) in *.
    set (S := sieveSize_ e1) in *.
    unfold width, NUMBERS_PER_BYTE in Hlow1, Hsegs. fold S in Hlow1, Hsegs.
    assert (getByteRemainder n ∈ bitValues_) as Hv by (apply prime_remainder; [done|lia]).
    set (v := getByteRemainder n) in *.
    destruct (proj1 (list_elem_of_lookup _ _) Hv) as [j Hj].
    pose proof (getByteRemainder_floor n) as Hfn. fold v in Hfn.
    pose proof (getByteRemainder_floor stop) as Hfs.
    assert (low0 e1 = 30 * ((start - 2) / 30)) as Hf0.
    { unfold low0. rewrite Hstart1, Hst. apply getByteRemainder_floor. }
    assert ((start - 2) / 30 ≤ (n - 2) / 30 ≤ (stop - 2) / 30) as Hmono.
    { split; apply Z.div_le_mono; lia. }
    set (g := (n - 2) / 30 - (start - 2) / 30).
    assert (n = low0 e1 + 30 * g + v) as Hng by (unfold g; lia).
    assert (∀ seg (i : nat),
              seg ∈ delivered e' → Z.of_nat i < seg_size seg →
              (i < length (seg_bytes seg))%nat →
              n = seg_low seg + (30 * Z.of_nat i + v) →
              ∃ seg, seg ∈ delivered e' ∧ n ∈ decode seg) as Hfound.
    { intros seg i Hseg Hi Hlen Heq.
      destruct (lookup_lt_is_Some_2 _ _ Hlen) as [b Hb].
      exists seg. split; [done|]. apply elem_of_decode.
      exists i, b, j, v. split_and!; [done..| |lia].
      apply (Hall seg Hseg i b j v Hi Hb Hj). by rewrite <- Heq. }
    destruct (Z.lt_ge_cases g (K * S)) as [Hin|Hout].
    + (* one of the full segments *)
      assert (0 ≤ g / S < K) as Hk.
      { split; [apply Z.div_pos; lia|]. apply Z.div_lt_upper_bound; lia. }
      destruct (lookup_lt_is_Some_2 (delivered e1) (Z.to_nat (g / S)) ltac:(lia))
        as [seg Hseg].
      destruct (Hsegs _ _ Hseg) as (Hsl & Hss & Hsb).
      pose proof (Z.mod_pos_bound g S ltac:(lia)) as Hmod.
      pose proof (Z_div_mod_eq_full g S) as Hdm.
      apply (Hfound seg (Z.to_nat (g mod S))).
      * rewrite Hd. apply elem_of_app. left. by eapply list_elem_of_lookup_2.
      * lia.
      * lia.
      * rewrite Hsl, !Z2Nat.id by lia. nia.
    + (* the last segment *)
      apply (Hfound final (Z.to_nat (g - K * S))).
      * rewrite Hd. apply elem_of_app. right. by apply list_elem_of_singleton.
      * nia.
      * nia.
      * rewrite Hlow, Hlow1, Z2Nat.id by lia. nia.
Qed.

(** C1.  With the collaborators of the specification and the producer's
    sieving primes, a run on a valid input ends, and the integers of the set
    bits of the delivered segments are exactly the primes of [start, stop]. *)
Theorem primes_reported :
  ∃ e',
    (∀ fuel, (length (delivered e') ≤ fuel)%nat →
       sieve fuel (sieving_primes (sqrtStop_ e)) e = Ok e')
    ∧ ∀ n, n ∈ reported (delivered e') ↔ start ≤ n ≤ stop ∧ Z.prime n.
Proof. exact spec_reported. Qed.

(** C10.  When [start <= limitPreSieve_] the first segment starts at 0, so
    its byte 0 stands for the integers 7 to 31, all prime.  The pre-sieve
    has cleared there the bits of the primes up to the limit; [preSieve]
    leaves in byte 0 exactly the bits of the integers from [start] on; and
    the run reports every prime up to the limit that lies in
    [start, stop]. *)
Theorem first_byte_restored :
  start ≤ limit →
  segmentLow_ e = 0
  ∧ (∀ v, v ∈ bitValues_ → Z.prime v)
  ∧ (∀ x, presieving e x → delivered x = [] →
       ∃ a (bytes bytes' : list Z) b0 f0,
         sieve_ x = Some (a, bytes)
         ∧ preSieve x = Ok (set_sieve (Some (a, bytes')) x)
         ∧ filled x limit bytes !! 0%nat = Some f0
         ∧ bytes' !! 0%nat = Some b0
         ∧ ∀ (j : nat) v, bitValues_ !! j = Some v →
             (v ≤ limit → Z.testbit f0 (Z.of_nat j) = false)
             ∧ Z.testbit b0 (Z.of_nat j) = (start <=? v))
  ∧ ∃ e',
      (∀ fuel, (length (delivered e') ≤ fuel)%nat →
         sieve fuel (sieving_primes (sqrtStop_ e)) e = Ok e')
      ∧ ∀ p, Z.prime p → p ≤ limit → start ≤ p ≤ stop →
          p ∈ reported (delivered e').
Proof.
  intros Hsmall.
  pose proof (construct_constructed _ _ _ _ _ _ _ _ _ Hctor) as Hcd.
  assert (getByteRemainder start = start) as Hrem.
  { unfold getByteRemainder, NUMBERS_PER_BYTE. rewrite Z.mod_small by lia.
    destruct (Z.leb_spec start 1); [lia|done]. }
  assert (segmentLow_ e = 0) as Hzero.
  { rewrite (c_segmentLow _ _ _ _ _ Hcd), Hrem, Z.sub_diag. done. }
  split_and!; [done|apply bitValues_prime| |].
  - intros x Hx Hnil.
    destruct (presieving_first oom garbage start stop sieveSize limit h h' e
                Hstart Hstop Hctor x Hx Hnil)
      as (a & bytes & ap & pre & Hs & Hp & Hpe & Hlen & Hsz & Hlow & Hst & Hlim).
    destruct (spec_constructed _ _ _ _ _ _ _ _ _ Hlimit Hctor) as [[ap0 Hp0] _].
    destruct (preSieve_first x a bytes ap pre Hs Hp ltac:(lia) Hlen)
      as (bytes' & b0 & f0 & Hpre & _ & _ & Hb0 & Hf0 & Hbits).
    assert (pre = limit) as -> by congruence.
    exists a, bytes, bytes', b0, f0. split_and!; [done..|].
    intros j v Hv. split.
    + intros Hle.
      destruct (spec_filled_bits x limit bytes 0 ltac:(lia) Hlen) as (f & Hf & Hfb).
      rewrite Hf0 in Hf. injection Hf as <-. rewrite (Hfb j v Hv).
      rewrite Hlow, Hzero. apply not_true_iff_false. rewrite presieved_spec by done.
      intros Hall. assert (v ∈ bitValues_) as Hvin by (by eapply list_elem_of_lookup_2).
      pose proof (bitValues_bounds v Hvin).
      apply (Hall v (bitValues_prime v Hvin)); [lia|]. exists 1. lia.
    + rewrite (Hbits j v Hv), Hst, Hlim, Hrem.
      destruct (Z.leb_spec start limit); [|lia]. cbn. apply andb_true_r.
  - destruct spec_reported as (e' & Hrun & Hrep). exists e'. split; [done|].
    intros p Hp Hle Hin. by apply Hrep.
Qed.

End Finished.

End SpecRun.

End SpecFacts.

(** * The theorems at a small engine, and the inputs that refute *)

Section Examples.

#[local] Existing Instance Spec.typical.

(** C1 at [start = 7], [stop = 100]. *)
Lemma primes_reported_witness :
  ∃ e',
    (∀ fuel, (length (delivered e') ≤ fuel)%nat →
       sieve fuel (Spec.sieving_primes (sqrtStop_ demo_engine)) demo_engine = Ok e')
    ∧ ∀ n, n ∈ reported (delivered e') ↔ 7 ≤ n ≤ 100 ∧ Z.prime n.
Proof.
  apply (SpecFacts.primes_reported (λ s, 3 * s / 4) (λ s, 9 * s) no_failure zeroes
           7 100 1 13 (Heap [] 0) demo_heap demo_engine).
  - lia.
  - vm_compute. discriminate.
  - lia.
  - reflexivity.
Defined.

(** C2: the four rejections, and a sieve size of 0 KiB that is accepted. *)
Lemma construct_preconditions_witness :
  construct no_failure zeroes 3 100 1 13 (Heap [] 0)
  = (inl (primesieve_error "SieveOfEratosthenes: start must be >= 7"), Heap [] 0)
  ∧ construct no_failure zeroes 9 8 1 13 (Heap [] 0)
    = (inl (primesieve_error "SieveOfEratosthenes: start must be <= stop"), Heap [] 0)
  ∧ (∃ x h',
       construct no_failure zeroes 7 (getMaxStop + 1) 1 13 (Heap [] 0) = (inl x, h'))
  ∧ (∃ x h', construct no_failure zeroes 7 100 1 12 (Heap [] 0) = (inl x, h'))
  ∧ ∃ e h', construct no_failure zeroes 7 100 0 13 (Heap [] 0) = (inr e, h').
Proof.
  split_and!.
  - apply (proj1 (construct_preconditions no_failure zeroes 3 100 1 13 (Heap [] 0))).
    lia.
  - apply (proj1 (proj2
             (construct_preconditions no_failure zeroes 9 8 1 13 (Heap [] 0)))); lia.
  - apply (proj1 (proj2 (proj2
             (construct_preconditions no_failure zeroes 7 (getMaxStop + 1) 1 13
                (Heap [] 0))))).
    + lia.
    + rewrite getMaxStop_eq. lia.
  - apply (proj1 (proj2 (proj2 (proj2
             (construct_preconditions no_failure zeroes 7 100 1 12 (Heap [] 0)))))).
    lia.
  - apply (proj2 (proj2 (proj2 (proj2 (proj2
             (construct_preconditions no_failure zeroes 7 100 0 13 (Heap [] 0))))))).
    + lia.
    + rewrite getMaxStop_eq. lia.
    + lia.
    + intros k. reflexivity.
Defined.

(** C2 as claimed fails: a sieve size of 0 KiB violates the precondition
    and construction does not fail, with a descriptive error or any
    other. *)
Lemma sieveSize_out_of_range_accepted :
  ¬ (∀ start stop sieveSize preSieve,
       start < 7 ∨ stop < start ∨ getMaxStop < stop
       ∨ ¬ (1 ≤ sieveSize ≤ 4096) ∨ ¬ (13 ≤ preSieve ≤ 23) →
       ∃ x h',
         construct no_failure zeroes start stop sieveSize preSieve (Heap [] 0)
         = (inl x, h')).
Proof.
  intros H. destruct (H 7 100 0 19) as (x & h' & Hc); [lia|].
  pose proof (I : match fst (construct no_failure zeroes 7 100 0 19 (Heap [] 0)) with
                  | inr _ => True
                  | inl _ => False
                  end) as Hok.
  rewrite Hc in Hok. exact Hok.
Qed.

(** C3 at the small engine: one call. *)
Lemma sink_calls_witness :
  ∃ e',
    (∀ fuel, (length (delivered e') ≤ fuel)%nat → sieve fuel [7] demo_engine = Ok e')
    ∧ Z.of_nat (length (delivered e'))
      = ceil_div (100 - 1 - segmentLow_ demo_engine) (sieveSize_ demo_engine * 30).
Proof.
  apply (sink_calls no_failure zeroes 7 100 1 13 (Heap [] 0) demo_heap demo_engine).
  - lia.
  - vm_compute. discriminate.
  - reflexivity.
  - apply List.Forall_cons; [vm_compute; discriminate|apply List.Forall_nil].
Defined.

(** C3 as claimed fails at [stop = 30721], the last integer of the first
    segment of 1 KiB: the sink is called once, where the claimed count is
    2. *)
Lemma sink_calls_at_segment_end :
  ¬ (∀ start stop sieveSize limit e h' e' fuel,
       7 ≤ start ≤ stop → stop ≤ getMaxStop →
       construct no_failure zeroes start stop sieveSize limit (Heap [] 0)
       = (inr e, h') →
       sieve fuel (Spec.sieving_primes (sqrtStop_ e)) e = Ok e' →
       Z.of_nat (length (delivered e'))
       = ceil_div (stop - segmentLow_ e) (sieveSize_ e * 30)).
Proof.
  intros H.
  assert (7 ≤ 7 ≤ 30721) as Hstart by lia.
  assert (30721 ≤ getMaxStop) as Hstop by (vm_compute; discriminate).
  assert (construct no_failure zeroes 7 30721 1 19 (Heap [] 0)
          = (inr edge_engine, edge_heap)) as Hctor by reflexivity.
  destruct (run_sink_calls no_failure zeroes 7 30721 1 19 (Heap [] 0) edge_heap
              edge_engine Hstart Hstop Hctor
              (Spec.sieving_primes (sqrtStop_ edge_engine)))
    as (e' & Hrun & Hlen).
  { apply Forall_forall. intros p Hp.
    apply SpecFacts.sieving_primes_spec in Hp. lia. }
  specialize (H 7 30721 1 19 edge_engine edge_heap e' (length (delivered e'))
                Hstart Hstop Hctor (Hrun _ (le_n _))).
  rewrite Hlen in H. vm_compute in H. discriminate H.
Qed.

(** C4 at the small engine. *)
Lemma segmentLow_aligned_witness :
  (∀ x, sieving demo_engine x →
     segmentLow_ x mod 30 = 0
     ∧ ∀ x', segmentHigh_ x < stop_ x → sieveSegment x = Ok x' →
         segmentLow_ (advance_window x')
         = segmentLow_ x + sieveSize_ demo_engine * 30)
  ∧ ∀ primes, Forall (λ p, p ≤ sqrtStop_ demo_engine) primes →
      ∃ e', (∀ fuel, (length (delivered e') ≤ fuel)%nat →
               sieve fuel primes demo_engine = Ok e')
        ∧ segmentLow_ e' mod 30 = 0
        ∧ ∀ (k : nat) seg, delivered e' !! k = Some seg →
            seg_low seg mod 30 = 0
            ∧ seg_low seg
              = segmentLow_ demo_engine + Z.of_nat k * (sieveSize_ demo_engine * 30).
Proof.
  apply (segmentLow_aligned no_failure zeroes 7 100 1 13 (Heap [] 0) demo_heap
           demo_engine).
  - lia.
  - vm_compute. discriminate.
  - reflexivity.
Defined.

(** C5 at the small engine. *)
Lemma segmentHigh_window_witness :
  (∀ x, sieving demo_engine x →
     segmentHigh_ x = segmentLow_ x + sieveSize_ x * 30 + 1
     ∧ segmentHigh_ x = segmentLow_ x + 30 * (sieveSize_ x - 1) + 31
     ∧ ∀ i v, 0 ≤ i < sieveSize_ x → v ∈ bitValues_ →
         segmentLow_ x + 30 * i + v ≤ segmentHigh_ x)
  ∧ ∀ primes, Forall (λ p, p ≤ sqrtStop_ demo_engine) primes →
      ∃ e', (∀ fuel, (length (delivered e') ≤ fuel)%nat →
               sieve fuel primes demo_engine = Ok e')
        ∧ segmentHigh_ e' = segmentLow_ e' + sieveSize_ e' * 30 + 1
        ∧ 100 ≤ segmentHigh_ e'.
Proof.
  apply (segmentHigh_window no_failure zeroes 7 100 1 13 (Heap [] 0) demo_heap
           demo_engine).
  - lia.
  - vm_compute. discriminate.
  - reflexivity.
Defined.

(** C5 as claimed fails on the engine just constructed: [segmentHigh_] is
    30721, not 30719. *)
Lemma segmentHigh_not_minus_one :
  ¬ (∀ start stop sieveSize limit e h',
       7 ≤ start ≤ stop → stop ≤ getMaxStop →
       construct no_failure zeroes start stop sieveSize limit (Heap [] 0)
       = (inr e, h') →
       segmentHigh_ e = segmentLow_ e + sieveSize_ e * 30 - 1).
Proof.
  intros H.
  specialize (H 7 100 1 13 demo_engine demo_heap ltac:(lia)
                ltac:(vm_compute; discriminate) ltac:(reflexivity)).
  vm_compute in H. discriminate H.
Qed.

(** C6 at the small engine. *)
Lemma last_segment_masked_witness :
  ∃ e' final,
    (∀ fuel, (length (delivered e') ≤ fuel)%nat → sieve fuel [7] demo_engine = Ok e')
    ∧ last (delivered e') = Some final
    ∧ (∃ b, seg_bytes final !! Z.to_nat (seg_size final - 1) = Some b
            ∧ ∀ (j : nat) v, bitValues_ !! j = Some v →
                100 < seg_low final + 30 * (seg_size final - 1) + v →
                Z.testbit b (Z.of_nat j) = false)
    ∧ (∀ i : nat,
         seg_size final ≤ Z.of_nat i < seg_size final + (- seg_size final) mod 8 →
         seg_bytes final !! i = Some 0)
    ∧ (∀ n, n ∈ decode final → n ≤ 100).
Proof.
  apply (last_segment_masked no_failure zeroes 7 100 1 13 (Heap [] 0) demo_heap
           demo_engine).
  - lia.
  - vm_compute. discriminate.
  - reflexivity.
  - apply List.Forall_cons; [vm_compute; discriminate|apply List.Forall_nil].
Defined.

(** C7 at the only segment of the small engine. *)
Lemma start_edge_masked_once_witness :
  let x := last_segment demo_engine in
  ∃ a bytes ap pre,
    sieve_ x = Some (a, bytes) ∧ preSieve_ x = Some (ap, pre)
    ∧ ((delivered x = [] ∧ segmentLow_ x ≤ 7
        ∧ ∃ bytes',
            preSieve x = Ok (set_sieve (Some (a, bytes')) x)
            ∧ length bytes' = length bytes
            ∧ ∀ (i : nat) b f (j : nat) v,
                bytes' !! i = Some b → filled x pre bytes !! i = Some f →
                bitValues_ !! j = Some v →
                let n := segmentLow_ x + 30 * Z.of_nat i + v in
                (n < 7 → i = 0%nat ∧ Z.testbit b (Z.of_nat j) = false)
                ∧ (7 ≤ n →
                   Z.testbit b (Z.of_nat j)
                   = if decide (i = 0%nat ∧ 7 ≤ limitPreSieve_ x) then true
                     else Z.testbit f (Z.of_nat j)))
       ∨ (delivered x ≠ [] ∧ 7 < segmentLow_ x
          ∧ preSieve x = Ok (set_sieve (Some (a, filled x pre bytes)) x))).
Proof.
  apply (start_edge_masked_once no_failure zeroes 7 100 1 13 (Heap [] 0) demo_heap
           demo_engine).
  - lia.
  - vm_compute. discriminate.
  - reflexivity.
  - apply presieving_last; [apply sieving_constructed|]. vm_compute. discriminate.
Defined.

(** C8: 3 KiB become 2 KiB. *)
Lemma sieveSize_coerced_witness :
  sieveSize_ coerced_engine = getInBetween 1 (floorPowerOf2 3) 4096 * 1024
  ∧ (∃ k, 0 ≤ k ≤ 12 ∧ sieveSize_ coerced_engine = 2 ^ k * 1024)
  ∧ 1 * 1024 ≤ sieveSize_ coerced_engine ≤ 4096 * 1024
  ∧ (1 ≤ 3 ≤ 4096 →
     ∃ k, sieveSize_ coerced_engine = 2 ^ k * 1024 ∧ 2 ^ k ≤ 3 < 2 ^ (k + 1)).
Proof.
  apply (sieveSize_coerced no_failure zeroes 7 100 3 13 (Heap [] 0) coerced_engine
           coerced_heap).
  reflexivity.
Defined.

(** C9: the second request (the [PreSieve] object) fails. *)
Lemma construct_failure_releases_witness :
  ∃ x,
    fst failing_construct = inl x
    ∧ (x = bad_alloc ∨ x = std_exception)
    ∧ live (snd failing_construct) = [].
Proof.
  apply (construct_failure_releases oom_second zeroes 7 100 1 13 (Heap [] 0)
           (fst failing_construct) (snd failing_construct)).
  - apply List.Forall_nil.
  - apply surjective_pairing.
  - exists 1%nat. vm_compute.
    split; [split|]; [repeat constructor..|reflexivity].
Defined.

(** C10 at the small engine: [start = 7] is below the limit 13. *)
Lemma first_byte_restored_witness :
  segmentLow_ demo_engine = 0
  ∧ (∀ v, v ∈ bitValues_ → Z.prime v)
  ∧ (∀ x, presieving demo_engine x → delivered x = [] →
       ∃ a (bytes bytes' : list Z) b0 f0,
         sieve_ x = Some (a, bytes)
         ∧ preSieve x = Ok (set_sieve (Some (a, bytes')) x)
         ∧ filled x 13 bytes !! 0%nat = Some f0
         ∧ bytes' !! 0%nat = Some b0
         ∧ ∀ (j : nat) v, bitValues_ !! j = Some v →
             (v ≤ 13 → Z.testbit f0 (Z.of_nat j) = false)
             ∧ Z.testbit b0 (Z.of_nat j) = (7 <=? v))
  ∧ ∃ e',
      (∀ fuel, (length (delivered e') ≤ fuel)%nat →
         sieve fuel (Spec.sieving_primes (sqrtStop_ demo_engine)) demo_engine = Ok e')
      ∧ ∀ p, Z.prime p → p ≤ 13 → 7 ≤ p ≤ 100 → p ∈ reported (delivered e').
Proof.
  apply (SpecFacts.first_byte_restored (λ s, 3 * s / 4) (λ s, 9 * s) no_failure zeroes
           7 100 1 13 (Heap [] 0) demo_heap demo_engine).
  - lia.
  - vm_compute. discriminate.
  - lia.
  - reflexivity.
  - lia.
Defined.

End Examples.

(** * More of the code

    ** [getByteRemainder], [bitValues_] and the De Bruijn table *)

Lemma getByteRemainder_offset low g v :
  low mod 30 = 0 → 2 ≤ v ≤ 31 → getByteRemainder (low + 30 * g + v) = v.
Proof.
  intros Hlow Hv. unfold getByteRemainder, NUMBERS_PER_BYTE.
  destruct (Z.leb_spec ((low + 30 * g + v) mod 30) 1);
    revert Hlow; Z.div_mod_to_equations; lia.
Qed.

(** X1.  [getByteRemainder n] is the one [r] in [2, 31] with [n - r] a
    multiple of 30. *)
Theorem getByteRemainder_unique n r :
  r = getByteRemainder n ↔ 2 ≤ r ≤ 31 ∧ (n - r) mod 30 = 0.
Proof.
  unfold getByteRemainder, NUMBERS_PER_BYTE. split.
  - intros ->. destruct (Z.leb_spec (n mod 30) 1); Z.div_mod_to_equations; lia.
  - intros [Hr Hm]. destruct (Z.leb_spec (n mod 30) 1); Z.div_mod_to_equations; lia.
Qed.

(** X2.  For the integer of bit [j] of a byte, [30 * m + bitValues_[j]],
    [getByteRemainder] gives back [bitValues_[j]], the loop of [preSieve]
    stops at [i = j] and the loop of [finish] at [i = j + 1]: the masks
    [0xff << i] and [~(0xff << i)] both keep the bit of the integer
    itself. *)
Theorem bit_index_round_trip m (j : nat) v :
  bitValues_ !! j = Some v →
  getByteRemainder (30 * m + v) = v
  ∧ skip_below (getByteRemainder (30 * m + v)) bitValues_ 0 = Ok (Z.of_nat j)
  ∧ upto_above (getByteRemainder (30 * m + v)) bitValues_ 0 = Z.of_nat j + 1.
Proof.
  intros Hj.
  assert (getByteRemainder (30 * m + v) = v) as ->.
  { destruct (bitValues_range j v Hj).
    apply (getByteRemainder_offset 0 m v); [done|lia]. }
  split; [done|].
  do 8 (destruct j as [|j]; [injection Hj as <-; by vm_compute|]).
  done.
Qed.

(** X3.  For every [n] the loop [while (bitValues_[i] < remainder) i++]
    of [preSieve] ends at an index [i <= 7] without reading past the
    table, and the loop of [finish] at [k <= 8]: [i] counts the bit values
    below the remainder, [k] those up to it, and [k] is [i] or [i + 1]. *)
Theorem edge_loops_in_bounds n :
  ∃ i k : nat,
    skip_below (getByteRemainder n) bitValues_ 0 = Ok (Z.of_nat i)
    ∧ upto_above (getByteRemainder n) bitValues_ 0 = Z.of_nat k
    ∧ (i ≤ 7)%nat ∧ (k ≤ 8)%nat ∧ (i ≤ k ≤ i + 1)%nat
    ∧ ∀ (j : nat) v, bitValues_ !! j = Some v →
        (v < getByteRemainder n ↔ (j < i)%nat)
        ∧ (v ≤ getByteRemainder n ↔ (j < k)%nat).
Proof.
  pose proof (getByteRemainder_range n) as Hr.
  destruct (skip_below_spec (getByteRemainder n) bitValues_ 0 bitValues_sorted)
    as (i & Hi & Hbelow).
  { exists 31. split; [|lia]. unfold bitValues_. rewrite !elem_of_cons. tauto. }
  destruct (upto_above_spec (getByteRemainder n) bitValues_ 0 bitValues_sorted)
    as (k & Hk & Hlen & Hupto).
  cbn in Hlen.
  assert (i ≤ 7)%nat as Hi7.
  { assert (¬ (7 < i)%nat); [|lia]. intros Hlt.
    pose proof (proj2 (Hbelow 7%nat 31 eq_refl) Hlt). lia. }
  exists i, k. rewrite Hi, Hk. split_and!; try done.
  - destruct (decide (i ≤ k)%nat) as [|Hn]; [done|].
    destruct (lookup_lt_is_Some_2 bitValues_ k) as [v Hv]; [cbn; lia|].
    pose proof (proj2 (Hbelow k v Hv) ltac:(lia)).
    pose proof (proj1 (Hupto k v Hv)). lia.
  - destruct (decide (k ≤ i + 1)%nat) as [|Hn]; [done|].
    destruct (lookup_lt_is_Some_2 bitValues_ i) as [v Hv]; [cbn; lia|].
    destruct (lookup_lt_is_Some_2 bitValues_ (S i)) as [v' Hv']; [cbn; lia|].
    pose proof (proj2 (Hupto (S i) v' Hv') ltac:(lia)).
    pose proof (proj1 (Hbelow i v Hv)).
    assert (v < v'); [|lia].
    clear -Hv Hv'. do 8 (destruct i as [|i]; [cbn in *; simplify_eq; lia|]). done.
  - intros j v Hv. split; [apply Hbelow|apply Hupto]; done.
Qed.

(** X4.  [bruijnBitValues_] has 64 different entries, and there is a
    64-bit multiplier under which the entry for the word with bits [0..k]
    set is the integer of bit [k] of eight consecutive sieve bytes,
    [30 * (k / 8) + bitValues_[k mod 8]]. *)
Theorem bruijnBitValues_bitscan :
  length bruijnBitValues_ = 64%nat
  ∧ NoDup bruijnBitValues_
  ∧ ∃ magic, 0 ≤ magic < 2 ^ 64
      ∧ ∀ k, 0 ≤ k < 64 →
          bruijn_entry magic (2 ^ (k + 1) - 1)
          = (λ v, NUMBERS_PER_BYTE * (k / 8) + v) <$> bitValues_ !! Z.to_nat (k mod 8).
Proof.
  split_and!; [done| |].
  - apply (bool_decide_unpack _). by vm_compute.
  - exists 0x3F08A4C6ACB9DBD. split; [lia|]. intros k Hk.
    assert (Forall (λ k, bruijn_entry 0x3F08A4C6ACB9DBD (2 ^ (k + 1) - 1)
                         = (λ v, NUMBERS_PER_BYTE * (k / 8) + v)
                             <$> bitValues_ !! Z.to_nat (k mod 8))
                   (seqZ 0 64)) as Hall.
    { apply (bool_decide_unpack _). by vm_compute. }
    rewrite Forall_forall in Hall. apply Hall.
    apply elem_of_seqZ. lia.
Qed.

(** X5.  The integers with a bit in the sieve are those coprime to 30:
    [getByteRemainder n] is one of [bitValues_] exactly when
    [gcd n 30 = 1]. *)
Theorem wheel_candidates n : getByteRemainder n ∈ bitValues_ ↔ Z.gcd n 30 = 1.
Proof.
  assert (Forall (λ r, (Z.gcd r 30 = 1) ↔ (if r <=? 1 then r + 30 else r) ∈ bitValues_)
                 (seqZ 0 30)) as Hall.
  { apply (bool_decide_unpack _). by vm_compute. }
  rewrite Forall_forall in Hall.
  unfold getByteRemainder, NUMBERS_PER_BYTE. cbn zeta.
  rewrite <- (Hall (n mod 30)).
  - rewrite Z.gcd_mod by done. by rewrite Z.gcd_comm.
  - apply elem_of_seqZ. pose proof (Z.mod_pos_bound n 30). lia.
Qed.


(** ** Ownership: construction, the run and the destructor *)

Lemma filter_keep {A : Type} (P : A → Prop) `{∀ x, Decision (P x)} (l : list A) :
  Forall P l → filter P l = l.
Proof.
  induction 1 as [|x l Hx Hl IH]; [done|].
  rewrite filter_cons_True by done. by rewrite IH.
Qed.

Lemma filter_drop {A : Type} (P : A → Prop) `{∀ x, Decision (P x)} (l : list A) :
  Forall (λ x, ¬ P x) l → filter P l = [].
Proof.
  induction 1 as [|x l Hx Hl IH]; [done|].
  by rewrite filter_cons_False.
Qed.

Section Ownership.
Context `{C : Collaborators}.
Variable oom : nat → bool.
Variable garbage : nat → Z.

Implicit Types e x : SieveOfEratosthenes.

Lemma delete_live {T : Type} (p : ptr T) h :
  live (delete p h) = filter (λ b, b ∉ address p) (live h).
Proof.
  destruct p as [[a t]|]; cbn.
  - apply list_filter_iff. intros b. by rewrite list_elem_of_singleton.
  - symmetry. apply filter_keep, Forall_forall. intros b _. apply not_elem_of_nil.
Qed.

Lemma destroy_live e h :
  live (destroy e h) = filter (λ b, b ∉ owned e) (live h).
Proof.
  unfold destroy, cleanUp. cbn. rewrite !delete_live, !list_filter_filter.
  apply list_filter_iff. intros b. unfold owned. rewrite !elem_of_app. tauto.
Qed.

Lemma destroy_fresh e h l :
  Forall (λ a, a ∉ owned e) l → live h = reverse (owned e) ++ l →
  live (destroy e h) = l.
Proof.
  intros Hl Hh. rewrite destroy_live, Hh, filter_app.
  rewrite (filter_keep _ l) by done.
  rewrite filter_drop; [done|].
  apply Forall_forall. intros b Hb Hn. apply Hn. by apply elem_of_reverse.
Qed.

Lemma exists_iff_spec {T : Type} (b : bool) (p : ptr T) :
  exists_iff b p → (is_Some p ↔ b = true).
Proof.
  destruct b; cbn.
  - done.
  - intros ->. split; [by intros [? ?]|done].
Qed.

Lemma construct_allocates start stop sieveSize preSieve h e h' :
  construct oom garbage start stop sieveSize preSieve h = (inr e, h') →
  live h' = reverse (owned e) ++ live h
  ∧ owned e = seq (requests h) (length (owned e))
  ∧ requests h' = (requests h + length (owned e))%nat.
Proof.
  run_ctor. destruct h as [lv rq]. cbn.
  repeat (case_match; simplify_eq/=); intros [= <- <-]; cbn.
  all: split_and!; try done; lia.
Qed.

Lemma construct_fresh start stop sieveSize preSieve h e h' :
  heap_wf h →
  construct oom garbage start stop sieveSize preSieve h = (inr e, h') →
  Forall (λ a, a ∉ live h) (owned e).
Proof.
  intros Hwf Hc. destruct (construct_allocates _ _ _ _ _ _ _ Hc) as (_ & Ho & _).
  rewrite Ho. apply Forall_forall. intros a Ha Hin.
  apply elem_of_seq in Ha. unfold heap_wf in Hwf. rewrite Forall_forall in Hwf.
  apply Hwf in Hin. lia.
Qed.

(** X6.  After a successful construction the engine owns exactly what
    was allocated: the free store holds the addresses behind its pointers
    on top of what was live before, these addresses are different and
    were not live, every request made gave one of them, [sieve_] and
    [preSieve_] are not [NULL], and each tier exists exactly when
    [sqrtStop_] is above the limit below it. *)
Theorem construct_owns start stop sieveSize preSieve h e h' :
  heap_wf h →
  construct oom garbage start stop sieveSize preSieve h = (inr e, h') →
  live h' = reverse (owned e) ++ live h
  ∧ NoDup (owned e)
  ∧ Forall (λ a, a ∉ live h) (owned e)
  ∧ requests h' = (requests h + length (owned e))%nat
  ∧ heap_wf h'
  ∧ is_Some (sieve_ e) ∧ is_Some (preSieve_ e)
  ∧ (is_Some (eratSmall_ e) ↔ limitPreSieve_ e < sqrtStop_ e)
  ∧ (is_Some (eratMedium_ e) ↔ limitEratSmall_ e < sqrtStop_ e)
  ∧ (is_Some (eratBig_ e) ↔ limitEratMedium_ e < sqrtStop_ e).
Proof.
  intros Hwf Hc.
  pose proof (construct_constructed _ _ _ _ _ _ _ _ _ Hc) as Hcon.
  destruct (construct_allocates _ _ _ _ _ _ _ Hc) as (Hl & Ho & Hr).
  split_and!.
  - done.
  - rewrite Ho. apply NoDup_seq.
  - by eapply construct_fresh.
  - done.
  - unfold heap_wf. rewrite Hl, Hr. apply Forall_app. split.
    + apply Forall_forall. intros a Ha. rewrite elem_of_reverse, Ho in Ha.
      apply elem_of_seq in Ha. lia.
    + eapply Forall_impl; [exact Hwf|]. cbn. lia.
  - destruct (c_sieve _ _ _ _ _ Hcon) as (a & bytes & -> & _). by eexists.
  - apply (c_preSieve _ _ _ _ _ Hcon).
  - rewrite (exists_iff_spec _ _ (c_eratSmall _ _ _ _ _ Hcon)). apply Z.ltb_lt.
  - rewrite (exists_iff_spec _ _ (c_eratMedium _ _ _ _ _ Hcon)). apply Z.ltb_lt.
  - rewrite (exists_iff_spec _ _ (c_eratBig _ _ _ _ _ Hcon)). apply Z.ltb_lt.
Qed.

Lemma bind_Ok_inv {A B : Type} (m : result A) (k : A → result B) b :
  m ≫= k = Ok b → ∃ a, m = Ok a ∧ k a = Ok b.
Proof. destruct m; cbn; [eauto|done|done]. Qed.

Lemma deref_Ok_inv {T : Type} (p : ptr T) av : deref p = Ok av → p = Some av.
Proof. destruct p; cbn; [by intros [= ->]|done]. Qed.

Lemma crossOff_if_address {T : Type} (f : T → list Z → T * list Z)
    (tier : ptr T) n bytes tier' bytes' :
  crossOff_if f tier n bytes = (tier', bytes') → address tier' = address tier.
Proof.
  unfold crossOff_if. destruct tier as [[a t]|]; [|by intros [= <- <-]].
  destruct (f t _) as [t' new]. by intros [= <- <-].
Qed.

#[local] Arguments skip_below : simpl never.
#[local] Arguments load : simpl never.
#[local] Arguments store : simpl never.
#[local] Arguments zero_tail : simpl never.

Lemma preSieve_kept e e' : preSieve e = Ok e' → kept e' = kept e.
Proof.
  unfold preSieve. intros H.
  apply bind_Ok_inv in H as ([ap pre] & Hp & H). apply deref_Ok_inv in Hp.
  apply bind_Ok_inv in H as ([a bytes] & Hs & H). apply deref_Ok_inv in Hs.
  assert (∀ bytes', kept (set_sieve (Some (a, bytes')) e) = kept e) as Hset.
  { intros bytes'. unfold kept, owned. cbn. by rewrite Hs. }
  destruct (segmentLow_ e <=? start_ e); [|by injection H as <-].
  apply bind_Ok_inv in H as (b1 & _ & H).
  apply bind_Ok_inv in H as (i & _ & H).
  apply bind_Ok_inv in H as (b & _ & H).
  apply bind_Ok_inv in H as (b2 & _ & H).
  by injection H as <-.
Qed.

Lemma crossOffMultiples_kept e e' : crossOffMultiples e = Ok e' → kept e' = kept e.
Proof.
  unfold crossOffMultiples. intros H.
  apply bind_Ok_inv in H as ([a bytes] & Hs & H). apply deref_Ok_inv in Hs.
  destruct (crossOff_if EratSmall_crossOff _ _ _) as [small b1] eqn:H1.
  destruct (crossOff_if EratMedium_crossOff _ _ _) as [medium b2] eqn:H2.
  destruct (crossOff_if EratBig_crossOff _ _ _) as [big b3] eqn:H3.
  injection H as <-. unfold kept, owned. cbn.
  rewrite (crossOff_if_address _ _ _ _ _ _ H1), (crossOff_if_address _ _ _ _ _ _ H2),
    (crossOff_if_address _ _ _ _ _ _ H3), Hs.
  done.
Qed.

Lemma sieveSegment_kept e e' : sieveSegment e = Ok e' → kept e' = kept e.
Proof.
  unfold sieveSegment. intros H.
  apply bind_Ok_inv in H as (e1 & H1 & H).
  apply bind_Ok_inv in H as (e2 & H2 & H).
  injection H as <-. apply preSieve_kept in H1. apply crossOffMultiples_kept in H2.
  by rewrite <- H1, <- H2.
Qed.

Lemma finish_loop_kept fuel e e' : finish_loop fuel e = Ok e' → kept e' = kept e.
Proof.
  revert e. induction fuel as [|fuel IH]; intros e; cbn.
  - destruct (segmentHigh_ e <? stop_ e); [done|]. by intros [= <-].
  - destruct (segmentHigh_ e <? stop_ e); [|by intros [= <-]].
    intros H. apply bind_Ok_inv in H as (e1 & H1 & H).
    apply IH in H. apply sieveSegment_kept in H1. by rewrite H, <- H1.
Qed.

Lemma finish_kept fuel e e' : finish fuel e = Ok e' → kept e' = kept e.
Proof.
  unfold finish. intros H.
  apply bind_Ok_inv in H as (e1 & H1 & H). apply finish_loop_kept in H1.
  apply bind_Ok_inv in H as (e2 & H2 & H). apply preSieve_kept in H2.
  apply bind_Ok_inv in H as (e3 & H3 & H). apply crossOffMultiples_kept in H3.
  apply bind_Ok_inv in H as ([a bytes] & Hs & H). apply deref_Ok_inv in Hs.
  apply bind_Ok_inv in H as (b & _ & H).
  apply bind_Ok_inv in H as (b1 & _ & H).
  apply bind_Ok_inv in H as (b2 & _ & H).
  injection H as <-. change (kept e2 = kept e1) in H2.
  rewrite <- H1, <- H2, <- H3. unfold kept, owned. cbn. by rewrite Hs.
Qed.

Lemma addSievingPrime_kept prime e e' :
  addSievingPrime prime e = Ok e' → kept e' = kept e.
Proof.
  unfold addSievingPrime. intros H.
  repeat case_match; try (by injection H as <-).
  all: apply bind_Ok_inv in H as ([a t] & Ht & H); apply deref_Ok_inv in Ht.
  all: injection H as <-; unfold kept, owned; cbn; by rewrite Ht.
Qed.

Lemma addSievingPrimes_kept primes e e' :
  addSievingPrimes primes e = Ok e' → kept e' = kept e.
Proof.
  revert e. induction primes as [|p primes IH]; intros e; cbn.
  - by intros [= <-].
  - intros H. apply bind_Ok_inv in H as (e1 & H1 & H).
    apply IH in H. apply addSievingPrime_kept in H1. by rewrite H.
Qed.

Lemma sieve_kept fuel primes e e' : sieve fuel primes e = Ok e' → kept e' = kept e.
Proof.
  unfold sieve. intros H. apply bind_Ok_inv in H as (e1 & H1 & H).
  apply addSievingPrimes_kept in H1. apply finish_kept in H. by rewrite H.
Qed.

(** X7.  The destructor gives back everything the constructor
    allocated, right after construction and after any run that returns:
    the live allocations are again those from before the construction. *)
Theorem destroy_releases start stop sieveSize preSieve h e h' :
  heap_wf h →
  construct oom garbage start stop sieveSize preSieve h = (inr e, h') →
  live (destroy e h') = live h
  ∧ ∀ fuel primes e',
      sieve fuel primes e = Ok e' → live (destroy e' h') = live h.
Proof.
  intros Hwf Hc.
  destruct (construct_allocates _ _ _ _ _ _ _ Hc) as (Hl & _).
  pose proof (construct_fresh _ _ _ _ _ _ _ Hwf Hc) as Hfresh.
  assert (∀ x, owned x = owned e → live (destroy x h') = live h) as Hd.
  { intros x Hx. apply destroy_fresh; rewrite Hx; [|done].
    apply Forall_forall. intros a Ha Ho.
    rewrite Forall_forall in Hfresh. by apply (Hfresh a Ho). }
  split; [by apply Hd|].
  intros fuel primes e' Hrun. apply Hd.
  apply sieve_kept in Hrun. unfold kept in Hrun. congruence.
Qed.

Ltac release H :=
  cbn; repeat (case_decide; try lia);
  repeat first
    [ rewrite filter_same
    | rewrite filter_other by lia
    | rewrite (filter_fresh _ _ _ H) by lia ];
  try done.

(** X8.  The exceptions that leave the constructor: the two
    [primesieve_error]s for [start < 7] and [start > stop], [bad_alloc]
    when the array cannot be allocated, and otherwise the [std::exception]
    that [init] rethrows by value, whatever was thrown inside it.  In each
    case the live allocations are those from before the call. *)
Theorem constructor_exceptions start stop sieveSize preSieve h ex h' :
  heap_wf h →
  construct oom garbage start stop sieveSize preSieve h = (inl ex, h') →
  live h' = live h
  ∧ ((start < 7
      ∧ ex = primesieve_error "SieveOfEratosthenes: start must be >= 7")
     ∨ (7 ≤ start ∧ stop < start
        ∧ ex = primesieve_error "SieveOfEratosthenes: start must be <= stop")
     ∨ (7 ≤ start ≤ stop ∧ oom (requests h) = true ∧ ex = bad_alloc)
     ∨ (7 ≤ start ≤ stop ∧ oom (requests h) = false ∧ ex = std_exception)).
Proof.
  intros Hwf Hc. revert Hc. run_ctor.
  destruct h as [lv rq]. unfold heap_wf in Hwf. cbn in *.
  destruct (Z.ltb_spec start 7) as [H7|H7]; [intros [= <- <-]; by auto|].
  destruct (Z.ltb_spec stop start) as [Hs|Hs]; [intros [= <- <-]; by auto 6|].
  cbn. destruct (oom rq) eqn:Hoom; [intros [= <- <-]; cbn; split; [done|]; do 2 right; left; by auto|].
  cbn. repeat (case_match; simplify_eq/=); intros [= <- <-].
  all: split; [release Hwf|do 3 right; split_and!; (done || lia)].
Qed.

(** X11.  [getPreSieve] returns the constructor's argument and
    [getSqrtStop] the truncated [isqrt(stop)]; a run changes neither, nor
    [start_] and [stop_]. *)
Theorem getters_constant start stop sieveSize preSieve h e h' :
  construct oom garbage start stop sieveSize preSieve h = (inr e, h') →
  getPreSieve e = preSieve
  ∧ getSqrtStop e = uint_t (isqrt stop)
  ∧ ∀ fuel primes e',
      sieve fuel primes e = Ok e' →
      getSqrtStop e' = getSqrtStop e ∧ getPreSieve e' = getPreSieve e
      ∧ start_ e' = start ∧ stop_ e' = stop.
Proof.
  intros Hc. pose proof (construct_constructed _ _ _ _ _ _ _ _ _ Hc) as Hcon.
  split_and!.
  - apply (c_limitPreSieve _ _ _ _ _ Hcon).
  - apply (c_sqrtStop _ _ _ _ _ Hcon).
  - intros fuel primes e' Hrun. apply sieve_kept in Hrun. unfold kept in Hrun.
    injection Hrun as H1 H2 H3 H4 _ _ _.
    rewrite <- (c_start _ _ _ _ _ Hcon), <- (c_stop _ _ _ _ _ Hcon).
    unfold getSqrtStop, getPreSieve. by split_and!.
Qed.

End Ownership.


(** ** The segments of a run *)

Lemma bitValues_inj (j j' : nat) v :
  bitValues_ !! j = Some v → bitValues_ !! j' = Some v → j = j'.
Proof.
  intros Hj Hj'.
  do 8 (destruct j as [|j]; [do 8 (destruct j' as [|j']; [cbn in *; by simplify_eq|]);
                             done|]).
  done.
Qed.

Section Segments.
Context `{C : Collaborators}.
Variable oom : nat → bool.
Variable garbage : nat → Z.

Implicit Types e x : SieveOfEratosthenes.

#[local] Arguments preSieve : simpl never.
#[local] Arguments crossOffMultiples : simpl never.
#[local] Arguments sieveSegment : simpl never.
#[local] Arguments finish_loop : simpl never.
#[local] Arguments finish : simpl never.
#[local] Arguments addSievingPrimes : simpl never.

Variables start stop sieveSize limit : Z.
Variables h h' : heap.
Variable e : SieveOfEratosthenes.

Hypothesis Hstart : 7 ≤ start ≤ stop.
Hypothesis Hstop : stop ≤ getMaxStop.
Hypothesis Hctor :
  construct oom garbage start stop sieveSize limit h = (inr e, h').

(** The calls of the sink in a full run: full segments, then the last. *)
Lemma run_segments primes :
  Forall (λ p, p ≤ sqrtStop_ e) primes →
  ∃ e' (full : list Segment) final,
    (∀ fuel, (length (delivered e') ≤ fuel)%nat → sieve fuel primes e = Ok e')
    ∧ delivered e' = full ++ [final]
    ∧ (∀ (k : nat) seg, full !! k = Some seg →
         seg_low seg = segmentLow_ e + Z.of_nat k * (sieveSize_ e * 30)
         ∧ seg_size seg = sieveSize_ e
         ∧ Z.of_nat (length (seg_bytes seg)) = sieveSize_ e)
    ∧ seg_low final = segmentLow_ e + Z.of_nat (length full) * (sieveSize_ e * 30)
    ∧ seg_size final = sieveSize_ e'
    ∧ Z.of_nat (length (seg_bytes final)) = sieveSize_ e
    ∧ 1 ≤ seg_size final ≤ sieveSize_ e
    ∧ seg_low final + 30 * (seg_size final - 1) = stop - getByteRemainder stop
    ∧ 1024 ≤ sieveSize_ e ∧ sieveSize_ e mod 8 = 0
    ∧ segmentLow_ e = start - getByteRemainder start.
Proof.
  intros Hps. pose proof (run_ready oom garbage _ _ _ _ _ _ _ Hstart Hstop Hctor) as He.
  destruct (addSievingPrimes_spec primes e He Hps)
    as (e0 & Hadd & He0 & Hsc0 & Hl0 & Hh0 & Hs0 & Hp0 & Hd0).
  destruct (finish_spec e0 He0)
    as (e1 & e2 & e3 & a & bytes & bytes' & b & b' & Hloop & He1 & Hge & Hlen & _ & _ & _
        & Hsc3 & Hl3 & Hh3 & Hd3 & _ & Hfin & Hlen' & _).
  destruct (run_low0 oom garbage _ _ _ _ _ _ _ Hstart Hstop Hctor) as [Hlow0 Hnil].
  destruct (run_start_stop oom garbage _ _ _ _ _ _ _ Hctor) as [Hstart' Hstop'].
  assert (sieving e e1) as Hsv.
  { eapply sieving_trans; [by eapply addSievingPrimes_sieving|].
    by apply looping_sieving. }
  destruct (run_sieving oom garbage _ _ _ _ _ _ _ Hstart Hstop Hctor e1 Hsv)
    as (_ & Hstart1 & Hstop1 & Hsz1 & Hlo1).
  destruct (scalars_eq _ _ Hsc3) as (_ & _ & Hsz3 & _).
  destruct (scalars_eq _ _ Hsc0) as (_ & _ & Hsz0 & _).
  destruct (last_segment_spec e1 He1 Hge) as (Hsz & Hlast & Hhigh).
  exists (segmentProcessed (set_sieve (Some (a, bytes')) e3)), (delivered e1),
    {| seg_low := segmentLow_ e3; seg_size := sieveSize_ e3; seg_bytes := bytes' |}.
  split_and!.
  - intros fuel Hfuel. unfold sieve. rewrite Hadd, bind_Ok. apply Hfin.
    revert Hfuel. cbn. rewrite length_app, Hd3, Hlen, Hd0, Hnil. cbn. lia.
  - cbn. by rewrite Hd3.
  - intros k seg Hk. destruct (r_delivered e1 He1 k seg Hk) as (Hk1 & Hk2 & Hk3).
    rewrite Hlo1 in Hk1. unfold width, NUMBERS_PER_BYTE in Hk1. rewrite Hsz1 in *. done.
  - cbn. rewrite Hl3, (r_low e1 He1), Hlo1. unfold width, NUMBERS_PER_BYTE.
    by rewrite Hsz1.
  - done.
  - cbn. by rewrite Hlen', Hsz0.
  - cbn. rewrite Hsz3. lia.
  - cbn. rewrite Hsz3. lia.
  - cbn. rewrite Hsz3, Hl3, Hlast, Hstop1. done.
  - pose proof (r_size e He). lia.
  - apply (r_size8 e He).
  - rewrite Hlow0. unfold low0. by rewrite Hstart'.
Qed.

(** X9.  In a full run the sink is called at least once, always on the
    whole array; every call but the last is given the constructed
    [sieveSize_], the last a length between 1 and [sieveSize_] whose last
    byte is the byte of [stop]; [sieveSize_] keeps this last length. *)
Theorem delivered_sizes primes :
  Forall (λ p, p ≤ sqrtStop_ e) primes →
  ∃ e',
    (∀ fuel, (length (delivered e') ≤ fuel)%nat → sieve fuel primes e = Ok e')
    ∧ (0 < length (delivered e'))%nat
    ∧ ∀ (k : nat) seg, delivered e' !! k = Some seg →
        Z.of_nat (length (seg_bytes seg)) = sieveSize_ e
        ∧ if decide (S k = length (delivered e'))
          then 1 ≤ seg_size seg ≤ sieveSize_ e
               ∧ seg_size seg = sieveSize_ e'
               ∧ seg_low seg + 30 * (seg_size seg - 1) + 2 ≤ stop
                 ≤ seg_low seg + 30 * (seg_size seg - 1) + 31
          else seg_size seg = sieveSize_ e.
Proof.
  intros Hps.
  destruct (run_segments primes Hps)
    as (e' & full & final & Hrun & Hd & Hfull & Hlow & Hsize & Hlen & Hrange & Hlast & _).
  pose proof (getByteRemainder_range stop) as Hr.
  exists e'. split; [done|]. rewrite Hd, length_app. cbn. split; [lia|].
  intros k seg Hk. apply lookup_app_Some in Hk as [Hk|[Hge Hk]].
  - destruct (Hfull k seg Hk) as (_ & Hs & Hb). split; [done|].
    apply lookup_lt_Some in Hk. case_decide; [lia|done].
  - apply list_lookup_singleton_Some in Hk as [Hk <-]. split; [done|].
    case_decide; [|lia]. split_and!; lia.
Qed.

(** X10.  The calls of the sink tile the interval: every integer of
    [start, stop] that is coprime to 30 has a position (call, byte, bit),
    no integer has two, and the positions stand for integers above the
    first [segmentLow_] and up to the byte of [stop]. *)
Theorem candidates_tiled primes :
  Forall (λ p, p ≤ sqrtStop_ e) primes →
  ∃ e',
    (∀ fuel, (length (delivered e') ≤ fuel)%nat → sieve fuel primes e = Ok e')
    ∧ (∀ n, start ≤ n ≤ stop → getByteRemainder n ∈ bitValues_ →
         ∃ k i j, position (delivered e') k i j n)
    ∧ (∀ k i j k' i' j' n,
         position (delivered e') k i j n → position (delivered e') k' i' j' n →
         k = k' ∧ i = i' ∧ j = j')
    ∧ (∀ k i j n,
         position (delivered e') k i j n →
         segmentLow_ e < n
         ∧ n - getByteRemainder n ≤ stop - getByteRemainder stop).
Proof.
  intros Hps.
  destruct (run_segments primes Hps)
    as (e' & full & final & Hrun & Hd & Hfull & Hlow & Hsize & Hlen & Hrange & Hlast
        & Hs & _ & Hlow0).
  pose proof (getByteRemainder_range stop) as Hr.
  pose proof (getByteRemainder_range start) as Hr0.
  set (S0 := sieveSize_ e) in *. set (N := length full) in *.
  assert (segmentLow_ e mod 30 = 0) as Hmod.
  { rewrite Hlow0. apply getByteRemainder_mod. }
  (* every position is an offset from the first segment *)
  assert (∀ k i j n, position (delivered e') k i j n →
            ∃ v, bitValues_ !! j = Some v ∧ 7 ≤ v ≤ 31
                 ∧ n = segmentLow_ e + 30 * (Z.of_nat k * S0 + Z.of_nat i) + v
                 ∧ 0 ≤ Z.of_nat i < S0 ∧ (k ≤ N)%nat
                 ∧ (k = N → Z.of_nat i < seg_size final)) as Hpos.
  { intros k i j n (seg & v & Hk & Hi & Hv & ->). exists v.
    destruct (bitValues_range j v Hv) as [Hvr _]. unfold NUMBERS_PER_BYTE.
    rewrite Hd in Hk. apply lookup_app_Some in Hk as [Hk|[Hge Hk]].
    - destruct (Hfull k seg Hk) as (Hl & Hsz & _). apply lookup_lt_Some in Hk.
      fold N in Hk. split_and!; try done; try lia.
    - apply list_lookup_singleton_Some in Hk as [Hk <-]. fold N in Hge, Hk.
      assert (k = N) as -> by lia. split_and!; try done; try lia. }
  exists e'. split_and!; [done| | |].
  - intros n Hn Hcand. apply list_elem_of_lookup in Hcand as [j Hj].
    set (r := getByteRemainder n) in *.
    pose proof (getByteRemainder_range n) as Hrn. fold r in Hrn.
    pose proof (getByteRemainder_mod n) as Hnm. fold r in Hnm.
    pose proof (getByteRemainder_mod stop) as Hsm.
    pose proof (getByteRemainder_mod start) as Hstm.
    assert (∃ g, n - r = segmentLow_ e + 30 * g ∧ 0 ≤ g) as (g & Hg & Hg0).
    { exists ((n - r - segmentLow_ e) / 30). rewrite Hlow0.
      revert Hnm Hstm. Z.div_mod_to_equations. lia. }
    assert (g ≤ Z.of_nat N * S0 + (seg_size final - 1)) as Hgmax.
    { assert (n - r ≤ stop - getByteRemainder stop); [|lia].
      revert Hnm Hsm. Z.div_mod_to_equations. lia. }
    destruct (decide (g < Z.of_nat N * S0)) as [Hlt|Hge].
    + assert (g / S0 < Z.of_nat N) as Hk.
      { apply Z.div_lt_upper_bound; lia. }
      assert (0 ≤ g / S0) by (apply Z.div_pos; lia).
      destruct (lookup_lt_is_Some_2 full (Z.to_nat (g / S0))) as [seg Hseg].
      { fold N. lia. }
      destruct (Hfull _ _ Hseg) as (Hl & Hsz & _).
      exists (Z.to_nat (g / S0)), (Z.to_nat (g mod S0)), j, seg, r.
      pose proof (Z.mod_pos_bound g S0 ltac:(lia)).
      split_and!.
      * rewrite Hd. by apply lookup_app_l_Some.
      * lia.
      * done.
      * rewrite Hl. unfold NUMBERS_PER_BYTE. rewrite !Z2Nat.id by lia.
        pose proof (Z.div_mod g S0 ltac:(lia)). nia.
    + exists N, (Z.to_nat (g - Z.of_nat N * S0)), j, final, r.
      split_and!.
      * rewrite Hd. rewrite lookup_app_r by (fold N; lia).
        fold N. by rewrite Nat.sub_diag.
      * lia.
      * done.
      * rewrite Hlow. unfold NUMBERS_PER_BYTE. rewrite Z2Nat.id by lia. fold S0. lia.
  - intros k i j k' i' j' n H1 H2.
    destruct (Hpos _ _ _ _ H1) as (v & Hv & Hvr & Hn & Hi & _).
    destruct (Hpos _ _ _ _ H2) as (v' & Hv' & Hvr' & Hn' & Hi' & _).
    assert (v = v') as <- by lia.
    assert (Z.of_nat k * S0 + Z.of_nat i = Z.of_nat k' * S0 + Z.of_nat i') as Heq by lia.
    assert (k = k') as <- by nia.
    split_and!; [done|lia|by eapply bitValues_inj].
  - intros k i j n H1.
    destruct (Hpos _ _ _ _ H1) as (v & Hv & Hvr & Hn & Hi & Hk & Hfin).
    split; [nia|].
    assert (n - getByteRemainder n
            = segmentLow_ e + 30 * (Z.of_nat k * S0 + Z.of_nat i)) as ->.
    { rewrite Hn at 2. rewrite getByteRemainder_offset by (done || lia). lia. }
    destruct (decide (k = N)) as [->|Hne].
    + specialize (Hfin eq_refl). lia.
    + assert (Z.of_nat k + 1 ≤ Z.of_nat N) by lia. nia.
Qed.

End Segments.

(** ** [store_primes_in_vector.cpp] *)

Module StorePrimesFacts.
Import StorePrimes.

Lemma generatePrimes_spec generated primes :
  (length primes ≤ 1000)%nat →
  generatePrimes generated primes
  = (primes ++ (int_of_unsigned <$> take (1000 - length primes) generated),
     bool_decide (1000 - length primes < length generated)%nat).
Proof.
  revert primes. induction generated as [|p generated IH]; intros primes Hlen.
  - cbn. by rewrite take_nil, app_nil_r.
  - cbn [generatePrimes]. unfold callback.
    destruct (Nat.eqb_spec (length primes) 1000) as [Heq|Hne].
    + rewrite Heq, Nat.sub_diag. cbn. by rewrite app_nil_r.
    + rewrite IH by (rewrite length_app; cbn; lia).
      rewrite length_app. cbn [length].
      replace (1000 - length primes)%nat with (S (1000 - (length primes + 1)))%nat by lia.
      cbn [take fmap list_fmap]. rewrite <- app_assoc. cbn. f_equal.
      apply bool_decide_ext. lia.
Qed.

(** X12.  [main] stores the first 1000 arguments of the callback (all of
    them if there are fewer), converted to [int]; the callback throws
    exactly when a 1001st call is made; with at least 1000 calls the
    output is [1000 primes stored!]. *)
Theorem main_stores_first_1000 generated :
  (main generated).1 = int_of_unsigned <$> take 1000 generated
  ∧ (generatePrimes generated []).2 = bool_decide (1000 < length generated)%nat
  ∧ (length (main generated).1 ≤ 1000)%nat
  ∧ (Forall (λ p, 0 ≤ p < 2 ^ 31) generated →
     (main generated).1 = take 1000 generated)
  ∧ ((1000 ≤ length generated)%nat →
     (main generated).2
     = "1000 primes stored!" +:+ String (ascii_of_nat 10) EmptyString).
Proof.
  unfold main. rewrite generatePrimes_spec by (cbn; lia). cbn [fst snd length app].
  rewrite Nat.sub_0_r. split_and!; try done.
  - rewrite length_fmap, length_take. lia.
  - intros Hall. rewrite <- (list_fmap_id (take 1000 generated)) at 2.
    apply Forall_fmap_ext. apply Forall_take. eapply Forall_impl; [exact Hall|].
    cbn. intros p Hp. unfold int_of_unsigned. destruct (Z.ltb_spec p (2 ^ 31)); [done|lia].
  - intros Hlen. rewrite length_fmap, length_take.
    rewrite Nat.min_l by lia. reflexivity.
Qed.

End StorePrimesFacts.

(** ** [CpuInfo.cpp] *)

Module CpuInfoFacts.
Import CpuInfo.

Lemma string_app_assoc (s1 s2 s3 : string) : (s1 +:+ s2) +:+ s3 = s1 +:+ s2 +:+ s3.
Proof.
  induction s1 as [|c s1 IH]; [done|].
  change (String c ((s1 +:+ s2) +:+ s3) = String c (s1 +:+ s2 +:+ s3)). by f_equal.
Qed.

Lemma string_length_app (s1 s2 : string) :
  String.length (s1 +:+ s2) = (String.length s1 + String.length s2)%nat.
Proof.
  induction s1 as [|c s1 IH]; [done|].
  change (S (String.length (s1 +:+ s2)) = S (String.length s1 + String.length s2)).
  by f_equal.
Qed.

Lemma string_get_app (s1 s2 : string) :
  String.get (String.length s1) (s1 +:+ s2) = String.get 0 s2.
Proof. induction s1 as [|c s1 IH]; [done|]. exact IH. Qed.

Lemma read_digits_stop acc s : no_digit_first s → read_digits acc s = (acc, O).
Proof. destruct s as [|c s]; cbn; [done|]. by intros ->. Qed.

Lemma pretty_N_char_digit d :
  (d < 10)%N →
  isdigit (pretty_N_char d) = true ∧ digit_value (pretty_N_char d) = Z.of_N d.
Proof.
  intros Hd. destruct d as [|p]; [done|].
  repeat (destruct p as [p|p|]; try lia; try done).
Qed.

Lemma pretty_N_go_app x s : pretty_N_go x s = pretty_N_go x "" +:+ s.
Proof.
  revert s. induction (N.lt_wf_0 x) as [x _ IH]; intros s.
  destruct (decide (x = 0)%N) as [->|Hx]; [done|].
  assert (x `div` 10 < x)%N as Hlt by (apply N.div_lt; lia).
  rewrite !(pretty_N_go_step x) by lia.
  rewrite (IH _ Hlt (String _ s)), (IH _ Hlt (String _ "")).
  by rewrite string_app_assoc.
Qed.

Lemma digits_step x : (0 < x)%N → digits x = S (digits (x `div` 10)%N).
Proof.
  intros Hx. unfold digits. rewrite pretty_N_go_step by done.
  rewrite pretty_N_go_app, string_length_app. cbn. lia.
Qed.

Lemma read_digits_pretty x acc s :
  read_digits acc (pretty_N_go x s)
  = let '(v, n) := read_digits (acc * 10 ^ Z.of_nat (digits x) + Z.of_N x) s in
    (v, (digits x + n)%nat).
Proof.
  revert acc s. induction (N.lt_wf_0 x) as [x _ IH]; intros acc s.
  destruct (decide (x = 0)%N) as [->|Hx].
  - rewrite pretty_N_go_0. cbn. rewrite Z.mul_1_r, Z.add_0_r.
    by destruct (read_digits acc s).
  - rewrite pretty_N_go_step by lia.
    rewrite IH by (apply N.div_lt; lia). cbn [read_digits].
    destruct (pretty_N_char_digit (x `mod` 10)%N) as [-> ->].
    { apply N.mod_lt. lia. }
    rewrite (digits_step x) by lia.
    replace (10 * (acc * 10 ^ Z.of_nat (digits (x `div` 10)%N) + Z.of_N (x `div` 10))
             + Z.of_N (x `mod` 10))
      with (acc * 10 ^ Z.of_nat (S (digits (x `div` 10)%N)) + Z.of_N x).
    { destruct (read_digits _ s) as [v n]. f_equal. lia. }
    rewrite Nat2Z.inj_succ, Z.pow_succ_r by lia.
    pose proof (N.div_mod x 10 ltac:(lia)) as Hdm.
    apply (f_equal Z.of_N) in Hdm. rewrite N2Z.inj_add, N2Z.inj_mul in Hdm.
    change (Z.of_N 10) with 10 in Hdm. lia.
Qed.

Lemma digits_pos x : (0 < x)%N → (0 < digits x)%nat.
Proof. intros Hx. rewrite digits_step by done. lia. Qed.

Lemma pretty_N_go_first x s :
  (0 < x)%N → ∃ c t, pretty_N_go x s = String c t ∧ isdigit c = true.
Proof.
  revert s. induction (N.lt_wf_0 x) as [x _ IH]; intros s Hx.
  rewrite pretty_N_go_step by done.
  destruct (decide (x `div` 10 = 0)%N) as [->|Hd].
  - rewrite pretty_N_go_0. eexists _, _. split; [done|].
    apply pretty_N_char_digit, N.mod_lt. lia.
  - apply IH; [apply N.div_lt; lia|by apply N.neq_0_lt_0].
Qed.

Lemma digit_first c s :
  isdigit c = true →
  skip_space (String c s) = (O, String c s)
  ∧ match String c s with
    | String "-" s' => (true, 1%nat, s')
    | String "+" s' => (false, 1%nat, s')
    | _ => (false, O, String c s)
    end = (false, O, String c s).
Proof.
  destruct c as [[] [] [] [] [] [] [] []]; try discriminate; done.
Qed.

(** [stol] on a string that starts with a digit, and on one that starts
    with a minus sign and a digit. *)
Lemma stol_digits c s :
  isdigit c = true →
  stol (String c s)
  = match read_digits 0 (String c s) with
    | (_, O) => inl invalid_argument
    | (v, S n) =>
        if (LONG_MIN <=? v) && (v <=? LONG_MAX) then inr (v, S n)
        else inl out_of_range
    end.
Proof.
  intros Hc. unfold stol. destruct (digit_first c s Hc) as [-> ->].
  by destruct (read_digits 0 (String c s)) as [v [|n]].
Qed.

Lemma stol_minus s :
  stol (String "-" s)
  = match read_digits 0 s with
    | (_, O) => inl invalid_argument
    | (v, S n) =>
        if (LONG_MIN <=? - v) && (- v <=? LONG_MAX) then inr (- v, S (S n))
        else inl out_of_range
    end.
Proof.
  unfold stol. cbn [skip_space]. change (isspace "-") with false. cbn iota beta.
  by destruct (read_digits 0 s) as [v [|n]].
Qed.

Lemma pretty_pos p : pretty (Z.pos p) = pretty_N_go (N.pos p) "".
Proof. done. Qed.

Lemma pretty_neg p : pretty (Z.neg p) = String "-" (pretty_N_go (N.pos p) "").
Proof. done. Qed.

(** What [stol] reads from the decimal representation of [n] followed by
    something that is not a digit. *)
Lemma stol_pretty n rest :
  no_digit_first rest →
  stol (pretty n +:+ rest)
  = if (LONG_MIN <=? n) && (n <=? LONG_MAX)
    then inr (n, String.length (pretty n))
    else inl out_of_range.
Proof.
  intros Hrest. destruct n as [|p|p].
  - cbn [pretty pretty_Z]. change ("0" +:+ rest) with (String "0" rest).
    rewrite stol_digits by done. cbn [read_digits]. cbn [isdigit].
    change (isdigit "0") with true. cbn iota.
    rewrite read_digits_stop by done. done.
  - rewrite pretty_pos, <- pretty_N_go_app.
    destruct (pretty_N_go_first (N.pos p) rest) as (c & t & Heq & Hc); [lia|].
    rewrite Heq, stol_digits by done. rewrite <- Heq, read_digits_pretty.
    rewrite Z.mul_0_l, Z.add_0_l, read_digits_stop by done.
    pose proof (digits_pos (N.pos p) ltac:(lia)) as Hd.
    destruct (digits (N.pos p)) as [|d] eqn:Hdig; [lia|].
    rewrite Nat.add_0_r. unfold digits in Hdig. by rewrite Hdig.
  - rewrite pretty_neg. change (String "-" ?s +:+ rest) with (String "-" (s +:+ rest)).
    rewrite stol_minus, <- pretty_N_go_app, read_digits_pretty.
    rewrite Z.mul_0_l, Z.add_0_l, read_digits_stop by done.
    pose proof (digits_pos (N.pos p) ltac:(lia)) as Hd.
    destruct (digits (N.pos p)) as [|d] eqn:Hdig; [lia|].
    rewrite Nat.add_0_r. unfold digits in Hdig. cbn [String.length]. by rewrite Hdig.
Qed.

Lemma skip_space_app (spaces rest : string) :
  Forall (λ c, isspace c = true) (String.list_ascii_of_string spaces) →
  skip_space (spaces +:+ rest)
  = let '(n, r) := skip_space rest in ((String.length spaces + n)%nat, r).
Proof.
  induction spaces as [|c spaces IH]; intros Hsp.
  - change (EmptyString +:+ rest) with rest. by destruct (skip_space rest).
  - cbn in Hsp. apply Forall_cons in Hsp as [Hc Hsp].
    change (String c spaces +:+ rest) with (String c (spaces +:+ rest)).
    cbn [skip_space]. rewrite Hc, IH by done. by destruct (skip_space rest).
Qed.

Lemma last_filter_cons {A : Type} (P : A → Prop) `{∀ x, Decision (P x)} i l :
  last (filter P (i :: l))
  = match last (filter P l) with
    | Some j => Some j
    | None => if decide (P i) then Some i else None
    end.
Proof.
  rewrite filter_cons. destruct (decide (P i)) as [Hi|Hi]; [|by destruct (last _)].
  destruct (filter P l) as [|j l']; [done|].
  rewrite last_cons. by destruct (last (j :: l')).
Qed.

Section Files.
Variable files : string → option string.

Lemma getValue_missing filename :
  files filename = None → getValue files filename = 0.
Proof. intros Hfile. unfold getValue, getString. by rewrite Hfile. Qed.

(** X13.  [getValue] on a file that holds the decimal representation of
    [n] followed by [K], [M] or [G] is [n] times 1024, 1024^2 or 1024^3 (in
    [size_t]); followed by anything else that is not a digit, or by
    nothing, it is [n]. *)
Theorem getValue_unit filename n rest :
  files filename = Some (pretty n +:+ rest) →
  0 ≤ n ≤ LONG_MAX → no_digit_first rest →
  getValue files filename
  = match rest with
    | String "K" _ => size_t (n * 1024)
    | String "M" _ => size_t (n * (1024 * 1024))
    | String "G" _ => size_t (n * (1024 * 1024 * 1024))
    | _ => n
    end.
Proof.
  intros Hfile Hn Hrest. unfold getValue, getString. rewrite Hfile.
  rewrite stol_pretty by done.
  destruct (Z.leb_spec LONG_MIN n) as [_|Hlt]; [|unfold LONG_MIN in Hlt; lia].
  destruct (Z.leb_spec n LONG_MAX) as [_|Hlt]; [|lia]. cbn [andb].
  rewrite string_get_app.
  assert (size_t n = n) as ->.
  { unfold size_t. apply Z.mod_small. unfold LONG_MAX in Hn. lia. }
  destruct rest as [|c rest]; [done|]. cbn [String.get].
  destruct c as [[] [] [] [] [] [] [] []]; done.
Qed.

(** X14.  [getValue] is 0 when the file cannot be opened, when no number
    follows the white space at its beginning (nothing, a character that is
    neither a digit nor a sign, or a sign without a digit), and when the
    number does not fit [long]. *)
Theorem getValue_zero filename :
  (files filename = None → getValue files filename = 0)
  ∧ (∀ spaces rest,
       files filename = Some (spaces +:+ rest) →
       Forall (λ c, isspace c = true) (String.list_ascii_of_string spaces) →
       match rest with
       | EmptyString => True
       | String c rest' =>
           isspace c = false ∧ isdigit c = false
           ∧ ((c = "-" ∨ c = "+")%char → no_digit_first rest')
       end →
       getValue files filename = 0)
  ∧ (∀ n rest,
       files filename = Some (pretty n +:+ rest) → no_digit_first rest →
       ¬ (LONG_MIN ≤ n ≤ LONG_MAX) →
       getValue files filename = 0).
Proof.
  split_and!.
  - apply getValue_missing.
  - intros spaces rest Hfile Hsp Hrest. unfold getValue, getString. rewrite Hfile.
    replace (stol (spaces +:+ rest)) with (@inl stol_error (Z * nat) invalid_argument);
      [done|].
    unfold stol. rewrite skip_space_app by done.
    destruct rest as [|c rest]; [done|]. destruct Hrest as (Hs & Hd & Hsign).
    cbn [skip_space]. rewrite Hs.
    destruct (decide (c = "-"%char)) as [->|Hm].
    { rewrite read_digits_stop by auto. done. }
    destruct (decide (c = "+"%char)) as [->|Hp].
    { rewrite read_digits_stop by auto. done. }
    replace (match String c rest with
             | String "-" s' => (true, 1%nat, s')
             | String "+" s' => (false, 1%nat, s')
             | _ => (false, O, String c rest)
             end) with (false, O, String c rest).
    { rewrite read_digits_stop by done. done. }
    clear -Hm Hp. destruct c as [[] [] [] [] [] [] [] []]; done.
  - intros n rest Hfile Hrest Hn. unfold getValue, getString. rewrite Hfile.
    rewrite stol_pretty by done.
    destruct (Z.leb_spec LONG_MIN n); destruct (Z.leb_spec n LONG_MAX); try done.
    lia.
Qed.

Lemma initCache_index_sizes c i :
  let level := getValue files (level_file i) in
  let size := getValue files (size_file i) in
  let c' := initCache_index files c i in
  l1CacheSize_ c' = (if decide (level = 1) then size else l1CacheSize_ c)
  ∧ l2CacheSize_ c' = (if decide (level = 2) then size else l2CacheSize_ c)
  ∧ l3CacheSize_ c' = (if decide (level = 3) then size else l3CacheSize_ c).
Proof.
  unfold initCache_index. fold (level_file i). fold (size_file i).
  generalize (getValue files (level_file i)) (getValue files (size_file i)).
  intros level size. cbn zeta.
  destruct (Z.eqb_spec level 1) as [->|H1]; [split_and!; reflexivity|].
  destruct (Z.eqb_spec level 2) as [->|H2]; [split_and!; reflexivity|].
  destruct (Z.eqb_spec level 3) as [->|H3]; [split_and!; reflexivity|].
  cbn. by rewrite !decide_False by done.
Qed.

Lemma initCache_fold c indices :
  let c' := foldl (initCache_index files) c indices in
  l1CacheSize_ c' = size_at files (l1CacheSize_ c) (last_of_level files 1 indices)
  ∧ l2CacheSize_ c' = size_at files (l2CacheSize_ c) (last_of_level files 2 indices)
  ∧ l3CacheSize_ c' = size_at files (l3CacheSize_ c) (last_of_level files 3 indices).
Proof.
  revert c. induction indices as [|i indices IH]; intros c; [done|].
  cbn [foldl]. cbn zeta. destruct (IH (initCache_index files c i)) as (H1 & H2 & H3).
  destruct (initCache_index_sizes c i) as (G1 & G2 & G3). cbn zeta in G1, G2, G3.
  rewrite H1, H2, H3, G1, G2, G3. clear IH H1 H2 H3 G1 G2 G3.
  unfold last_of_level. rewrite !last_filter_cons.
  split_and!.
  all: destruct (last (filter _ indices)); [reflexivity|].
  all: case_decide; reflexivity.
Qed.

(** X15.  [initCache] keeps, for each cache level, the size read for the
    last index from 0 to 4 whose [level] file gives that level, and the
    old size if there is none. *)
Theorem initCache_last_index c :
  l1CacheSize_ (initCache files c)
  = size_at files (l1CacheSize_ c) (last_of_level files 1 (seqZ 0 5))
  ∧ l2CacheSize_ (initCache files c)
    = size_at files (l2CacheSize_ c) (last_of_level files 2 (seqZ 0 5))
  ∧ l3CacheSize_ (initCache files c)
    = size_at files (l3CacheSize_ c) (last_of_level files 3 (seqZ 0 5)).
Proof. exact (initCache_fold c (seqZ 0 5)). Qed.

End Files.

(** X16.  Where none of the five [level] files can be opened the
    constructor leaves all sizes 0, and no cache is reported. *)
Theorem no_files_no_cache files :
  (∀ i, 0 ≤ i ≤ 4 → files (level_file i) = None) →
  new files = {| l1CacheSize_ := 0; l2CacheSize_ := 0; l3CacheSize_ := 0 |}
  ∧ hasL1Cache (new files) = false ∧ hasL2Cache (new files) = false
  ∧ hasL3Cache (new files) = false ∧ isPrivateL2Cache (new files) = false.
Proof.
  intros Hnone.
  assert (∀ level, level ≠ 0 → last_of_level files level (seqZ 0 5) = None) as Hlast.
  { intros level Hlevel. unfold last_of_level. rewrite filter_drop; [done|].
    apply Forall_forall. intros i Hi. apply elem_of_seqZ in Hi.
    rewrite getValue_missing by (apply Hnone; lia).
    congruence. }
  assert (new files = {| l1CacheSize_ := 0; l2CacheSize_ := 0; l3CacheSize_ := 0 |})
    as ->; [|by split_and!].
  unfold new.
  destruct (initCache_fold files
              {| l1CacheSize_ := 0; l2CacheSize_ := 0; l3CacheSize_ := 0 |}
              (seqZ 0 5))
    as (H1 & H2 & H3).
  fold (initCache files {| l1CacheSize_ := 0; l2CacheSize_ := 0; l3CacheSize_ := 0 |})
    in H1, H2, H3.
  rewrite !Hlast in H1, H2, H3 by done. cbn [size_at] in H1, H2, H3.
  destruct (initCache files _) as [l1 l2 l3]. cbn in H1, H2, H3. by subst.
Qed.

End CpuInfoFacts.

(** * The further theorems at small inputs *)

Section MoreExamples.

#[local] Existing Instance Spec.typical.

(** X1 at 43: the remainder 13. *)
Lemma getByteRemainder_unique_witness : 13 = getByteRemainder 43.
Proof. apply (proj2 (getByteRemainder_unique 43 13)). split; [lia|reflexivity]. Defined.

(** X5 at 49, which is coprime to 30. *)
Lemma wheel_candidates_witness : getByteRemainder 49 ∈ bitValues_.
Proof. apply (proj2 (wheel_candidates 49)). reflexivity. Defined.

(** X2 at bit 2 of byte 1: the integer 43. *)
Lemma bit_index_round_trip_witness :
  getByteRemainder (30 * 1 + 13) = 13
  ∧ skip_below (getByteRemainder (30 * 1 + 13)) bitValues_ 0 = Ok (Z.of_nat 2)
  ∧ upto_above (getByteRemainder (30 * 1 + 13)) bitValues_ 0 = Z.of_nat 2 + 1.
Proof. apply (bit_index_round_trip 1 2 13). reflexivity. Defined.

(** X6 at the small engine. *)
Lemma construct_owns_witness :
  live demo_heap = reverse (owned demo_engine) ++ live (Heap [] 0)
  ∧ NoDup (owned demo_engine)
  ∧ Forall (λ a, a ∉ live (Heap [] 0)) (owned demo_engine)
  ∧ requests demo_heap = (requests (Heap [] 0) + length (owned demo_engine))%nat
  ∧ heap_wf demo_heap
  ∧ is_Some (sieve_ demo_engine) ∧ is_Some (preSieve_ demo_engine)
  ∧ (is_Some (eratSmall_ demo_engine)
     ↔ limitPreSieve_ demo_engine < sqrtStop_ demo_engine)
  ∧ (is_Some (eratMedium_ demo_engine)
     ↔ limitEratSmall_ demo_engine < sqrtStop_ demo_engine)
  ∧ (is_Some (eratBig_ demo_engine)
     ↔ limitEratMedium_ demo_engine < sqrtStop_ demo_engine).
Proof.
  apply (construct_owns no_failure zeroes 7 100 1 13 (Heap [] 0) demo_engine demo_heap).
  - apply List.Forall_nil.
  - reflexivity.
Defined.

(** X7 at the small engine. *)
Lemma destroy_releases_witness :
  live (destroy demo_engine demo_heap) = live (Heap [] 0)
  ∧ ∀ fuel primes e',
      sieve fuel primes demo_engine = Ok e' →
      live (destroy e' demo_heap) = live (Heap [] 0).
Proof.
  apply (destroy_releases no_failure zeroes 7 100 1 13 (Heap [] 0) demo_engine
           demo_heap).
  - apply List.Forall_nil.
  - reflexivity.
Defined.

(** X8 where the second request fails: [std::exception], and the array is
    given back. *)
Lemma constructor_exceptions_witness :
  live (Heap [] 2) = live (Heap [] 0)
  ∧ ((7 < 7
      ∧ std_exception = primesieve_error "SieveOfEratosthenes: start must be >= 7")
     ∨ (7 ≤ 7 ∧ 100 < 7
        ∧ std_exception
          = primesieve_error "SieveOfEratosthenes: start must be <= stop")
     ∨ (7 ≤ 7 ≤ 100 ∧ oom_second (requests (Heap [] 0)) = true
        ∧ std_exception = bad_alloc)
     ∨ (7 ≤ 7 ≤ 100 ∧ oom_second (requests (Heap [] 0)) = false
        ∧ std_exception = std_exception)).
Proof.
  apply (constructor_exceptions oom_second zeroes 7 100 1 13 (Heap [] 0)
           std_exception (Heap [] 2)).
  - apply List.Forall_nil.
  - reflexivity.
Defined.

(** X9 at the small engine. *)
Lemma delivered_sizes_witness :
  ∃ e',
    (∀ fuel, (length (delivered e') ≤ fuel)%nat → sieve fuel [7] demo_engine = Ok e')
    ∧ (0 < length (delivered e'))%nat
    ∧ ∀ (k : nat) seg, delivered e' !! k = Some seg →
        Z.of_nat (length (seg_bytes seg)) = sieveSize_ demo_engine
        ∧ if decide (S k = length (delivered e'))
          then 1 ≤ seg_size seg ≤ sieveSize_ demo_engine
               ∧ seg_size seg = sieveSize_ e'
               ∧ seg_low seg + 30 * (seg_size seg - 1) + 2 ≤ 100
                 ≤ seg_low seg + 30 * (seg_size seg - 1) + 31
          else seg_size seg = sieveSize_ demo_engine.
Proof.
  apply (delivered_sizes no_failure zeroes 7 100 1 13 (Heap [] 0) demo_heap
           demo_engine).
  - lia.
  - vm_compute. discriminate.
  - reflexivity.
  - apply List.Forall_cons; [vm_compute; discriminate|apply List.Forall_nil].
Defined.

(** X10 at the small engine. *)
Lemma candidates_tiled_witness :
  ∃ e',
    (∀ fuel, (length (delivered e') ≤ fuel)%nat → sieve fuel [7] demo_engine = Ok e')
    ∧ (∀ n, 7 ≤ n ≤ 100 → getByteRemainder n ∈ bitValues_ →
         ∃ k i j, position (delivered e') k i j n)
    ∧ (∀ k i j k' i' j' n,
         position (delivered e') k i j n → position (delivered e') k' i' j' n →
         k = k' ∧ i = i' ∧ j = j')
    ∧ (∀ k i j n,
         position (delivered e') k i j n →
         segmentLow_ demo_engine < n
         ∧ n - getByteRemainder n ≤ 100 - getByteRemainder 100).
Proof.
  apply (candidates_tiled no_failure zeroes 7 100 1 13 (Heap [] 0) demo_heap
           demo_engine).
  - lia.
  - vm_compute. discriminate.
  - reflexivity.
  - apply List.Forall_cons; [vm_compute; discriminate|apply List.Forall_nil].
Defined.

(** X11 at the small engine. *)
Lemma getters_constant_witness :
  getPreSieve demo_engine = 13
  ∧ getSqrtStop demo_engine = uint_t (isqrt 100)
  ∧ ∀ fuel primes e',
      sieve fuel primes demo_engine = Ok e' →
      getSqrtStop e' = getSqrtStop demo_engine
      ∧ getPreSieve e' = getPreSieve demo_engine
      ∧ start_ e' = 7 ∧ stop_ e' = 100.
Proof.
  apply (getters_constant no_failure zeroes 7 100 1 13 (Heap [] 0) demo_engine
           demo_heap).
  reflexivity.
Defined.

End MoreExamples.

(** X13 on a file that holds [32K]. *)
Lemma getValue_unit_witness :
  CpuInfo.getValue demo_files "size" = CpuInfo.size_t (32 * 1024).
Proof.
  apply (CpuInfoFacts.getValue_unit demo_files "size" 32 "K").
  - reflexivity.
  - split; [lia|vm_compute; discriminate].
  - reflexivity.
Defined.

(** X16 without files. *)
Lemma no_files_no_cache_witness :
  CpuInfo.new no_files
  = {| CpuInfo.l1CacheSize_ := 0; CpuInfo.l2CacheSize_ := 0;
       CpuInfo.l3CacheSize_ := 0 |}
  ∧ CpuInfo.hasL1Cache (CpuInfo.new no_files) = false
  ∧ CpuInfo.hasL2Cache (CpuInfo.new no_files) = false
  ∧ CpuInfo.hasL3Cache (CpuInfo.new no_files) = false
  ∧ CpuInfo.isPrivateL2Cache (CpuInfo.new no_files) = false.
Proof.
  apply (CpuInfoFacts.no_files_no_cache no_files). intros i Hi. reflexivity.
Defined.

(** X12 with three calls of the callback. *)
Lemma main_stores_first_1000_witness : (StorePrimes.main [2; 3; 5]).1 = [2; 3; 5].
Proof.
  apply (proj1 (proj2 (proj2 (proj2
           (StorePrimesFacts.main_stores_first_1000 [2; 3; 5]))))).
  repeat (apply List.Forall_cons; [lia|]). apply List.Forall_nil.
Defined.

(** X14 without files. *)
Lemma getValue_zero_witness : CpuInfo.getValue no_files "level" = 0.
Proof.
  apply (proj1 (CpuInfoFacts.getValue_zero no_files "level")). reflexivity.
Defined.
